(** * oppspot: the TypeScript fix-up scripts under [scripts/fixes]

    A shallow embedding of the three Python scripts

    - [fix-assertions.py]     (chained type-assertion cleanup),
    - [fix-final-imports.py]  (import reordering),
    - [fix-ts18046.py]        (narrowing of values of type unknown),

    together with the fragment of Python's [re] and [str] they rely on.

    Scope of the model.  Text is a list of characters with code points
    below 256; the classes [\s], [\w], [\d] and the boundary [\b] are those
    of Python's [re] on [str] for that range.  File contents are the text as
    Python hands it to the script (after decoding and newline translation).
    The identifier of a diagnostic is spliced by the script into its
    patterns without escaping; the model splices it as a literal, which is
    what Python does for an identifier made of word characters.  Statements
    about the spliced patterns are made for such identifiers only. *)

From Stdlib Require Import Ascii String DecimalString.
From Stdlib Require Import Bool Arith ZArith Lia List Permutation.
Import ListNotations.

Set Implicit Arguments.

(** ** Text *)

Definition str := list ascii.

(** Literals are written as Rocq strings. *)
Definition L (s : string) : str := list_ascii_of_string s.

Definition nl : ascii := ascii_of_nat 10.

Definition dquote : ascii := ascii_of_nat 34.

Module Text.

Definition code (c : ascii) : nat := nat_of_ascii c.

Definition between (lo hi : nat) (c : ascii) : bool :=
  (lo <=? code c) && (code c <=? hi).

(** [\s]: tab, line feed, vertical tab, form feed, carriage return, the
    four separators 28..31, the space, the next-line control 133 and the
    no-break space 160. *)
Definition is_space (c : ascii) : bool :=
  between 9 13 c || between 28 32 c || (code c =? 133) || (code c =? 160).

(** [\w]: digits, letters and the underscore; above 127 the letters and
    numeric signs of Latin-1 (170, 178, 179, 181, 185, 186, 188..190,
    192..214, 216..246, 248..255). *)
Definition is_word (c : ascii) : bool :=
  between 48 57 c || between 65 90 c || between 97 122 c || (code c =? 95)
  || (code c =? 170) || between 178 179 c || (code c =? 181)
  || between 185 186 c || between 188 190 c || between 192 214 c
  || between 216 246 c || between 248 255 c.

(** [[a-z_]] *)
Definition is_lower_us (c : ascii) : bool :=
  between 97 122 c || (code c =? 95).

(** [[^']] *)
Definition not_quote (c : ascii) : bool := negb (code c =? 39).

Fixpoint str_eqb (a b : str) : bool :=
  match a, b with
  | [], [] => true
  | x :: a', y :: b' => Ascii.eqb x y && str_eqb a' b'
  | _, _ => false
  end.

(** [s.startswith(p)]; on success the rest of [s] is returned. *)
Fixpoint strip_prefix (p s : str) : option str :=
  match p, s with
  | [], _ => Some s
  | x :: p', y :: s' => if Ascii.eqb x y then strip_prefix p' s' else None
  | _ :: _, [] => None
  end.

Definition startswith (s p : str) : bool :=
  match strip_prefix p s with Some _ => true | None => false end.

(** [needle in hay] *)
Fixpoint occurs (needle hay : str) : bool :=
  startswith hay needle ||
  match hay with
  | [] => false
  | _ :: hay' => occurs needle hay'
  end.

(** Last character of [w], or [d] when [w] is empty. *)
Definition last_char (d : option ascii) (w : str) : option ascii :=
  match rev w with
  | [] => d
  | c :: _ => Some c
  end.

Definition quote : ascii := "'"%char.

(** An identifier: a non-empty run of word characters. *)
Definition identifier (v : str) : Prop :=
  v <> [] /\ Forall (fun c => is_word c = true) v.

End Text.

(** ** The fragment of [re] used by the scripts *)

Module Re.

Import Text.

Inductive regex : Type :=
| Eps                                (* empty pattern *)
| Chr (c : ascii)                    (* a literal character *)
| Cls (p : ascii -> bool)            (* a character class *)
| Seq (r1 r2 : regex)                (* concatenation *)
| Opt (r : regex)                    (* r?  (greedy) *)
| Star (r : regex)                   (* r*  (greedy) *)
| Grp (n : nat) (r : regex)          (* the n-th capturing group *)
| Bref (n : nat)                     (* back-reference \n *)
| Wordb.                             (* \b *)

(** [r+] *)
Definition Plus (r : regex) : regex := Seq r (Star r).

(** A literal string. *)
Fixpoint Lit (s : str) : regex :=
  match s with
  | [] => Eps
  | c :: s' => Seq (Chr c) (Lit s')
  end.

(** Concatenation of a list of patterns. *)
Fixpoint Cat (rs : list regex) : regex :=
  match rs with
  | [] => Eps
  | [r] => r
  | r :: rs' => Seq r (Cat rs')
  end.

Definition groups := list (nat * str).

Fixpoint group_lookup (n : nat) (g : groups) : option str :=
  match g with
  | [] => None
  | (m, w) :: g' => if Nat.eqb n m then Some w else group_lookup n g'
  end.

(** State of the matcher: the character before the cursor, the text from
    the cursor on, and the groups captured so far. *)
Record mstate : Type := MState {
  m_prev : option ascii;
  m_rest : str;
  m_grp : groups
}.

Definition is_word_opt (o : option ascii) : bool :=
  match o with
  | Some c => is_word c
  | None => false
  end.

Definition at_boundary (st : mstate) : bool :=
  xorb (is_word_opt (m_prev st)) (is_word_opt (hd_error (m_rest st))).

(** The text between two cursor positions of the same subject. *)
Definition consumed (st st' : mstate) : str :=
  firstn (length (m_rest st) - length (m_rest st')) (m_rest st).

Definition set_group (n : nat) (w : str) (st : mstate) : mstate :=
  MState (m_prev st) (m_rest st) ((n, w) :: m_grp st).

Definition step_char (p : ascii -> bool) (st : mstate)
    (k : mstate -> option mstate) : option mstate :=
  match m_rest st with
  | c :: t => if p c then k (MState (Some c) t (m_grp st)) else None
  | [] => None
  end.

Definition step_text (w : str) (st : mstate)
    (k : mstate -> option mstate) : option mstate :=
  match strip_prefix w (m_rest st) with
  | Some t => k (MState (last_char (m_prev st) w) t (m_grp st))
  | None => None
  end.

(** Greedy iteration of a starred pattern, [step] being the matcher of the
    pattern under the star: another iteration is tried first, and it has to
    consume something; the continuation is the fallback.  The fuel bounds
    the number of iterations; the matcher supplies the number of characters
    left, which no run of consuming iterations exceeds. *)
Fixpoint star_iter (step : mstate -> (mstate -> option mstate) -> option mstate)
    (k : mstate -> option mstate) (fuel : nat) (st0 : mstate) {struct fuel}
    : option mstate :=
  match fuel with
  | O => k st0
  | S fuel' =>
      match step st0 (fun st1 =>
              if length (m_rest st1) <? length (m_rest st0)
              then star_iter step k fuel' st1 else None) with
      | Some res => Some res
      | None => k st0
      end
  end.

(** Backtracking matcher in continuation-passing style: alternatives are
    tried in the order of Python's engine (greedy operators first try to
    take more).  The starred patterns of the scripts are character
    classes. *)
Fixpoint run (r : regex) (st : mstate) (k : mstate -> option mstate)
    {struct r} : option mstate :=
  match r with
  | Eps => k st
  | Chr c => step_char (Ascii.eqb c) st k
  | Cls p => step_char p st k
  | Seq r1 r2 => run r1 st (fun st1 => run r2 st1 k)
  | Opt r1 =>
      match run r1 st k with
      | Some res => Some res
      | None => k st
      end
  | Star r1 => star_iter (run r1) k (length (m_rest st)) st
  | Grp n r1 => run r1 st (fun st1 => k (set_group n (consumed st st1) st1))
  | Bref n =>
      match group_lookup n (m_grp st) with
      | Some w => step_text w st k
      | None => None
      end
  | Wordb => if at_boundary st then k st else None
  end.

(** A match object: [group(0)] and the numbered groups. *)
Record rmatch : Type := RMatch {
  mt_text : str;
  mt_grp : groups
}.

(** [match.group(n)], [None] for a group that did not take part. *)
Definition group (m : rmatch) (n : nat) : option str :=
  match n with
  | O => Some (mt_text m)
  | _ => group_lookup n (mt_grp m)
  end.

(** A group in a replacement template; an unmatched group expands to the
    empty string. *)
Definition expand (m : rmatch) (n : nat) : str :=
  match group m n with
  | Some w => w
  | None => []
  end.

(** Try the pattern at the cursor: [prev] is the character before it. *)
Definition match_at (r : regex) (prev : option ascii) (s : str)
    : option rmatch :=
  match run r (MState prev s []) (fun st => Some st) with
  | Some st' =>
      Some (RMatch (firstn (length s - length (m_rest st')) s) (m_grp st'))
  | None => None
  end.

Definition matcher := option ascii -> str -> option rmatch.

(** Left-to-right scan shared by [re.subn] and [str.replace]: at a
    position where the matcher succeeds the replacement is emitted and the
    matched characters are skipped, elsewhere the character is copied.
    None of the patterns of the scripts matches the empty string; an empty
    match is treated as no match. *)
Fixpoint scan (mt : matcher) (repl : rmatch -> str)
    (prev : option ascii) (s : str) (skip : nat) {struct s} : str * nat :=
  match skip with
  | S j =>
      match s with
      | c :: t => scan mt repl (Some c) t j
      | [] => ([], 0)
      end
  | O =>
      match s with
      | [] => ([], 0)
      | c :: t =>
          match mt prev s with
          | Some m =>
              match length (mt_text m) with
              | S j =>
                  let (out, cnt) := scan mt repl (Some c) t j in
                  (repl m ++ out, S cnt)
              | O =>
                  let (out, cnt) := scan mt repl (Some c) t 0 in
                  (c :: out, cnt)
              end
          | None =>
              let (out, cnt) := scan mt repl (Some c) t 0 in
              (c :: out, cnt)
          end
      end
  end.

(** [re.subn(pattern, repl, s)] *)
Definition subn (r : regex) (repl : rmatch -> str) (s : str) : str * nat :=
  scan (match_at r) repl None s 0.

(** [re.sub(pattern, repl, s)] *)
Definition sub (r : regex) (repl : rmatch -> str) (s : str) : str :=
  fst (subn r repl s).

(** [s.replace(old, new)] for a non-empty [old]. *)
Definition find_text (old : str) : matcher :=
  fun _ s => if startswith s old then Some (RMatch old []) else None.

Definition replace (old new s : str) : str :=
  fst (scan (find_text old) (fun _ => new) None s 0).

(** Declarative reading of a pattern: [sem r st st'] holds when [r] can
    take the cursor from [st] to [st'].  It forgets the order in which the
    matcher tries the alternatives. *)
Inductive sem : regex -> mstate -> mstate -> Prop :=
| sem_eps st : sem Eps st st
| sem_chr c prev t g :
    sem (Chr c) (MState prev (c :: t) g) (MState (Some c) t g)
| sem_cls (p : ascii -> bool) c prev t g :
    p c = true ->
    sem (Cls p) (MState prev (c :: t) g) (MState (Some c) t g)
| sem_seq r1 r2 st st1 st2 :
    sem r1 st st1 -> sem r2 st1 st2 -> sem (Seq r1 r2) st st2
| sem_opt_some r st st' : sem r st st' -> sem (Opt r) st st'
| sem_opt_none r st : sem (Opt r) st st
| sem_star_stop r st : sem (Star r) st st
| sem_star_more r st st1 st2 :
    sem r st st1 -> sem (Star r) st1 st2 -> sem (Star r) st st2
| sem_grp n r st st' :
    sem r st st' -> sem (Grp n r) st (set_group n (consumed st st') st')
| sem_bref n w t st :
    group_lookup n (m_grp st) = Some w ->
    strip_prefix w (m_rest st) = Some t ->
    sem (Bref n) st (MState (last_char (m_prev st) w) t (m_grp st))
| sem_wordb st : at_boundary st = true -> sem Wordb st st.

End Re.

(** ** Files and output channels *)

Module Sys.

(** Outcome of an operation that may raise; the exception is kept as the
    text of [str(e)]. *)
Inductive result (A : Type) : Type :=
| Ok (a : A)
| Raised (msg : str).

Arguments Ok {A} a.
Arguments Raised {A} msg.

(** What the file system answers for a path: whether it exists, what
    opening and reading it gives, and whether opening it for writing
    raises. *)
Record file : Type := File {
  f_exists : bool;
  f_read : result str;
  f_write : option str
}.

(** The world of a run: the file system, the paths written so far (one
    entry per completed write), and the text printed so far on each
    channel (one entry per call of [print]). *)
Record world : Type := World {
  w_fs : str -> file;
  w_written : list str;
  w_stdout : list str;
  w_stderr : list str
}.

Definition read_text (path : str) (w : world) : result str :=
  f_read (w_fs w path).

Definition store (path content : str) (fs : str -> file) : str -> file :=
  fun p =>
    if Text.str_eqb p path
    then File (f_exists (fs p)) (Ok content) (f_write (fs p))
    else fs p.

Definition write_text (path content : str) (w : world) : result world :=
  match f_write (w_fs w path) with
  | Some msg => Raised msg
  | None =>
      Ok (World (store path content (w_fs w)) (w_written w ++ [path])
                (w_stdout w) (w_stderr w))
  end.

(** [print(text)] and [print(text, file=sys.stderr)] *)
Definition print (text : str) (w : world) : world :=
  World (w_fs w) (w_written w) (w_stdout w ++ [text ++ [nl]]) (w_stderr w).

Definition eprint (text : str) (w : world) : world :=
  World (w_fs w) (w_written w) (w_stdout w) (w_stderr w ++ [text ++ [nl]]).

(** A world with one file at [path] and nothing printed or written yet;
    opening any other path raises. *)
Definition single_file (path : str) (f : file) : world :=
  World (fun p =>
           if Text.str_eqb p path then f
           else File false (Raised (L "[Errno 2] No such file or directory"))
                     None)
        [] [] [].

(** Decimal rendering of a count inside an f-string. *)
Definition show_nat (n : nat) : str :=
  L (NilEmpty.string_of_uint (Nat.to_uint n)).

End Sys.

(** ** fix-assertions.py *)

Module FixAssertions.

Import Text Re Sys.

(** The part shared by the three patterns: a closing parenthesis
    (group 1), the text [ as { data: Row<'], the table name (group 2, one
    or more characters other than a quote), ['>], an optional [[]]
    (group 3), the text [ | null; error: any }], white space up to a line
    feed, and the white space after it (group 4). *)
Definition assertion_block : list regex :=
  [ Grp 1 (Chr ")");
    Lit (L " as { data: Row<'");
    Grp 2 (Plus (Cls not_quote));
    Lit (L "'>");
    Opt (Grp 3 (Lit (L "[]")));
    Lit (L " | null; error: any }");
    Star (Cls is_space);
    Chr nl;
    Grp 4 (Star (Cls is_space)) ].

Definition pattern1 : regex :=
  Cat (assertion_block ++
       [ Lit (L ".single() as { data: Row<'");
         Bref 2;
         Lit (L "'> | null; error: any }") ]).

(** [\1\n\4.single() as { data: Row<'\2'> | null; error: any }] *)
Definition replacement1 (m : rmatch) : str :=
  expand m 1 ++ [nl] ++ expand m 4 ++
  L ".single() as { data: Row<'" ++ expand m 2 ++ L "'> | null; error: any }".

Definition methods : list str :=
  [ L "or"; L "order"; L "limit"; L "range"; L "gte"; L "lte"; L "gt";
    L "lt"; L "not"; L "in"; L "contains"; L "filter" ].

Definition pattern2 (method : str) : regex :=
  Cat (assertion_block ++ [ Chr "."; Lit method; Chr "(" ]).

(** [\1\n\4.{method}(] *)
Definition replacement2 (method : str) (m : rmatch) : str :=
  expand m 1 ++ [nl] ++ expand m 4 ++ L "." ++ method ++ L "(".

Definition pattern3 : regex :=
  Cat (assertion_block ++
       [ Grp 5 (Cat [ Chr "."; Plus (Cls is_lower_us); Chr "(" ]) ]).

Definition other_methods : list str :=
  [ L ".or("; L ".order("; L ".limit("; L ".range("; L ".gte("; L ".lte(";
    L ".gt("; L ".lt("; L ".not("; L ".in("; L ".contains("; L ".filter(" ].

Definition check_and_replace (m : rmatch) : str :=
  let paren := expand m 1 in
  let array := expand m 3 in
  let indent := expand m 4 in
  let next_method := expand m 5 in
  if str_eqb next_method (L ".single(") && negb (str_eqb array []) then
    paren ++ [nl] ++ indent ++ next_method
  else if existsb (startswith next_method) other_methods then
    paren ++ [nl] ++ indent ++ next_method
  else mt_text m.

(** The three passes over the content of one file; the result pairs the
    new content with the value of [fixes]. *)
Definition rewrite (content : str) : str * nat :=
  let fixes := 0 in
  let (content, count) := subn pattern1 replacement1 content in
  let fixes := fixes + count in
  let (content, fixes) :=
    fold_left
      (fun (acc : str * nat) (method : str) =>
         let (content, count) :=
           subn (pattern2 method) (replacement2 method) (fst acc) in
         (content, snd acc + count))
      methods (content, fixes) in
  let (content, count) := subn pattern3 check_and_replace content in
  (content, fixes + count).

(** The text of a type assertion on [table] behind a closing parenthesis,
    array-typed or not. *)
Definition assertion (table : str) (array : bool) : str :=
  L ") as { data: Row<'" ++ table ++ L "'>" ++
  (if array then L "[]" else []) ++ L " | null; error: any }".

(** An assertion block: the assertion, white space [gap] (which holds the
    line feed), and the call [.name(] that follows. *)
Definition chained (table : str) (array : bool) (gap name : str) : str :=
  assertion table array ++ gap ++ L "." ++ name ++ L "(".

(** The text of a match of any of the three patterns: an assertion, white
    space, a full stop and a tail. *)
Definition form (table : str) (array : bool) (gap tail : str) : str :=
  assertion table array ++ gap ++ "."%char :: tail.

(** [block] occurs in [content]. *)
Definition contains (block content : str) : Prop :=
  exists pre post, content = pre ++ block ++ post.

(** A table name holds no quote, closing parenthesis or [>]. *)
Definition table_char (c : ascii) : bool :=
  negb (Ascii.eqb c "'" || Ascii.eqb c ")" || Ascii.eqb c ">").

Definition table_name (table : str) : Prop :=
  table <> [] /\ Forall (fun c => table_char c = true) table.

(** A method name as the third pattern reads it: [[a-z_]+]. *)
Definition method_name (name : str) : Prop :=
  name <> [] /\ Forall (fun c => is_lower_us c = true) name.

Definition report (filepath e : str) (w : world) : world :=
  eprint (L "Error processing " ++ filepath ++ L ": " ++ e) w.

(** The body of the [try] block. *)
Definition attempt (filepath : str) (w : world)
    : result (world * (bool * nat)) :=
  match read_text filepath w with
  | Raised e => Raised e
  | Ok original =>
      let (content, fixes) := rewrite original in
      if negb (str_eqb content original) then
        match write_text filepath content w with
        | Raised e => Raised e
        | Ok w' => Ok (w', (true, fixes))
        end
      else Ok (w, (false, 0))
  end.

Definition fix_file (filepath : str) (w : world) : world * (bool * nat) :=
  match attempt filepath w with
  | Ok res => res
  | Raised e => (report filepath e w, (false, 0))
  end.

(** The loop of [main] over the files; the accumulator holds the world,
    [total_fixed] and [total_files].  The pictograph that opens a status
    line is outside the ASCII range and left out. *)
Definition visit (acc : world * (nat * nat)) (filepath : str)
    : world * (nat * nat) :=
  let '(w, (total_fixed, total_files)) := acc in
  if negb (f_exists (w_fs w filepath)) then acc
  else
    let '(w1, (fixed, count)) := fix_file filepath w in
    if fixed then
      (print (L " " ++ filepath ++ L ": Fixed " ++ show_nat count ++
              L " assertion(s)") w1,
       (total_fixed + count, total_files + 1))
    else (w1, (total_fixed, total_files)).

(** [main]: [argv] are the command-line arguments after the script name,
    [listing] is what [lib_dir.rglob('*.ts')] returns.  The result is the
    final world and the exit code. *)
Definition main (argv listing : list str) (w : world) : world * nat :=
  if negb (f_exists (w_fs w (L "lib"))) then
    (eprint (L "Error: lib/ directory not found") w, 1)
  else
    let files := match argv with [] => listing | _ => argv end in
    let '(w1, (total_fixed, total_files)) :=
      fold_left visit files (w, (0, 0)) in
    (print ([nl] ++ L " Summary: Fixed " ++ show_nat total_fixed ++
            L " assertions in " ++ show_nat total_files ++ L " files") w1,
     0).

End FixAssertions.

(** ** fix-final-imports.py *)

Module FixFinalImports.

Import Text Re Sys.

Definition row_import : str :=
  L "import type { Row } from '@/lib/supabase/helpers'".

(** [import {], white space up to a line feed, then the type-only
    import of [Row]. *)
Definition pattern1 : regex :=
  Cat [ Lit (L "import {"); Star (Cls is_space); Chr nl; Lit row_import ].

(** [import type { Row } from '@/lib/supabase/helpers'\nimport {] *)
Definition replacement1 (m : rmatch) : str :=
  row_import ++ [nl] ++ L "import {".

Definition rewrite (content : str) : str :=
  sub pattern1 replacement1 content.

(** The handler of this script prints on the standard output. *)
Definition report (filepath e : str) (w : world) : world :=
  print (L "Error processing " ++ filepath ++ L ": " ++ e) w.

(** The body of the [try] block. *)
Definition attempt (filepath : str) (w : world) : result (world * bool) :=
  match read_text filepath w with
  | Raised e => Raised e
  | Ok original =>
      let content := rewrite original in
      if negb (str_eqb content original) then
        match write_text filepath content w with
        | Raised e => Raised e
        | Ok w' => Ok (w', true)
        end
      else Ok (w, false)
  end.

Definition fix_file (filepath : str) (w : world) : world * bool :=
  match attempt filepath w with
  | Ok res => res
  | Raised e => (report filepath e w, false)
  end.

Definition visit (acc : world * nat) (filepath : str) : world * nat :=
  let (w, fixed_count) := acc in
  let (w1, fixed) := fix_file filepath w in
  if fixed then (print (L " Fixed " ++ filepath) w1, fixed_count + 1)
  else (w1, fixed_count).

Definition main (listing : list str) (w : world) : world * nat :=
  if negb (f_exists (w_fs w (L "lib"))) then
    (print (L "Error: lib/ directory not found") w, 1)
  else
    let (w1, fixed_count) := fold_left visit listing (w, 0) in
    (print ([nl] ++ L " Fixed " ++ show_nat fixed_count ++ L " files") w1, 0).

End FixFinalImports.

(** ** fix-ts18046.py *)

Module FixTs18046.

Import Text Re Sys.

(** One parsed diagnostic, as [read_errors] builds it. *)
Record diagnostic : Type := Diagnostic {
  d_file : str;
  d_line : Z;
  d_col : Z;
  d_var : str
}.

Definition error_names : list str := [ L "error"; L "err"; L "e" ].

Definition cast_error (var_name : str) : str :=
  L "(" ++ var_name ++ L " as Error)".

Definition cast_any (var_name : str) : str :=
  L "(" ++ var_name ++ L " as any)".

Definition annotation (var_name : str) : str := var_name ++ L ": any".

(** The three patterns below splice the identifier as a literal, which is
    the pattern of the script for an identifier made of word characters;
    for other identifiers the spliced text is pattern source of its own
    (or none that compiles) and is outside this model. *)

(** [\b{var_name}\.] *)
Definition access_pattern (var_name : str) : regex :=
  Cat [ Wordb; Lit var_name; Chr "." ].

(** [\({var_name}\s*=>] *)
Definition paren_arrow_pattern (var_name : str) : regex :=
  Cat [ Chr "("; Lit var_name; Star (Cls is_space); Lit (L "=>") ].

(** [\b{var_name}\s*=>] *)
Definition arrow_pattern (var_name : str) : regex :=
  Cat [ Wordb; Lit var_name; Star (Cls is_space); Lit (L "=>") ].

(** Pattern 1: error/err/e in catch blocks. *)
Definition pattern1 (var_name line : str) (modified : bool) : str * bool :=
  if occurs (var_name ++ L ".message") line
     && negb (occurs (cast_error var_name) line) then
    (replace (var_name ++ L ".message")
             (cast_error var_name ++ L ".message") line, true)
  else if occurs (var_name ++ L ".") line
          && negb (occurs (cast_error var_name) line)
          && negb (occurs (cast_any var_name) line) then
    (sub (access_pattern var_name)
         (fun _ => cast_error var_name ++ L ".") line, true)
  else (line, modified).

(** Pattern 2: callback parameters in map/filter/forEach. *)
Definition is_callback_line (line : str) : bool :=
  occurs (L ".map(") line || occurs (L ".filter(") line
  || occurs (L ".forEach(") line.

Definition pattern2 (var_name line : str) (modified : bool) : str * bool :=
  if negb (occurs (annotation var_name) line) then
    let line1 :=
      sub (paren_arrow_pattern var_name)
          (fun _ => L "(" ++ var_name ++ L ": any =>") line in
    let line2 :=
      sub (arrow_pattern var_name)
          (fun _ => L "(" ++ var_name ++ L ": any) =>") line1 in
    (line2, true)
  else (line, modified).

(** Pattern 3: general unknown variables. *)
Definition pattern3_trigger (var_name line : str) : bool :=
  occurs (var_name ++ L ".") line && negb (occurs (cast_any var_name) line).

Definition pattern3 (var_name line : str) (modified : bool) : str * bool :=
  (sub (access_pattern var_name) (fun _ => cast_any var_name ++ L ".") line,
   true).

(** The if/elif chain applied to the line of one diagnostic. *)
Definition fix_line (var_name line : str) (modified : bool) : str * bool :=
  if existsb (str_eqb var_name) error_names then
    pattern1 var_name line modified
  else if is_callback_line line then
    pattern2 var_name line modified
  else if pattern3_trigger var_name line then
    pattern3 var_name line modified
  else (line, modified).

(** [f.readlines()]: the lines with their line feeds. *)
Fixpoint readlines (s : str) : list str :=
  match s with
  | [] => []
  | c :: t =>
      if Ascii.eqb c nl then [c] :: readlines t
      else match readlines t with
           | [] => [[c]]
           | l :: ls => (c :: l) :: ls
           end
  end.

(** [f.writelines(lines)] writes the concatenation. *)
Definition writelines (lines : list str) : str := concat lines.

(** Position denoted by a Python index into a list of length [len]: a
    negative index counts from the end; [None] when [IndexError] is
    raised. *)
Definition position (len : nat) (i : Z) : option nat :=
  if (0 <=? i)%Z then
    if (i <? Z.of_nat len)%Z then Some (Z.to_nat i) else None
  else if (0 <=? i + Z.of_nat len)%Z then Some (Z.to_nat (i + Z.of_nat len))
  else None.

Fixpoint set_nth (n : nat) (x : str) (l : list str) : list str :=
  match l, n with
  | [], _ => []
  | _ :: t, O => x :: t
  | y :: t, S n' => y :: set_nth n' x t
  end.

(** The body of the loop over the diagnostics of a file; the state is
    [lines] and [modified]. *)
Definition step (st : list str * bool) (error : diagnostic)
    : result (list str * bool) :=
  let (lines, modified) := st in
  let line_idx := (d_line error - 1)%Z in
  if (Z.of_nat (length lines) <=? line_idx)%Z then Ok st
  else
    match position (length lines) line_idx with
    | None => Raised (L "list index out of range")
    | Some i =>
        let line := nth i lines [] in
        let (line', modified') := fix_line (d_var error) line modified in
        Ok (set_nth i line' lines, modified')
    end.

(** The positions that the diagnostics of a file address in a list of
    [len] lines. *)
Fixpoint targets (len : nat) (file_errors : list diagnostic) : list nat :=
  match file_errors with
  | [] => []
  | error :: rest =>
      match position len (d_line error - 1) with
      | Some i => i :: targets len rest
      | None => targets len rest
      end
  end.

Fixpoint loop (file_errors : list diagnostic) (st : list str * bool)
    : result (list str * bool) :=
  match file_errors with
  | [] => Ok st
  | error :: rest =>
      match step st error with
      | Ok st' => loop rest st'
      | Raised e => Raised e
      end
  end.

Definition report (file_path e : str) (w : world) : world :=
  eprint (L "Error fixing " ++ file_path ++ L ": " ++ e) w.

(** The body of the [try] block. *)
Definition attempt (file_path : str) (file_errors : list diagnostic)
    (w : world) : result (world * bool) :=
  match read_text file_path w with
  | Raised e => Raised e
  | Ok content =>
      match loop file_errors (readlines content, false) with
      | Raised e => Raised e
      | Ok (lines, modified) =>
          if modified then
            match write_text file_path (writelines lines) w with
            | Raised e => Raised e
            | Ok w' => Ok (w', true)
            end
          else Ok (w, false)
      end
  end.

Definition fix_file (file_path : str) (file_errors : list diagnostic)
    (w : world) : world * bool :=
  match attempt file_path file_errors w with
  | Ok res => res
  | Raised e => (report file_path e w, false)
  end.

(** Grouping of the diagnostics by file, in the order in which the files
    first appear (a dict keeps insertion order). *)
Fixpoint add_error (error : diagnostic)
    (files : list (str * list diagnostic)) : list (str * list diagnostic) :=
  match files with
  | [] => [(d_file error, [error])]
  | (p, es) :: rest =>
      if str_eqb p (d_file error) then (p, es ++ [error]) :: rest
      else (p, es) :: add_error error rest
  end.

Definition group_by_file (errors : list diagnostic)
    : list (str * list diagnostic) :=
  fold_left (fun files error => add_error error files) errors [].

Definition visit (acc : world * nat) (entry : str * list diagnostic)
    : world * nat :=
  let (w, fixed_count) := acc in
  let (file_path, file_errors) := entry in
  let w0 :=
    print (L "   Fixing " ++ file_path ++ L " (" ++
           show_nat (length file_errors) ++ L " errors)...") w in
  let (w1, fixed) := fix_file file_path file_errors w0 in
  if fixed then (w1, fixed_count + 1) else (w1, fixed_count).

(** [main] from the point where [read_errors] has returned [errors].  The
    pictographs that open the status lines are left out. *)
Definition main (errors : list diagnostic) (w : world) : world :=
  let w := print (L " Finding TS18046 errors...") w in
  match errors with
  | [] => print (L " No TS18046 errors found!") w
  | _ =>
      let w :=
        print (L " Found " ++ show_nat (length errors) ++
               L " TS18046 errors") w in
      let (w1, fixed_count) :=
        fold_left visit (group_by_file errors) (w, 0) in
      let w2 :=
        print ([nl] ++ L " Fixed " ++ show_nat fixed_count ++ L " files")
              w1 in
      print (L " Run 'npx tsc --noEmit 2>&1 | grep " ++ [dquote] ++
             L "error TS" ++ [dquote] ++
             L " | wc -l' to check remaining errors") w2
  end.

End FixTs18046.

(** ** fix-ts18046.py: reading the diagnostics *)

Module ReadErrors.

Import Text Re Sys FixTs18046.

(** [.]: any character but the line feed. *)
Definition is_dot (c : ascii) : bool := negb (Ascii.eqb c nl).

(** [\d] *)
Definition is_digit (c : ascii) : bool := between 48 57 c.

(** Patterns with the lazy [+?] over a character class, next to the
    fragment above. *)
Inductive lregex : Type :=
| Plain (r : regex)
| LazyPlus (p : ascii -> bool)        (* [p]+? *)
| LSeq (r1 r2 : lregex)
| LGrp (n : nat) (r : lregex).

(** The lazy iteration: one character of the class is taken, then the
    continuation is tried before another character is. *)
Fixpoint lazy_plus (p : ascii -> bool) (k : mstate -> option mstate)
    (prev : option ascii) (s : str) (g : groups) {struct s}
    : option mstate :=
  match s with
  | [] => None
  | c :: t =>
      if p c then
        match k (MState (Some c) t g) with
        | Some res => Some res
        | None => lazy_plus p k (Some c) t g
        end
      else None
  end.

Fixpoint lrun (r : lregex) (st : mstate) (k : mstate -> option mstate)
    {struct r} : option mstate :=
  match r with
  | Plain r1 => run r1 st k
  | LazyPlus p => lazy_plus p k (m_prev st) (m_rest st) (m_grp st)
  | LSeq r1 r2 => lrun r1 st (fun st1 => lrun r2 st1 k)
  | LGrp n r1 => lrun r1 st (fun st1 => k (set_group n (consumed st st1) st1))
  end.

(** [re.match(pattern, s)] *)
Definition lmatch (r : lregex) (s : str) : option rmatch :=
  match lrun r (MState None s []) (fun st => Some st) with
  | Some st' =>
      Some (RMatch (firstn (length s - length (m_rest st')) s) (m_grp st'))
  | None => None
  end.

(** The pattern of [read_errors]: the file (group 1, lazy), the line and
    the column in parentheses (groups 2 and 3), the code of the error, and
    the identifier between quotes (group 4, lazy). *)
Definition pattern : lregex :=
  LSeq (LGrp 1 (LazyPlus is_dot))
    (LSeq (Plain (Cat [ Chr "(";
                        Grp 2 (Plus (Cls is_digit));
                        Chr ",";
                        Grp 3 (Plus (Cls is_digit));
                        Lit (L "): error TS18046: '") ]))
       (LSeq (LGrp 4 (LazyPlus is_dot))
             (Plain (Lit (L "' is of type 'unknown'"))))).

(** The value of a string of decimal digits. *)
Definition digit_value (c : ascii) : Z := (Z.of_nat (code c) - 48)%Z.

Definition digits_value (s : str) : Z :=
  fold_left (fun acc c => (acc * 10 + digit_value c)%Z) s 0%Z.

(** [int(s)] for a string of decimal digits.  CPython (3.11 and later, and
    the security releases before it) refuses a string of more than
    [sys.get_int_max_str_digits()] digits, 4300 unless configured, with
    [ValueError]. *)
Definition int_max_str_digits : nat := 4300.

Definition int (s : str) : result Z :=
  if int_max_str_digits <? length s then
    Raised (L "Exceeds the limit (4300 digits) for integer string conversion: value has "
            ++ show_nat (length s)
            ++ L " digits; use sys.set_int_max_str_digits() to increase the limit")
  else Ok (digits_value s).

(** The body of the loop: the diagnostic read off one line, if the line
    matches; the two conversions are made in the order of the dictionary
    display. *)
Definition parse_line (line : str) : result (option diagnostic) :=
  match lmatch pattern line with
  | Some m =>
      match int (expand m 2) with
      | Raised e => Raised e
      | Ok line_num =>
          match int (expand m 3) with
          | Raised e => Raised e
          | Ok col =>
              Ok (Some (Diagnostic (expand m 1) line_num col (expand m 4)))
          end
      end
  | None => Ok None
  end.

Fixpoint collect (lines : list str) : result (list diagnostic) :=
  match lines with
  | [] => Ok []
  | line :: rest =>
      match parse_line line with
      | Raised e => Raised e
      | Ok found =>
          match collect rest with
          | Raised e => Raised e
          | Ok errors =>
              Ok (match found with
                  | Some error => error :: errors
                  | None => errors
                  end)
          end
      end
  end.

Definition errors_file : str := L "/tmp/ts18046_errors.txt".

(** [read_errors()]: a failure to open the file or to convert a number is
    not handled. *)
Definition read_errors (w : world) : result (list diagnostic) :=
  match read_text errors_file w with
  | Raised e => Raised e
  | Ok content => collect (readlines content)
  end.

(** The text of a diagnostic as the compiler prints it. *)
Definition message (file line col var : str) : str :=
  file ++ L "(" ++ line ++ L "," ++ col ++ L "): error TS18046: '" ++ var
  ++ L "' is of type 'unknown'".

End ReadErrors.

(** ** Notions used in the statements *)

Module Notions.

Import Text Re.

(** The diagnostics of [errors] that name the file [p], in their order. *)
Definition of_file (p : str) (errors : list FixTs18046.diagnostic)
    : list FixTs18046.diagnostic :=
  filter (fun e => str_eqb p (FixTs18046.d_file e)) errors.

(** [a] is [b] with some characters left out. *)
Inductive remnant : str -> str -> Prop :=
| remnant_nil : remnant [] []
| remnant_keep c a b : remnant a b -> remnant (c :: a) (c :: b)
| remnant_drop c a b : remnant a b -> remnant a (c :: b).

(** A diagnostic as the compiler prints it: the file, the digits of the
    line and of the column, and the identifier. *)
Record printed : Type := Printed {
  p_file : str;
  p_line : str;
  p_col : str;
  p_var : str
}.

(** The printed line, with the full stop and the line feed that end it. *)
Definition printed_line (e : printed) : str :=
  ReadErrors.message (p_file e) (p_line e) (p_col e) (p_var e)
  ++ L "." ++ [nl].

(** The file holds no line feed and no opening parenthesis, the numbers
    are digits, at most as many as [int] converts, the identifier holds no
    line feed and no quote. *)
Definition well_printed (e : printed) : Prop :=
  p_file e <> []
  /\ Forall (fun c => ReadErrors.is_dot c = true) (p_file e)
  /\ ~ In "("%char (p_file e)
  /\ p_line e <> []
  /\ Forall (fun c => ReadErrors.is_digit c = true) (p_line e)
  /\ length (p_line e) <= ReadErrors.int_max_str_digits
  /\ p_col e <> []
  /\ Forall (fun c => ReadErrors.is_digit c = true) (p_col e)
  /\ length (p_col e) <= ReadErrors.int_max_str_digits
  /\ p_var e <> []
  /\ Forall (fun c => ReadErrors.is_dot c = true) (p_var e)
  /\ ~ In "'"%char (p_var e).

Definition as_diagnostic (e : printed) : FixTs18046.diagnostic :=
  FixTs18046.Diagnostic (p_file e) (ReadErrors.digits_value (p_line e))
                        (ReadErrors.digits_value (p_col e)) (p_var e).

(** The world [w] with the file [f] at [path]. *)
Definition add_file (path : str) (f : Sys.file) (w : Sys.world) : Sys.world :=
  Sys.World (fun p => if str_eqb p path then f else Sys.w_fs w p)
            (Sys.w_written w) (Sys.w_stdout w) (Sys.w_stderr w).

(** The characters of a text that are not white space. *)
Definition solid (s : str) : str :=
  filter (fun c => negb (is_space c)) s.

(** Patterns whose starred parts are character classes. *)
Fixpoint class_stars (r : regex) : bool :=
  match r with
  | Eps | Chr _ | Cls _ | Bref _ | Wordb => true
  | Seq r1 r2 => class_stars r1 && class_stars r2
  | Opt r1 => class_stars r1
  | Star (Cls _) => true
  | Star _ => false
  | Grp _ r1 => class_stars r1
  end.

End Notions.

(** * Properties *)

Unset Implicit Arguments.

Import Text Re Sys.

(** ** Text lemmas *)

Lemma str_eqb_eq (a b : str) : str_eqb a b = true <-> a = b.
Proof.
  revert b; induction a as [|x a IH]; intros [|y b]; simpl;
    try (split; [discriminate | congruence]); try tauto.
  rewrite andb_true_iff, Ascii.eqb_eq, IH.
  split; [intros [-> ->]; reflexivity | intros H; inversion H; auto].
Qed.

Lemma str_eqb_refl (a : str) : str_eqb a a = true.
Proof. apply str_eqb_eq; reflexivity. Qed.

Lemma str_eqb_neq (a b : str) : str_eqb a b = false <-> a <> b.
Proof.
  rewrite <- str_eqb_eq. destruct (str_eqb a b); split; congruence.
Qed.

Lemma strip_prefix_app (p s t : str) :
  strip_prefix p s = Some t <-> s = p ++ t.
Proof.
  revert s; induction p as [|x p IH]; intros s; simpl.
  - split; congruence.
  - destruct s as [|y s]; [split; discriminate|].
    destruct (Ascii.eqb x y) eqn:E.
    + apply Ascii.eqb_eq in E; subst y. rewrite IH.
      split; [intros ->; reflexivity | intros H; inversion H; reflexivity].
    + split; [discriminate|]. intros H; inversion H; subst.
      rewrite Ascii.eqb_refl in E; discriminate.
Qed.

Lemma startswith_app (s p : str) :
  startswith s p = true <-> exists t, s = p ++ t.
Proof.
  unfold startswith. destruct (strip_prefix p s) as [t|] eqn:E.
  - apply strip_prefix_app in E. split; eauto.
  - split; [discriminate|]. intros [t Ht].
    apply strip_prefix_app in Ht; congruence.
Qed.

Lemma occurs_app (x s : str) :
  occurs x s = true <-> exists a b, s = a ++ x ++ b.
Proof.
  induction s as [|c s IH]; simpl.
  - rewrite orb_false_r, startswith_app. split.
    + intros [t Ht]. exists [], t. exact Ht.
    + intros (a & b & H). destruct a; simpl in H.
      * eauto.
      * discriminate.
  - rewrite orb_true_iff, startswith_app, IH. split.
    + intros [[t Ht] | (a & b & H)].
      * exists [], t. exact Ht.
      * exists (c :: a), b. simpl; congruence.
    + intros (a & b & H). destruct a as [|c' a]; simpl in H.
      * left; eauto.
      * right. inversion H; eauto.
Qed.

Lemma occurs_prefix (x y s : str) :
  occurs (x ++ y) s = true -> occurs x s = true.
Proof.
  rewrite !occurs_app. intros (a & b & ->).
  exists a, (y ++ b). now rewrite <- app_assoc.
Qed.

Lemma occurs_inside (x u v s : str) :
  occurs (u ++ x ++ v) s = true -> occurs x s = true.
Proof.
  rewrite !occurs_app. intros (a & b & ->).
  exists (a ++ u), (v ++ b). now rewrite <- !app_assoc.
Qed.

Lemma nth_last (l : list str) (d : str) :
  nth (length l - 1) l d = last l d.
Proof.
  induction l as [|x [|y l] IH]; try reflexivity.
  change (last (x :: y :: l) d) with (last (y :: l) d).
  rewrite <- IH. simpl. now rewrite Nat.sub_0_r.
Qed.

(** ** The matcher against the declarative reading *)

Section Matcher.

Lemma step_char_sound (p : ascii -> bool) (st : mstate)
    (k : mstate -> option mstate) (res : mstate) :
  step_char p st k = Some res ->
  exists c t, m_rest st = c :: t /\ p c = true
              /\ k (MState (Some c) t (m_grp st)) = Some res.
Proof.
  unfold step_char. destruct (m_rest st) as [|c t]; [discriminate|].
  destruct (p c) eqn:E; [|discriminate]. eauto.
Qed.

(** Whatever the matcher answers is justified by the declarative reading. *)
Lemma run_sound (r : regex) :
  forall st k res,
    run r st k = Some res -> exists st', sem r st st' /\ k st' = Some res.
Proof.
  induction r as [ | c | p | r1 IH1 r2 IH2 | r1 IH1 | r1 IH1 | n r1 IH1 | n | ];
    intros st k res H; simpl in H.
  - exists st. split; [constructor | exact H].
  - apply step_char_sound in H. destruct H as (x & t & Hr & Hx & Hk).
    apply Ascii.eqb_eq in Hx. subst x. destruct st as [prev rest g].
    simpl in *. subst rest. eexists. split; [constructor | exact Hk].
  - apply step_char_sound in H. destruct H as (x & t & Hr & Hx & Hk).
    destruct st as [prev rest g]. simpl in *. subst rest.
    eexists. split; [constructor; exact Hx | exact Hk].
  - apply IH1 in H. destruct H as (st1 & S1 & H).
    apply IH2 in H. destruct H as (st2 & S2 & H).
    exists st2. split; [econstructor; eassumption | exact H].
  - destruct (run r1 st k) as [res'|] eqn:E.
    + inversion H; subst. apply IH1 in E. destruct E as (st' & S' & K).
      exists st'. split; [apply sem_opt_some; exact S' | exact K].
    + exists st. split; [apply sem_opt_none | exact H].
  - remember (length (m_rest st)) as fuel eqn:F in H. clear F.
    revert st H. induction fuel as [|fuel IHf]; intros st H; cbn [star_iter] in H.
    + exists st. split; [apply sem_star_stop | exact H].
    + match type of H with
      | match ?x with _ => _ end = _ => destruct x as [res'|] eqn:E
      end.
      * inversion H; subst. apply IH1 in E. destruct E as (st1 & S1 & K).
        destruct (length (m_rest st1) <? length (m_rest st)); [|discriminate].
        apply IHf in K. destruct K as (st2 & S2 & K).
        exists st2. split; [eapply sem_star_more; eassumption | exact K].
      * exists st. split; [apply sem_star_stop | exact H].
  - apply IH1 in H. destruct H as (st1 & S1 & H).
    eexists. split; [apply sem_grp; exact S1 | exact H].
  - destruct (group_lookup n (m_grp st)) as [w|] eqn:G; [|discriminate].
    unfold step_text in H.
    destruct (strip_prefix w (m_rest st)) as [t|] eqn:P; [|discriminate].
    eexists. split; [eapply sem_bref; eassumption | exact H].
  - destruct (at_boundary st) eqn:B; [|discriminate].
    exists st. split; [apply sem_wordb; exact B | exact H].
Qed.

(** The matcher only looks at the values of its continuation. *)
Lemma star_iter_ext
    (step : mstate -> (mstate -> option mstate) -> option mstate)
    (k k' : mstate -> option mstate) :
  (forall st c c', (forall x, c x = c' x) -> step st c = step st c') ->
  (forall x, k x = k' x) ->
  forall fuel st, star_iter step k fuel st = star_iter step k' fuel st.
Proof.
  intros Hs Hk. induction fuel as [|fuel IH]; intros st; cbn [star_iter].
  - apply Hk.
  - rewrite (Hs st _ (fun st1 =>
                        if length (m_rest st1) <? length (m_rest st)
                        then star_iter step k' fuel st1 else None)).
    + rewrite Hk. reflexivity.
    + intros x. destruct (length (m_rest x) <? length (m_rest st)); auto.
Qed.

Lemma run_ext (r : regex) :
  forall st k k', (forall x, k x = k' x) -> run r st k = run r st k'.
Proof.
  induction r as [ | c | p | r1 IH1 r2 IH2 | r1 IH1 | r1 IH1 | n r1 IH1 | n | ];
    intros st k k' H; cbn [run].
  - apply H.
  - unfold step_char. destruct (m_rest st); [reflexivity|].
    destruct (Ascii.eqb c a); [apply H | reflexivity].
  - unfold step_char. destruct (m_rest st); [reflexivity|].
    destruct (p a); [apply H | reflexivity].
  - apply IH1. intros x. apply IH2. exact H.
  - rewrite (IH1 st k k' H), H. reflexivity.
  - apply star_iter_ext; [|exact H]. intros s c c' Hc. apply IH1. exact Hc.
  - apply IH1. intros x. apply H.
  - destruct (group_lookup n (m_grp st)); [|reflexivity].
    unfold step_text. destruct (strip_prefix s (m_rest st)); [apply H | reflexivity].
  - rewrite H. reflexivity.
Qed.

(** A pattern followed by a continuation that always fails, fails. *)
Lemma run_fail (r : regex) : forall st, run r st (fun _ => None) = None.
Proof.
  induction r as [ | c | p | r1 IH1 r2 IH2 | r1 IH1 | r1 IH1 | n r1 IH1 | n | ];
    intros st; cbn [run].
  - reflexivity.
  - unfold step_char. destruct (m_rest st); [reflexivity|].
    destruct (Ascii.eqb c a); reflexivity.
  - unfold step_char. destruct (m_rest st); [reflexivity|].
    destruct (p a); reflexivity.
  - rewrite (run_ext r1 st _ (fun _ => None)); [apply IH1 | intros x; apply IH2].
  - rewrite IH1. reflexivity.
  - generalize (length (m_rest st)). intros fuel. revert st.
    induction fuel as [|fuel IHf]; intros st; cbn [star_iter]; [reflexivity|].
    rewrite (run_ext r1 st _ (fun _ => None)).
    + rewrite IH1. reflexivity.
    + intros x. destruct (length (m_rest x) <? length (m_rest st)); auto.
  - apply IH1.
  - destruct (group_lookup n (m_grp st)); [|reflexivity].
    unfold step_text. destruct (strip_prefix s (m_rest st)); reflexivity.
  - destruct (at_boundary st); reflexivity.
Qed.

(** The fuel of the star never runs out: any amount that is at least the
    number of characters left gives the same answer. *)
Lemma star_fuel_enough (r : regex) (k : mstate -> option mstate) :
  forall n m st,
    length (m_rest st) <= n -> length (m_rest st) <= m ->
    star_iter (run r) k n st = star_iter (run r) k m st.
Proof.
  assert (Z : forall fuel st,
             length (m_rest st) = 0 ->
             star_iter (run r) k fuel st = k st).
  { intros [|fuel] st H0; cbn [star_iter]; [reflexivity|].
    rewrite (run_ext r st _ (fun _ => None)).
    - rewrite run_fail. reflexivity.
    - intros x. rewrite H0. destruct (length (m_rest x)); reflexivity. }
  induction n as [|n IH]; intros m st Hn Hm.
  - rewrite !Z by lia. reflexivity.
  - destruct m as [|m]; [rewrite !Z by lia; reflexivity|].
    cbn [star_iter].
    rewrite (run_ext r st _ (fun st1 =>
               if length (m_rest st1) <? length (m_rest st)
               then star_iter (run r) k m st1 else None)); [reflexivity|].
    intros x. destruct (Nat.ltb_spec (length (m_rest x)) (length (m_rest st)));
      [|reflexivity].
    apply IH; lia.
Qed.

Lemma run_star_fuel (r : regex) (k : mstate -> option mstate) (st : mstate)
    (extra : nat) :
  run (Star r) st k = star_iter (run r) k (length (m_rest st) + extra) st.
Proof. cbn [run]. apply star_fuel_enough; lia. Qed.

(** The cursor only moves forward: what is left is a suffix. *)
Lemma sem_suffix (r : regex) (st st' : mstate) :
  sem r st st' -> exists w, m_rest st = w ++ m_rest st'.
Proof.
  induction 1; simpl.
  - exists []. reflexivity.
  - exists [c]. reflexivity.
  - exists [c]. reflexivity.
  - destruct IHsem1 as [w1 E1], IHsem2 as [w2 E2].
    exists (w1 ++ w2). rewrite E1, E2. now rewrite app_assoc.
  - assumption.
  - exists []. reflexivity.
  - exists []. reflexivity.
  - destruct IHsem1 as [w1 E1], IHsem2 as [w2 E2].
    exists (w1 ++ w2). rewrite E1, E2. now rewrite app_assoc.
  - assumption.
  - exists w. now apply strip_prefix_app.
  - exists []. reflexivity.
Qed.

Lemma consumed_app (w : str) (st st' : mstate) :
  m_rest st = w ++ m_rest st' -> consumed st st' = w.
Proof.
  intros E. unfold consumed. rewrite E, length_app.
  replace (length w + length (m_rest st') - length (m_rest st'))
    with (length w) by lia.
  rewrite firstn_app, Nat.sub_diag, firstn_all. simpl. apply app_nil_r.
Qed.

(** A successful [match_at] comes with a run of the declarative reading
    from the initial state, and its text is what that run consumed. *)
Lemma match_at_sound (r : regex) (prev : option ascii) (s : str) (m : rmatch) :
  match_at r prev s = Some m ->
  exists st', sem r (MState prev s []) st'
              /\ s = mt_text m ++ m_rest st'
              /\ mt_grp m = m_grp st'.
Proof.
  unfold match_at.
  destruct (run r (MState prev s []) (fun st => Some st)) as [st'|] eqn:E;
    [|discriminate].
  intros H; inversion H; subst; clear H.
  apply run_sound in E. destruct E as (st1 & S1 & K). inversion K; subst st1.
  exists st'. split; [exact S1|]. simpl. split; [|reflexivity].
  destruct (sem_suffix _ _ _ S1) as [w Hw]. simpl in Hw.
  assert (C : firstn (length s - length (m_rest st')) s = w)
    by (apply (@consumed_app w (MState prev s []) st'); exact Hw).
  rewrite C. exact Hw.
Qed.

End Matcher.

(** ** fix-ts18046.py: one diagnostic on one line *)

Section TsLine.

Import FixTs18046.

Lemma error_names_spec (v : str) :
  existsb (str_eqb v) error_names = true <-> In v error_names.
Proof.
  rewrite existsb_exists. split.
  - intros (x & Hx & E). apply str_eqb_eq in E. now subst.
  - intros H. exists v. split; [exact H | apply str_eqb_refl].
Qed.

(** The line computed for a diagnostic does not depend on the flag. *)
Lemma fix_line_flag (v line : str) (m m' : bool) :
  fst (fix_line v line m) = fst (fix_line v line m').
Proof.
  unfold fix_line, pattern1, pattern2, pattern3.
  repeat match goal with
         | |- context [if ?c then _ else _] => destruct c
         end; reflexivity.
Qed.

(** A line that is not modified keeps the flag. *)
Lemma fix_line_changed (v line : str) (m : bool) :
  fst (fix_line v line m) <> line -> snd (fix_line v line m) = true.
Proof.
  unfold fix_line, pattern1, pattern2, pattern3.
  repeat match goal with
         | |- context [if ?c then _ else _] => destruct c
         end; simpl; congruence.
Qed.

Lemma fix_line_flag_mono (v line : str) :
  snd (fix_line v line true) = true.
Proof.
  unfold fix_line, pattern1, pattern2, pattern3.
  repeat match goal with
         | |- context [if ?c then _ else _] => destruct c
         end; reflexivity.
Qed.

End TsLine.

(** ** Writing back *)

Section WriteBack.

Import FixTs18046.

Lemma concat_readlines (s : str) : writelines (readlines s) = s.
Proof.
  unfold writelines. induction s as [|c s IH]; [reflexivity|].
  simpl. destruct (Ascii.eqb c nl).
  - simpl. now rewrite IH.
  - destruct (readlines s) as [|l ls]; simpl in *.
    + now rewrite <- IH.
    + now rewrite <- IH.
Qed.

Lemma set_nth_same (i : nat) (l : list str) :
  set_nth i (nth i l []) l = l.
Proof.
  revert i; induction l as [|x l IH]; intros [|i]; simpl; try reflexivity.
  now rewrite IH.
Qed.

Lemma fix_line_unflagged (v line : str) (m : bool) :
  snd (fix_line v line m) = false -> fst (fix_line v line m) = line.
Proof.
  intros H. destruct (str_eqb (fst (fix_line v line m)) line) eqn:E.
  - now apply str_eqb_eq.
  - apply str_eqb_neq in E. apply fix_line_changed in E. congruence.
Qed.

Lemma step_flag (lines lines' : list str) (m m' : bool) (e : diagnostic) :
  step (lines, m) e = Ok (lines', m') ->
  (m = true -> m' = true) /\ (m' = false -> lines' = lines).
Proof.
  unfold step.
  destruct (Z.of_nat (length lines) <=? d_line e - 1)%Z.
  - intros H; inversion H; subst. split; auto.
  - destruct (position (length lines) (d_line e - 1)) as [i|]; [|discriminate].
    destruct (fix_line (d_var e) (nth i lines []) m) as [l' f'] eqn:E.
    intros H; inversion H; subst. split.
    + intros ->. pose proof (fix_line_flag_mono (d_var e) (nth i lines [])) as F.
      rewrite E in F. exact F.
    + intros ->. pose proof (@fix_line_unflagged (d_var e) (nth i lines []) m) as F.
      rewrite E in F. simpl in F. rewrite F by reflexivity.
      apply set_nth_same.
Qed.

Lemma loop_flag (es : list diagnostic) :
  forall lines lines' m m',
    loop es (lines, m) = Ok (lines', m') ->
    (m = true -> m' = true) /\ (m' = false -> lines' = lines).
Proof.
  induction es as [|e es IH]; intros lines lines' m m'; cbn [loop].
  - intros H; inversion H; subst. split; auto.
  - destruct (step (lines, m) e) as [[l1 m1]|] eqn:E; [|discriminate].
    intros H. apply IH in H. apply step_flag in E.
    destruct H as [H1 H2], E as [E1 E2]. split.
    + auto.
    + intros Hm. specialize (H2 Hm). subst lines'.
      destruct m1; [specialize (H1 eq_refl); congruence | auto].
Qed.

End WriteBack.

(** ** Error reports *)

Lemma attempt_after_print (p t e : str) (errs : list FixTs18046.diagnostic)
    (w : world) :
  FixTs18046.attempt p errs w = Raised e ->
  FixTs18046.attempt p errs (print t w) = Raised e.
Proof.
  unfold FixTs18046.attempt, read_text, write_text; simpl.
  destruct (f_read (w_fs w p)) as [c|]; [|auto].
  destruct (FixTs18046.loop errs (FixTs18046.readlines c, false))
    as [[lines [|]]|]; auto; try discriminate.
  destruct (f_write (w_fs w p)); [auto | discriminate].
Qed.

(** ** Shape of what a pattern matches *)

Section Shapes.

Lemma sem_lit (w : str) :
  forall st st',
    sem (Lit w) st st' ->
    m_rest st = w ++ m_rest st'
    /\ m_grp st' = m_grp st
    /\ m_prev st' = last_char (m_prev st) w.
Proof.
  induction w as [|c w IH]; intros st st' H; simpl in H.
  - inversion H; subst. auto.
  - inversion H as [ | | | r1 r2 s0 s1 s2 H1 H2 | | | | | | | ]; subst.
    inversion H1; subst. apply IH in H2. simpl in *.
    destruct H2 as (E & G & P). rewrite E. repeat split; auto.
    rewrite P. unfold last_char. simpl.
    destruct (rev w) as [|x y] eqn:R; simpl; reflexivity.
Qed.

Lemma sem_star_cls (p : ascii -> bool) (st st' : mstate) :
  sem (Star (Cls p)) st st' ->
  exists w, m_rest st = w ++ m_rest st'
            /\ Forall (fun c => p c = true) w
            /\ m_grp st' = m_grp st.
Proof.
  intros H. remember (Star (Cls p)) as r eqn:R.
  induction H; inversion R; subst.
  - exists []. auto.
  - destruct (IHsem2 eq_refl) as (w & E & F & G).
    inversion H; subst. simpl in *.
    exists (c :: w). rewrite E. repeat split; auto.
Qed.

Lemma sem_plus_cls (p : ascii -> bool) (st st' : mstate) :
  sem (Plus (Cls p)) st st' ->
  exists w, m_rest st = w ++ m_rest st'
            /\ Forall (fun c => p c = true) w
            /\ w <> []
            /\ m_grp st' = m_grp st.
Proof.
  intros H. unfold Plus in H.
  inversion H as [ | | | r1 r2 s0 s1 s2 H1 H2 | | | | | | | ]; subst.
  inversion H1; subst. apply sem_star_cls in H2.
  destruct H2 as (w & E & F & G). simpl in *.
  exists (c :: w). rewrite E. repeat split; auto. discriminate.
Qed.

End Shapes.

(** ** The scan of [re.sub] and [str.replace] *)

Section Scan.

Variable mt : matcher.
Variable repl : rmatch -> str.

Lemma last_char_cons (prev : option ascii) (c : ascii) (w : str) :
  last_char (Some c) w = last_char prev (c :: w).
Proof.
  unfold last_char. simpl. destruct (rev w) as [|x y]; reflexivity.
Qed.

Lemma last_char_app (prev : option ascii) (a b : str) :
  last_char prev (a ++ b) = last_char (last_char prev a) b.
Proof.
  unfold last_char. rewrite rev_app_distr.
  destruct (rev b) as [|x y]; simpl; reflexivity.
Qed.

Lemma scan_skip (w : str) :
  forall prev rest,
    scan mt repl prev (w ++ rest) (length w)
      = scan mt repl (last_char prev w) rest 0.
Proof.
  induction w as [|c w IH]; intros prev rest.
  - reflexivity.
  - simpl. rewrite IH. now rewrite last_char_cons with (prev := prev).
Qed.

(** At a position where the matcher finds a non-empty text. *)
Lemma scan_match (prev : option ascii) (s rest : str) (m : rmatch) :
  mt prev s = Some m ->
  s = mt_text m ++ rest ->
  mt_text m <> [] ->
  scan mt repl prev s 0
    = (repl m ++ fst (scan mt repl (last_char prev (mt_text m)) rest 0),
       S (snd (scan mt repl (last_char prev (mt_text m)) rest 0))).
Proof.
  intros Hm Hs Hne. destruct (mt_text m) as [|c w] eqn:T; [congruence|].
  subst s. simpl in Hm. cbn [app scan]. rewrite Hm, T. cbn [length].
  rewrite scan_skip, last_char_cons with (prev := prev).
  destruct (scan mt repl (last_char prev (c :: w)) rest 0); reflexivity.
Qed.

Lemma scan_nomatch (prev : option ascii) (c : ascii) (t : str) :
  mt prev (c :: t) = None ->
  scan mt repl prev (c :: t) 0
    = (c :: fst (scan mt repl (Some c) t 0), snd (scan mt repl (Some c) t 0)).
Proof.
  intros Hm. simpl. rewrite Hm.
  destruct (scan mt repl (Some c) t 0); reflexivity.
Qed.

(** A run of characters at which the matcher never succeeds is copied. *)
Lemma scan_copy (w : str) :
  forall prev rest,
    (forall w1 w2, w = w1 ++ w2 -> w2 <> [] ->
                   mt (last_char prev w1) (w2 ++ rest) = None) ->
    scan mt repl prev (w ++ rest) 0
      = (w ++ fst (scan mt repl (last_char prev w) rest 0),
         snd (scan mt repl (last_char prev w) rest 0)).
Proof.
  induction w as [|c w IH]; intros prev rest H.
  - change (last_char prev []) with prev. cbn [app].
    now destruct (scan mt repl prev rest 0).
  - change ((c :: w) ++ rest) with (c :: (w ++ rest)).
    rewrite scan_nomatch by (apply (H [] (c :: w)); [reflexivity | discriminate]).
    rewrite IH.
    + simpl. now rewrite last_char_cons with (prev := prev).
    + intros w1 w2 E Hne. rewrite last_char_cons with (prev := prev).
      apply (H (c :: w1) w2); [simpl; congruence | exact Hne].
Qed.

End Scan.

Lemma occurs_here (x t : str) : occurs x (x ++ t) = true.
Proof. apply occurs_app. exists [], t. reflexivity. Qed.

Lemma occurs_later (x a s : str) :
  occurs x s = true -> occurs x (a ++ s) = true.
Proof.
  rewrite !occurs_app. intros (u & v & ->).
  exists (a ++ u), v. now rewrite <- app_assoc.
Qed.

Lemma occurs_trans (x y s : str) :
  occurs x y = true -> occurs y s = true -> occurs x s = true.
Proof.
  rewrite !occurs_app. intros (a & b & ->) (u & v & ->).
  exists (u ++ a), (b ++ v). now rewrite <- !app_assoc.
Qed.

(** A substitution by a fixed text either leaves the subject as it is or
    leaves the fixed text in the result. *)
Lemma scan_const (mt : matcher) (new : str) (s : str) :
  forall prev j,
    fst (scan mt (fun _ => new) prev s j) = skipn j s
    \/ occurs new (fst (scan mt (fun _ => new) prev s j)) = true.
Proof.
  assert (Copy : forall c t prev,
             (fst (scan mt (fun _ => new) prev t 0) = t
              \/ occurs new (fst (scan mt (fun _ => new) prev t 0)) = true) ->
             c :: fst (scan mt (fun _ => new) prev t 0) = c :: t
             \/ occurs new (c :: fst (scan mt (fun _ => new) prev t 0)) = true).
  { intros c t prev [E | O].
    - left. now rewrite E.
    - right. apply (@occurs_later new [c] _ O). }
  induction s as [|c t IH]; intros prev j.
  - left. destruct j; reflexivity.
  - destruct j as [|j].
    + cbn [scan]. destruct (mt prev (c :: t)) as [m|].
      * destruct (length (mt_text m)) as [|k].
        -- specialize (Copy c t (Some c) (IH (Some c) 0)).
           destruct (scan mt (fun _ => new) (Some c) t 0) as [out cnt].
           exact Copy.
        -- destruct (scan mt (fun _ => new) (Some c) t k) as [out cnt].
           right. cbn [fst]. apply occurs_here.
      * specialize (Copy c t (Some c) (IH (Some c) 0)).
        destruct (scan mt (fun _ => new) (Some c) t 0) as [out cnt].
        exact Copy.
    + cbn [scan skipn]. apply IH.
Qed.

Lemma sub_const (r : regex) (new s : str) :
  sub r (fun _ => new) s = s \/ occurs new (sub r (fun _ => new) s) = true.
Proof. apply (scan_const (match_at r) new s None 0). Qed.

Lemma replace_const (old new s : str) :
  replace old new s = s \/ occurs new (replace old new s) = true.
Proof. apply (scan_const (find_text old) new s None 0). Qed.

(** ** Re-processing a diagnostic *)

Section Again.

Import FixTs18046.

Lemma cast_error_in (v t : str) :
  occurs (cast_error v) (cast_error v ++ t) = true.
Proof. apply occurs_here. Qed.

(** Branch 1 leaves its cast behind whenever it changes the line. *)
Lemma pattern1_guard (v line : str) (m : bool) :
  fst (pattern1 v line m) = line
  \/ occurs (cast_error v) (fst (pattern1 v line m)) = true.
Proof.
  unfold pattern1.
  destruct (occurs (v ++ L ".message") line
            && negb (occurs (cast_error v) line)).
  - destruct (replace_const (v ++ L ".message")
                (cast_error v ++ L ".message") line) as [E | O]; cbn [fst].
    + left; exact E.
    + right. eapply occurs_trans; [apply occurs_here | exact O].
  - destruct (occurs (v ++ L ".") line && negb (occurs (cast_error v) line)
              && negb (occurs (cast_any v) line)).
    + destruct (sub_const (access_pattern v) (cast_error v ++ L ".") line)
        as [E | O]; cbn [fst].
      * left; exact E.
      * right. eapply occurs_trans; [apply occurs_here | exact O].
    + left; reflexivity.
Qed.

(** With the cast of branch 1 on the line, branch 1 does nothing. *)
Lemma pattern1_guarded (v line : str) (m : bool) :
  occurs (cast_error v) line = true -> pattern1 v line m = (line, m).
Proof.
  intros H. unfold pattern1. rewrite H. simpl.
  rewrite !andb_false_r. reflexivity.
Qed.

Lemma pattern1_again (v line : str) (m m' : bool) :
  fst (pattern1 v (fst (pattern1 v line m)) m') = fst (pattern1 v line m).
Proof.
  destruct (pattern1_guard v line m) as [E | O].
  - rewrite E. rewrite <- E at 2. unfold pattern1.
    repeat match goal with
           | |- context [if ?c then _ else _] => destruct c
           end; reflexivity.
  - now rewrite pattern1_guarded.
Qed.

(** Branch 2 leaves its annotation behind whenever it changes the line. *)
Lemma pattern2_guard (v line : str) (m : bool) :
  fst (pattern2 v line m) = line
  \/ occurs (annotation v) (fst (pattern2 v line m)) = true.
Proof.
  unfold pattern2.
  destruct (occurs (annotation v) line); cbv zeta; cbn [negb fst]; [auto|].
  assert (A1 : occurs (annotation v) (L "(" ++ v ++ L ": any =>") = true).
  { apply occurs_app. exists (L "("), (L " =>").
    unfold annotation. now rewrite <- !app_assoc. }
  assert (A2 : occurs (annotation v) (L "(" ++ v ++ L ": any) =>") = true).
  { apply occurs_app. exists (L "("), (L ") =>").
    unfold annotation. now rewrite <- !app_assoc. }
  destruct (sub_const (arrow_pattern v) (L "(" ++ v ++ L ": any) =>")
              (sub (paren_arrow_pattern v)
                   (fun _ => L "(" ++ v ++ L ": any =>") line)) as [E | O].
  - rewrite E.
    destruct (sub_const (paren_arrow_pattern v) (L "(" ++ v ++ L ": any =>") line)
      as [E1 | O1].
    + left; exact E1.
    + right. eapply occurs_trans; [exact A1 | exact O1].
  - right. eapply occurs_trans; [exact A2 | exact O].
Qed.

Lemma pattern2_guarded (v line : str) (m : bool) :
  occurs (annotation v) line = true -> pattern2 v line m = (line, m).
Proof. intros H. unfold pattern2. now rewrite H. Qed.

(** Branch 3 leaves its cast behind whenever it changes the line. *)
Lemma pattern3_guard (v line : str) (m : bool) :
  fst (pattern3 v line m) = line
  \/ occurs (cast_any v) (fst (pattern3 v line m)) = true.
Proof.
  unfold pattern3; cbn [fst].
  destruct (sub_const (access_pattern v) (cast_any v ++ L ".") line) as [E | O].
  - left; exact E.
  - right. eapply occurs_trans; [apply occurs_here | exact O].
Qed.

End Again.

(** ** Splitting a text at a separator *)

Lemma sep_split (c : ascii) (a' : str) :
  forall a b b',
    a ++ c :: b = a' ++ c :: b' ->
    ~ In c a' ->
    (a = a' /\ b = b') \/ (exists a2, a = a' ++ c :: a2 /\ b' = a2 ++ c :: b).
Proof.
  induction a' as [|y a' IH]; intros a b b' E N.
  - destruct a as [|x a]; simpl in E; inversion E; subst.
    + left; auto.
    + right. exists a. auto.
  - destruct a as [|x a]; simpl in E; inversion E; subst.
    + exfalso. apply N. left; reflexivity.
    + destruct (IH a b b' H1) as [[-> ->] | (a2 & -> & ->)].
      * intros I. apply N. right; exact I.
      * left; auto.
      * right. exists a2. auto.
Qed.

Lemma prefix_before (c : ascii) (text : str) :
  forall a r rest,
    text ++ r = a ++ c :: rest ->
    ~ In c text ->
    exists a2, a = text ++ a2 /\ r = a2 ++ c :: rest.
Proof.
  induction text as [|x text IH]; intros a r rest E N.
  - exists a. auto.
  - destruct a as [|y a]; simpl in E; inversion E; subst.
    + exfalso. apply N. left; reflexivity.
    + destruct (IH a r rest H1) as (a2 & -> & ->).
      * intros I. apply N. right; exact I.
      * exists a2. auto.
Qed.

(** Two readings of a text as a run of a class followed by a character
    outside the class agree. *)
Lemma class_run_unique (p : ascii -> bool) (w1 : str) :
  forall w2 c1 c2 r1 r2,
    Forall (fun c => p c = true) w1 ->
    Forall (fun c => p c = true) w2 ->
    p c1 = false -> p c2 = false ->
    w1 ++ c1 :: r1 = w2 ++ c2 :: r2 ->
    w1 = w2 /\ c1 :: r1 = c2 :: r2.
Proof.
  induction w1 as [|x w1 IH]; intros w2 c1 c2 r1 r2 F1 F2 P1 P2 E.
  - destruct w2 as [|y w2]; simpl in E.
    + auto.
    + inversion E; subst. inversion F2; subst. congruence.
  - destruct w2 as [|y w2]; simpl in E; inversion E; subst.
    + inversion F1; subst. congruence.
    + inversion F1; inversion F2; subst.
      destruct (IH w2 c1 c2 r1 r2) as [-> E']; auto.
Qed.

Section ScanSplit.

Variable mt : matcher.
Variable repl : rmatch -> str.

Hypothesis mt_prefix :
  forall prev s m, mt prev s = Some m ->
                   mt_text m <> [] /\ exists rest, s = mt_text m ++ rest.

(** When no match contains the character [c], the scan of a text passes
    through every [c] and starts afresh behind it. *)
Lemma scan_until (c : ascii) :
  (forall prev s m, mt prev s = Some m -> ~ In c (mt_text m)) ->
  forall n a prev rest,
    length a <= n ->
    exists o1,
      fst (scan mt repl prev (a ++ c :: rest) 0)
        = o1 ++ c :: fst (scan mt repl (Some c) rest 0).
Proof.
  intros Hc. induction n as [|n IH]; intros a prev rest Hlen.
  - destruct a; [|simpl in Hlen; lia]. cbn [app].
    destruct (mt prev (c :: rest)) as [m|] eqn:M.
    + exfalso. destruct (mt_prefix _ _ _ M) as (Hne & r & E).
      apply (Hc _ _ _ M).
      destruct (mt_text m); [congruence|]. inversion E; subst. left; reflexivity.
    + rewrite (@scan_nomatch mt repl _ _ _ M). exists []. reflexivity.
  - destruct a as [|x a].
    + apply (IH [] prev rest). simpl; lia.
    + change ((x :: a) ++ c :: rest) with (x :: (a ++ c :: rest)).
      destruct (mt prev (x :: (a ++ c :: rest))) as [m|] eqn:M.
      * destruct (mt_prefix _ _ _ M) as (Hne & r & E).
        destruct (@prefix_before c (mt_text m) (x :: a) r rest) as (a2 & Ea & Er).
        { symmetry. exact E. }
        { apply (Hc _ _ _ M). }
        rewrite (@scan_match mt repl _ _ _ _ M E Hne). cbn [fst]. subst r.
        destruct (IH a2 (last_char prev (mt_text m)) rest) as [o1 Ho].
        { assert (length (x :: a) = length (mt_text m) + length a2)
            by (rewrite Ea; apply length_app).
          destruct (mt_text m); [congruence|]. simpl in *. lia. }
        rewrite Ho. exists (repl m ++ o1). now rewrite <- app_assoc.
      * rewrite (@scan_nomatch mt repl _ _ _ M). cbn [fst].
        destruct (IH a (Some x) rest) as [o1 Ho]; [simpl in Hlen; lia|].
        rewrite Ho. exists (x :: o1). reflexivity.
Qed.

End ScanSplit.

(** ** Inversion of the declarative reading, by construct *)

Lemma sem_seq_inv (r1 r2 : regex) (st st' : mstate) :
  sem (Seq r1 r2) st st' -> exists st1, sem r1 st st1 /\ sem r2 st1 st'.
Proof. intros H; inversion H; subst; eauto. Qed.

Lemma sem_chr_inv (c : ascii) (st st' : mstate) :
  sem (Chr c) st st' ->
  m_rest st = c :: m_rest st' /\ m_grp st' = m_grp st /\ m_prev st' = Some c.
Proof. intros H; inversion H; subst; auto. Qed.

Lemma sem_wordb_inv (st st' : mstate) :
  sem Wordb st st' -> st' = st /\ at_boundary st = true.
Proof. intros H; inversion H; subst; auto. Qed.

Lemma sem_grp_inv (n : nat) (r : regex) (st st' : mstate) :
  sem (Grp n r) st st' ->
  exists st1, sem r st st1
              /\ m_rest st' = m_rest st1
              /\ m_prev st' = m_prev st1
              /\ m_grp st' = (n, consumed st st1) :: m_grp st1.
Proof. intros H; inversion H; subst; eexists; split; eauto. Qed.

Lemma sem_opt_inv (r : regex) (st st' : mstate) :
  sem (Opt r) st st' -> sem r st st' \/ st' = st.
Proof. intros H; inversion H; subst; auto. Qed.

Lemma sem_bref_inv (n : nat) (st st' : mstate) :
  sem (Bref n) st st' ->
  exists w, group_lookup n (m_grp st) = Some w
            /\ m_rest st = w ++ m_rest st'
            /\ m_grp st' = m_grp st.
Proof.
  intros H; inversion H; subst. exists w. simpl.
  repeat split; auto. now apply strip_prefix_app.
Qed.

(** ** What the patterns of fix-ts18046.py match *)

Section TsShapes.

Import FixTs18046.

Variable v : str.

Lemma access_shape (prev : option ascii) (s : str) (m : rmatch) :
  match_at (access_pattern v) prev s = Some m ->
  mt_text m = v ++ L "."
  /\ at_boundary (MState prev s []) = true
  /\ exists rest, s = mt_text m ++ rest.
Proof.
  intros H. apply match_at_sound in H. destruct H as (st' & S & E & _).
  unfold access_pattern in S. cbn [Cat] in S.
  apply sem_seq_inv in S. destruct S as (s1 & S1 & S).
  apply sem_wordb_inv in S1. destruct S1 as [-> B].
  apply sem_seq_inv in S. destruct S as (s2 & S2 & S3).
  apply sem_lit in S2. destruct S2 as (E2 & _ & _).
  apply sem_chr_inv in S3. destruct S3 as (E3 & _ & _).
  simpl in E2. rewrite E3 in E2.
  assert (T : mt_text m = v ++ L ".").
  { apply (app_inv_tail (m_rest st')). rewrite <- E, E2.
    now rewrite <- app_assoc. }
  repeat split; auto. exists (m_rest st'). exact E.
Qed.

Lemma arrow_shape (prev : option ascii) (s : str) (m : rmatch) :
  match_at (arrow_pattern v) prev s = Some m ->
  (exists ws, mt_text m = v ++ ws ++ L "=>"
              /\ Forall (fun c => is_space c = true) ws)
  /\ at_boundary (MState prev s []) = true
  /\ exists rest, s = mt_text m ++ rest.
Proof.
  intros H. apply match_at_sound in H. destruct H as (st' & S & E & _).
  unfold arrow_pattern in S. cbn [Cat] in S.
  apply sem_seq_inv in S. destruct S as (s1 & S1 & S).
  apply sem_wordb_inv in S1. destruct S1 as [-> B].
  apply sem_seq_inv in S. destruct S as (s2 & S2 & S).
  apply sem_lit in S2. destruct S2 as (E2 & _ & _).
  apply sem_seq_inv in S. destruct S as (s3 & S3 & S4).
  apply sem_star_cls in S3. destruct S3 as (ws & E3 & F3 & _).
  apply sem_lit in S4. destruct S4 as (E4 & _ & _).
  simpl in E2. rewrite E3, E4 in E2.
  split; [|split; [exact B | exists (m_rest st'); exact E]].
  exists ws. split; [|exact F3].
  apply (app_inv_tail (m_rest st')). rewrite <- E, E2.
  now rewrite <- !app_assoc.
Qed.

Lemma paren_arrow_shape (prev : option ascii) (s : str) (m : rmatch) :
  match_at (paren_arrow_pattern v) prev s = Some m ->
  (exists ws, mt_text m = L "(" ++ v ++ ws ++ L "=>"
              /\ Forall (fun c => is_space c = true) ws)
  /\ exists rest, s = mt_text m ++ rest.
Proof.
  intros H. apply match_at_sound in H. destruct H as (st' & S & E & _).
  unfold paren_arrow_pattern in S. cbn [Cat] in S.
  apply sem_seq_inv in S. destruct S as (s1 & S1 & S).
  apply sem_chr_inv in S1. destruct S1 as (E1 & _ & _).
  apply sem_seq_inv in S. destruct S as (s2 & S2 & S).
  apply sem_lit in S2. destruct S2 as (E2 & _ & _).
  apply sem_seq_inv in S. destruct S as (s3 & S3 & S4).
  apply sem_star_cls in S3. destruct S3 as (ws & E3 & F3 & _).
  apply sem_lit in S4. destruct S4 as (E4 & _ & _).
  simpl in E1. rewrite E2, E3, E4 in E1.
  split; [|exists (m_rest st'); exact E].
  exists ws. split; [|exact F3].
  apply (app_inv_tail (m_rest st')). rewrite <- E, E1.
  cbn [L list_ascii_of_string app]. now rewrite <- !app_assoc.
Qed.

End TsShapes.

Lemma not_in_class (p : ascii -> bool) (c : ascii) (w : str) :
  Forall (fun x => p x = true) w -> p c = false -> ~ In c w.
Proof.
  intros F P I. rewrite Forall_forall in F. specialize (F c I). congruence.
Qed.

(** ** Calls of map/filter/forEach under a substitution *)

Lemma call_text (name x y : str) :
  x ++ (L "." ++ name ++ L "(") ++ y = x ++ "."%char :: name ++ "("%char :: y.
Proof.
  cbn [L list_ascii_of_string app]. now rewrite <- app_assoc.
Qed.

Section KeepCall.

Variable mt : matcher.
Variable repl : rmatch -> str.

Hypothesis mt_prefix :
  forall prev s m, mt prev s = Some m ->
                   mt_text m <> [] /\ exists rest, s = mt_text m ++ rest.
Hypothesis no_dot :
  forall prev s m, mt prev s = Some m -> ~ In "."%char (mt_text m).
Hypothesis not_in_name :
  forall prev w rest,
    w <> [] -> Forall (fun c => is_word c = true) w ->
    mt prev (w ++ "("%char :: rest) = None.
Hypothesis paren_kept :
  forall prev rest m,
    mt prev ("("%char :: rest) = Some m -> exists y, repl m = "("%char :: y.

(** A call [.name(] of the subject is still there after the scan. *)
Lemma keep_call (name a b : str) (prev : option ascii) :
  Forall (fun c => is_word c = true) name ->
  exists o1 o2,
    fst (scan mt repl prev (a ++ "."%char :: name ++ "("%char :: b) 0)
      = o1 ++ "."%char :: name ++ "("%char :: o2.
Proof.
  intros Fn.
  destruct (@scan_until mt repl mt_prefix "."%char no_dot (length a) a prev
              (name ++ "("%char :: b) (le_n _)) as [o1 Ho].
  rewrite Ho. exists o1.
  rewrite (@scan_copy mt repl name (Some "."%char) ("("%char :: b)).
  - cbn [fst].
    destruct (mt (last_char (Some "."%char) name) ("("%char :: b)) as [m|] eqn:M.
    + destruct (mt_prefix _ _ _ M) as (Hne & r & E).
      destruct (paren_kept _ _ _ M) as [y Hy].
      rewrite (@scan_match mt repl _ _ r _ M E Hne). cbn [fst]. rewrite Hy.
      eexists. reflexivity.
    + rewrite (@scan_nomatch mt repl _ _ _ M). cbn [fst].
      eexists. reflexivity.
  - intros w1 w2 E Hne. apply not_in_name; [exact Hne|].
    rewrite E in Fn. apply Forall_app in Fn. tauto.
Qed.

Lemma keep_call_occurs (name s : str) :
  Forall (fun c => is_word c = true) name ->
  occurs (L "." ++ name ++ L "(") s = true ->
  occurs (L "." ++ name ++ L "(") (fst (scan mt repl None s 0)) = true.
Proof.
  intros Fn. rewrite !occurs_app. intros (a & b & ->).
  destruct (@keep_call name a b None Fn) as (o1 & o2 & E).
  exists o1, o2. rewrite !call_text. exact E.
Qed.

End KeepCall.

Section NoNewCall.

Variable mt : matcher.
Variable repl : rmatch -> str.

Hypothesis mt_prefix :
  forall prev s m, mt prev s = Some m ->
                   mt_text m <> [] /\ exists rest, s = mt_text m ++ rest.
Hypothesis ends_dot :
  forall prev s m,
    mt prev s = Some m ->
    exists x y, mt_text m = x ++ ["."%char]
                /\ repl m = "("%char :: y ++ ["."%char]
                /\ ~ In "."%char y.
Hypothesis word_prev :
  forall p s, is_word p = true -> mt (Some p) s = None.

(** Every full stop of the result stands for a full stop of the subject,
    behind which the scan starts afresh. *)
Lemma dot_origin (n : nat) :
  forall s prev o1 o2,
    length s <= n ->
    fst (scan mt repl prev s 0) = o1 ++ "."%char :: o2 ->
    exists a t, s = a ++ "."%char :: t
                /\ o2 = fst (scan mt repl (Some "."%char) t 0).
Proof.
  induction n as [|n IH]; intros s prev o1 o2 Hlen H.
  - destruct s; [|simpl in Hlen; lia]. simpl in H. destruct o1; discriminate.
  - destruct s as [|c t]; [simpl in H; destruct o1; discriminate|].
    destruct (mt prev (c :: t)) as [m|] eqn:M.
    + destruct (mt_prefix _ _ _ M) as (Hne & r & E).
      destruct (ends_dot _ _ _ M) as (x & y & Tx & Ry & Ny).
      rewrite (@scan_match mt repl _ _ r _ M E Hne) in H. cbn [fst] in H.
      rewrite Tx, last_char_app in H.
      change (last_char (last_char prev x) ["."%char]) with (Some "."%char) in H.
      rewrite Ry in H.
      rewrite <- app_comm_cons, <- app_assoc in H. cbn [app] in H.
      destruct (@sep_split "."%char ("("%char :: y) o1 o2
                  (fst (scan mt repl (Some "."%char) r 0))) as [[_ E2] | (o1' & _ & E2)].
      * symmetry. exact H.
      * intros [I | I]; [discriminate I | exact (Ny I)].
      * exists x, r. split; [|exact E2].
        rewrite E, Tx, <- app_assoc. reflexivity.
      * destruct (IH r (Some "."%char) o1' o2) as (a & t' & Er & Eo).
        { assert (length (c :: t) = length (mt_text m) + length r)
            by (rewrite E; apply length_app).
          destruct (mt_text m); [congruence|]. simpl in *. lia. }
        { exact E2. }
        exists (mt_text m ++ a), t'. split; [|exact Eo].
        rewrite E, Er, <- app_assoc. reflexivity.
    + rewrite (@scan_nomatch mt repl _ _ _ M) in H. cbn [fst] in H.
      destruct o1 as [|x o1]; simpl in H; inversion H; subst.
      * exists [], t. auto.
      * destruct (IH t (Some x) o1 o2) as (a & t' & Er & Eo);
          [simpl in Hlen; lia | assumption |].
        exists (x :: a), t'. split; [simpl; congruence | exact Eo].
Qed.

(** Behind a word character nothing is matched: the text up to the next
    parenthesis is read as it stands. *)
Lemma after_word (w : str) :
  Forall (fun c => is_word c = true) w ->
  forall p t o3,
    is_word p = true ->
    fst (scan mt repl (Some p) t 0) = w ++ "("%char :: o3 ->
    exists t', t = w ++ "("%char :: t'.
Proof.
  induction 1 as [|x w Hx Hw IH]; intros p t o3 Hp H.
  - destruct t as [|c t]; [discriminate H|].
    rewrite (@scan_nomatch mt repl _ _ _ (word_prev p (c :: t) Hp)) in H.
    inversion H; subst. exists t. reflexivity.
  - destruct t as [|c t]; [discriminate H|].
    rewrite (@scan_nomatch mt repl _ _ _ (word_prev p (c :: t) Hp)) in H.
    inversion H; subst.
    destruct (IH x t o3 Hx H2) as [t' ->]. exists t'. reflexivity.
Qed.

(** A call [.name(] of the result was a call of the subject. *)
Lemma no_new_call (name s : str) :
  name <> [] -> Forall (fun c => is_word c = true) name ->
  occurs (L "." ++ name ++ L "(") (fst (scan mt repl None s 0)) = true ->
  occurs (L "." ++ name ++ L "(") s = true.
Proof.
  intros Hne Fn. rewrite !occurs_app. intros (o1 & o3 & E).
  rewrite call_text in E.
  destruct (@dot_origin (length s) s None o1 _ (le_n _) E) as (a & t & Es & Eo).
  destruct name as [|n0 nr]; [congruence|]. inversion Fn as [|? ? Hn0 Fnr]; subst.
  assert (T : exists t', t = (n0 :: nr) ++ "("%char :: t').
  { destruct t as [|c t]; [discriminate Eo|].
    destruct (mt (Some "."%char) (c :: t)) as [m|] eqn:M.
    - destruct (mt_prefix _ _ _ M) as (Hm & r & Em).
      destruct (ends_dot _ _ _ M) as (x & y & _ & Ry & _).
      rewrite (@scan_match mt repl _ _ r _ M Em Hm), Ry in Eo.
      inversion Eo; subst. discriminate Hn0.
    - rewrite (@scan_nomatch mt repl _ _ _ M) in Eo. inversion Eo; subst.
      destruct (@after_word nr Fnr c t o3 Hn0 (eq_sym H1)) as [t' ->].
      exists t'. reflexivity. }
  destruct T as [t' ->]. exists a, t'.
  rewrite call_text. reflexivity.
Qed.

End NoNewCall.

(** ** One diagnostic processed twice *)

Section TsAgain.

Import FixTs18046.

Variable v : str.
Hypothesis v_nonempty : v <> [].
Hypothesis v_word : Forall (fun c => is_word c = true) v.

Lemma v_head : exists c w, v = c :: w /\ is_word c = true.
Proof.
  destruct v as [|c w]; [congruence|].
  inversion v_word; subst. eauto.
Qed.

Lemma spaces_then_arrow_free (c : ascii) (ws : str) :
  is_word c = false -> is_space c = false ->
  c <> "="%char -> c <> ">"%char ->
  Forall (fun x => is_space x = true) ws ->
  ~ In c (v ++ ws ++ L "=>").
Proof.
  intros Hw Hs He Hg F I.
  apply in_app_or in I. destruct I as [I | I].
  - exact (not_in_class is_word c v v_word Hw I).
  - apply in_app_or in I. destruct I as [I | I].
    + exact (not_in_class is_space c ws F Hs I).
    + simpl in I. destruct I as [I | [I | []]]; congruence.
Qed.

Lemma paren_arrow_prefix (prev : option ascii) (s : str) (m : rmatch) :
  match_at (paren_arrow_pattern v) prev s = Some m ->
  mt_text m <> [] /\ exists rest, s = mt_text m ++ rest.
Proof.
  intros H. destruct (paren_arrow_shape _ _ _ _ H) as ((ws & T & _) & R).
  split; [rewrite T; discriminate | exact R].
Qed.

Lemma paren_arrow_no_dot (prev : option ascii) (s : str) (m : rmatch) :
  match_at (paren_arrow_pattern v) prev s = Some m -> ~ In "."%char (mt_text m).
Proof.
  intros H. destruct (paren_arrow_shape _ _ _ _ H) as ((ws & T & F) & _).
  rewrite T. intros [I | I]; [discriminate I|].
  revert I. apply spaces_then_arrow_free; auto; discriminate.
Qed.

Lemma paren_arrow_not_in_name (prev : option ascii) (w rest : str) :
  w <> [] -> Forall (fun c => is_word c = true) w ->
  match_at (paren_arrow_pattern v) prev (w ++ "("%char :: rest) = None.
Proof.
  intros Hne Fw.
  destruct (match_at (paren_arrow_pattern v) prev (w ++ "("%char :: rest))
    as [m|] eqn:M; [|reflexivity].
  exfalso. destruct (paren_arrow_shape _ _ _ _ M) as ((ws & T & _) & r & E).
  rewrite T in E. destruct w as [|c w]; [congruence|].
  inversion Fw; subst. simpl in E. inversion E; subst. discriminate.
Qed.

Lemma arrow_prefix (prev : option ascii) (s : str) (m : rmatch) :
  match_at (arrow_pattern v) prev s = Some m ->
  mt_text m <> [] /\ exists rest, s = mt_text m ++ rest.
Proof.
  intros H. destruct (arrow_shape _ _ _ _ H) as ((ws & T & _) & _ & R).
  split; [|exact R]. rewrite T. destruct v; [congruence | discriminate].
Qed.

Lemma arrow_no_dot (prev : option ascii) (s : str) (m : rmatch) :
  match_at (arrow_pattern v) prev s = Some m -> ~ In "."%char (mt_text m).
Proof.
  intros H. destruct (arrow_shape _ _ _ _ H) as ((ws & T & F) & _).
  rewrite T. apply spaces_then_arrow_free; auto; discriminate.
Qed.

Lemma arrow_not_in_name (prev : option ascii) (w rest : str) :
  w <> [] -> Forall (fun c => is_word c = true) w ->
  match_at (arrow_pattern v) prev (w ++ "("%char :: rest) = None.
Proof.
  intros Hne Fw.
  destruct (match_at (arrow_pattern v) prev (w ++ "("%char :: rest))
    as [m|] eqn:M; [|reflexivity].
  exfalso. destruct (arrow_shape _ _ _ _ M) as ((ws & T & F) & _ & r & E).
  destruct (@prefix_before "("%char (mt_text m) w r rest) as (a2 & Ew & _).
  - symmetry; exact E.
  - rewrite T. apply spaces_then_arrow_free; auto; discriminate.
  - rewrite Ew, T in Fw. rewrite !Forall_app in Fw.
    destruct Fw as ((_ & _ & Fa) & _). inversion Fa; subst.
    inversion H2; subst. discriminate.
Qed.

Lemma arrow_at_paren (prev : option ascii) (rest : str) :
  match_at (arrow_pattern v) prev ("("%char :: rest) = None.
Proof.
  destruct (match_at (arrow_pattern v) prev ("("%char :: rest)) as [m|] eqn:M;
    [|reflexivity].
  exfalso. destruct (arrow_shape _ _ _ _ M) as ((ws & T & F) & _ & r & E).
  destruct v_head as (c & w & Ev & Hc). rewrite T, Ev in E.
  simpl in E. inversion E; subst. discriminate.
Qed.

(** The two substitutions of branch 2 keep the calls of the line. *)
Lemma pattern2_keeps_call (name line : str) (m : bool) :
  Forall (fun c => is_word c = true) name ->
  occurs (L "." ++ name ++ L "(") line = true ->
  occurs (L "." ++ name ++ L "(") (fst (pattern2 v line m)) = true.
Proof.
  intros Fn H. unfold pattern2.
  destruct (occurs (annotation v) line); cbv zeta; cbn [negb fst]; [exact H|].
  unfold sub.
  apply (@keep_call_occurs (match_at (arrow_pattern v)) _
           arrow_prefix arrow_no_dot arrow_not_in_name).
  - intros prev rest m0 M. rewrite arrow_at_paren in M. discriminate.
  - exact Fn.
  - apply (@keep_call_occurs (match_at (paren_arrow_pattern v)) _
             paren_arrow_prefix paren_arrow_no_dot paren_arrow_not_in_name).
    + intros prev rest m0 _. eexists. reflexivity.
    + exact Fn.
    + exact H.
Qed.

Lemma pattern2_keeps_callback (line : str) (m : bool) :
  is_callback_line line = true ->
  is_callback_line (fst (pattern2 v line m)) = true.
Proof.
  unfold is_callback_line. rewrite !orb_true_iff.
  intros [[H | H] | H].
  - left; left.
    apply (@pattern2_keeps_call (L "map") line m); [|exact H].
    repeat constructor.
  - left; right.
    apply (@pattern2_keeps_call (L "filter") line m); [|exact H].
    repeat constructor.
  - right.
    apply (@pattern2_keeps_call (L "forEach") line m); [|exact H].
    repeat constructor.
Qed.

Lemma access_prefix (prev : option ascii) (s : str) (m : rmatch) :
  match_at (access_pattern v) prev s = Some m ->
  mt_text m <> [] /\ exists rest, s = mt_text m ++ rest.
Proof.
  intros H. destruct (access_shape _ _ _ _ H) as (T & _ & R).
  split; [|exact R]. rewrite T. destruct v; discriminate.
Qed.

Lemma access_word_prev (p : ascii) (s : str) :
  is_word p = true -> match_at (access_pattern v) (Some p) s = None.
Proof.
  intros Hp.
  destruct (match_at (access_pattern v) (Some p) s) as [m|] eqn:M; [|reflexivity].
  exfalso. destruct (access_shape _ _ _ _ M) as (T & B & r & E).
  destruct v_head as (c & w & Ev & Hc). rewrite T, Ev in E.
  unfold at_boundary in B. rewrite E in B. simpl in B.
  rewrite Hp, Hc in B. discriminate.
Qed.

(** The substitution of branch 3 does not bring about a call. *)
Lemma pattern3_no_new_call (name line : str) (m : bool) :
  name <> [] -> Forall (fun c => is_word c = true) name ->
  occurs (L "." ++ name ++ L "(") (fst (pattern3 v line m)) = true ->
  occurs (L "." ++ name ++ L "(") line = true.
Proof.
  intros Hne Fn. unfold pattern3, sub. cbn [fst].
  apply (@no_new_call (match_at (access_pattern v)) _ access_prefix); auto.
  - intros prev s m0 M. destruct (access_shape _ _ _ _ M) as (T & _).
    exists v, (v ++ L " as any)"). split; [exact T|]. split; [reflexivity|].
    intros I. apply in_app_or in I. destruct I as [I | I].
    + refine (not_in_class is_word _ v v_word _ I). reflexivity.
    + simpl in I. repeat (destruct I as [I | I]; [discriminate I|]). exact I.
  - apply access_word_prev.
Qed.

Lemma pattern3_no_callback (line : str) (m : bool) :
  is_callback_line line = false ->
  is_callback_line (fst (pattern3 v line m)) = false.
Proof.
  intros H.
  destruct (is_callback_line (fst (pattern3 v line m))) eqn:C; [|reflexivity].
  rewrite <- H. unfold is_callback_line in *. rewrite !orb_true_iff in C.
  symmetry. rewrite !orb_true_iff.
  destruct C as [[C | C] | C].
  - left; left.
    apply (@pattern3_no_new_call (L "map") line m); auto; [discriminate|].
    repeat constructor.
  - left; right.
    apply (@pattern3_no_new_call (L "filter") line m); auto; [discriminate|].
    repeat constructor.
  - right.
    apply (@pattern3_no_new_call (L "forEach") line m); auto; [discriminate|].
    repeat constructor.
Qed.

(** Processing one diagnostic a second time leaves the line as the first
    processing produced it. *)
Lemma fix_line_again (line : str) (m m' : bool) :
  fst (fix_line v (fst (fix_line v line m)) m') = fst (fix_line v line m).
Proof.
  unfold fix_line at 2 3.
  destruct (existsb (str_eqb v) error_names) eqn:N.
  - unfold fix_line. rewrite N. apply pattern1_again.
  - destruct (is_callback_line line) eqn:C.
    + unfold fix_line. rewrite N, (pattern2_keeps_callback line m C).
      destruct (pattern2_guard v line m) as [E | O].
      * rewrite E. rewrite <- E at 2. unfold pattern2.
        destruct (occurs (annotation v) line); reflexivity.
      * rewrite (pattern2_guarded _ _ m' O). reflexivity.
    + destruct (pattern3_trigger v line) eqn:T.
      * unfold fix_line. rewrite N, (pattern3_no_callback line m C).
        destruct (pattern3_guard v line m) as [E | O].
        -- rewrite E. rewrite T. rewrite <- E at 2. reflexivity.
        -- unfold pattern3_trigger. rewrite O, andb_false_r. reflexivity.
      * cbn [fst]. unfold fix_line. rewrite N, C, T. reflexivity.
Qed.

End TsAgain.

(** ** The loop over the diagnostics, run twice *)

Section LoopAgain.

Import FixTs18046.

Lemma set_nth_length (i : nat) (x : str) (l : list str) :
  length (set_nth i x l) = length l.
Proof.
  revert i; induction l as [|y l IH]; intros [|i]; simpl; auto.
Qed.

Lemma set_nth_other (i j : nat) (x : str) (l : list str) :
  i <> j -> nth j (set_nth i x l) [] = nth j l [].
Proof.
  revert i j; induction l as [|y l IH]; intros [|i] [|j] H; simpl; auto.
  congruence.
Qed.

Lemma set_nth_here (i : nat) (x : str) (l : list str) :
  i < length l -> nth i (set_nth i x l) [] = x.
Proof.
  revert i; induction l as [|y l IH]; intros [|i] H; simpl in *;
    try lia; auto.
  apply IH. lia.
Qed.

Lemma position_bound (len : nat) (z : Z) (i : nat) :
  position len z = Some i -> i < len.
Proof.
  unfold position.
  destruct (Z.leb_spec 0 z).
  - destruct (Z.ltb_spec z (Z.of_nat len)); [|discriminate].
    intros E; inversion E; subst. lia.
  - destruct (Z.leb_spec 0 (z + Z.of_nat len)); [|discriminate].
    intros E; inversion E; subst. lia.
Qed.

(** What one step does, position by position. *)
Lemma step_spec (l l' : list str) (m m' : bool) (e : diagnostic) :
  step (l, m) e = Ok (l', m') ->
  length l' = length l
  /\ match position (length l) (d_line e - 1) with
     | Some i =>
         l' = set_nth i (fst (fix_line (d_var e) (nth i l []) m)) l
     | None => l' = l
     end.
Proof.
  unfold step.
  destruct (Z.leb_spec (Z.of_nat (length l)) (d_line e - 1)) as [Hs | Hs].
  - intros E; inversion E; subst. split; [reflexivity|].
    unfold position.
    destruct (Z.leb_spec 0 (d_line e - 1)); [|lia].
    destruct (Z.ltb_spec (d_line e - 1) (Z.of_nat (length l'))); [lia|].
    reflexivity.
  - destruct (position (length l) (d_line e - 1)) as [i|]; [|discriminate].
    destruct (fix_line (d_var e) (nth i l []) m) as [x f].
    intros E; inversion E; subst.
    split; [apply set_nth_length | reflexivity].
Qed.

Lemma loop_spec (es : list diagnostic) :
  forall l l' m m',
    loop es (l, m) = Ok (l', m') ->
    length l' = length l
    /\ forall j, ~ In j (targets (length l) es) -> nth j l' [] = nth j l [].
Proof.
  induction es as [|e es IH]; intros l l' m m'; cbn [loop targets].
  - intros E; inversion E; subst. auto.
  - destruct (step (l, m) e) as [[l1 m1]|] eqn:S; [|discriminate].
    intros E. apply IH in E. destruct E as [Len Fr].
    apply step_spec in S. destruct S as [Len1 S].
    rewrite Len1 in *. split; [exact Len|].
    intros j Hj. destruct (position (length l) (d_line e - 1)) as [i|].
    + rewrite Fr by (intros I; apply Hj; right; exact I).
      subst l1. apply set_nth_other. intros ->. apply Hj. left; reflexivity.
    + subst l1. apply Fr. exact Hj.
Qed.

(** A second run over lines that already carry the results of the first
    run changes none of them. *)
Lemma loop_settled (es : list diagnostic) :
  forall (l l' : list str) (m m' : bool) (final : list str) (flag : bool),
    Forall (fun e => identifier (d_var e)) es ->
    NoDup (targets (length l) es) ->
    loop es (l, m) = Ok (l', m') ->
    length final = length l ->
    (forall i, In i (targets (length l) es) -> nth i final [] = nth i l' []) ->
    exists flag', loop es (final, flag) = Ok (final, flag').
Proof.
  induction es as [|e es IH]; intros l l' m m' final flag Hid Hnd H Hlen Hfin;
    cbn [loop targets] in *.
  - eauto.
  - inversion Hid as [|? ? He Hes]; subst.
    destruct (step (l, m) e) as [[l1 m1]|] eqn:S; [|discriminate].
    pose proof (step_spec _ _ _ _ _ S) as [Len1 S1].
    pose proof (loop_spec _ _ _ _ _ H) as [_ Fr].
    rewrite Len1 in Fr.
    assert (S2 : exists flag1, step (final, flag) e = Ok (final, flag1)).
    { assert (P0 : (Z.of_nat (length l) <=? d_line e - 1)%Z = false ->
                   position (length l) (d_line e - 1) <> None).
      { intros Hle Hp. unfold step in S. cbv beta iota in S.
        rewrite Hle, Hp in S. discriminate. }
      unfold step. cbv beta iota. rewrite Hlen.
      destruct (Z.of_nat (length l) <=? d_line e - 1)%Z; [eauto|].
      destruct (position (length l) (d_line e - 1)) as [i|] eqn:P;
        [|exfalso; exact (P0 eq_refl eq_refl)].
      inversion Hnd as [|? ? Hni Hnd']; subst.
      assert (Hi : nth i final [] = fst (fix_line (d_var e) (nth i l []) m)).
      { rewrite Hfin by (left; reflexivity). rewrite (Fr i Hni).
        apply set_nth_here. eapply position_bound; eassumption. }
      destruct (fix_line (d_var e) (nth i final []) flag) as [x f] eqn:F.
      exists f. f_equal. f_equal.
      assert (Hx : x = nth i final []).
      { change x with (fst (x, f)). rewrite <- F, Hi.
        destruct He as [Hne Hw]. apply fix_line_again; assumption. }
      rewrite Hx. apply set_nth_same. }
    destruct S2 as [flag1 S2]. rewrite S2.
    apply (IH l1 l' m1 m' final flag1); auto.
    + rewrite Len1. destruct (position (length l) (d_line e - 1));
        [inversion Hnd; assumption | assumption].
    + congruence.
    + rewrite Len1. intros i Hi. apply Hfin.
      destruct (position (length l) (d_line e - 1)); [right|]; exact Hi.
Qed.

End LoopAgain.

(** ** A second run, with several diagnostics on a line *)

Section LoopFixed.

Import FixTs18046.






End LoopFixed.

(** ** A block that no substitution may touch *)

Lemma app_split_le (pre text r x : str) :
  pre ++ x = text ++ r ->
  length text <= length pre ->
  exists pre2, pre = text ++ pre2 /\ r = pre2 ++ x.
Proof.
  revert pre; induction text as [|c text IH]; intros pre E Hl.
  - exists pre. auto.
  - destruct pre as [|d pre]; [simpl in Hl; lia|].
    simpl in E. inversion E; subst.
    destruct (IH pre H1) as (pre2 & -> & ->); [simpl in Hl; lia|].
    exists pre2. auto.
Qed.

Lemma app_split_gt (pre text r x : str) :
  pre ++ x = text ++ r ->
  length pre < length text ->
  exists w, w <> [] /\ text = pre ++ w /\ x = w ++ r.
Proof.
  revert text; induction pre as [|d pre IH]; intros text E Hl.
  - exists text. repeat split; auto. destruct text; [simpl in Hl; lia | discriminate].
  - destruct text as [|c text]; [simpl in Hl; lia|].
    simpl in E. inversion E; subst.
    destruct (IH text H1) as (w & Hw & -> & ->); [simpl in Hl; lia|].
    exists w. auto.
Qed.

Section KeepBlock.

Variable mt : matcher.
Variable repl : rmatch -> str.
Variable B : str.

Hypothesis B_nonempty : B <> [].
Hypothesis mt_prefix :
  forall prev s m, mt prev s = Some m ->
                   mt_text m <> [] /\ exists rest, s = mt_text m ++ rest.
(** No match starts inside the block. *)
Hypothesis inside :
  forall prev b1 b2 t,
    B = b1 ++ b2 -> b1 <> [] -> b2 <> [] -> mt prev (b2 ++ t) = None.
(** A match at the start of the block is the block, replaced by itself. *)
Hypothesis at_start :
  forall prev t m, mt prev (B ++ t) = Some m -> mt_text m = B /\ repl m = B.
(** A match that starts before the block and reaches into it ends inside
    the block, and its replacement ends with the part of the block that it
    covers. *)
Hypothesis straddle :
  forall prev pre t m w r,
    pre <> [] -> w <> [] ->
    mt prev (pre ++ B ++ t) = Some m ->
    mt_text m = pre ++ w -> B ++ t = w ++ r ->
    exists u b2, B = w ++ b2 /\ repl m = u ++ w.

Lemma scan_block_tail (b1 b2 t : str) (prev : option ascii) :
  B = b1 ++ b2 -> b1 <> [] ->
  fst (scan mt repl prev (b2 ++ t) 0)
    = b2 ++ fst (scan mt repl (last_char prev b2) t 0).
Proof.
  intros E Hne. rewrite (scan_copy mt repl b2 prev t); [reflexivity|].
  intros w1 w2 Ew Hw. apply (inside _ (b1 ++ w1) w2 t).
  - rewrite E, Ew. now rewrite app_assoc.
  - destruct b1; [congruence | discriminate].
  - exact Hw.
Qed.

Lemma scan_keeps_block (n : nat) :
  forall pre post prev,
    length pre <= n ->
    exists pre' post',
      fst (scan mt repl prev (pre ++ B ++ post) 0) = pre' ++ B ++ post'.
Proof.
  induction n as [|n IH]; intros pre post prev Hlen.
  - destruct pre; [|simpl in Hlen; lia]. cbn [app].
    destruct (mt prev (B ++ post)) as [m|] eqn:M.
    + destruct (mt_prefix _ _ _ M) as (Hne & r & E).
      destruct (at_start _ _ _ M) as [T R].
      rewrite (scan_match mt repl prev _ r m M E Hne). cbn [fst]. rewrite R.
      exists [], (fst (scan mt repl (last_char prev (mt_text m)) r 0)).
      reflexivity.
    + rewrite (scan_copy mt repl B prev post).
      * exists [], (fst (scan mt repl (last_char prev B) post 0)). reflexivity.
      * intros w1 w2 Ew Hw. destruct w1 as [|c w1].
        -- cbn [app] in Ew. subst w2. exact M.
        -- apply (inside _ (c :: w1) w2 post Ew); [discriminate | exact Hw].
  - destruct pre as [|x pre]; [apply (IH [] post prev); simpl; lia|].
    destruct (mt prev ((x :: pre) ++ B ++ post)) as [m|] eqn:M.
    + destruct (mt_prefix _ _ _ M) as (Hne & r & E).
      rewrite (scan_match mt repl prev _ r m M E Hne). cbn [fst].
      destruct (le_lt_dec (length (mt_text m)) (length (x :: pre))) as [Hle | Hgt].
      * destruct (app_split_le _ _ _ _ E Hle) as (pre2 & Ep & Er).
        destruct (IH pre2 post (last_char prev (mt_text m))) as (p' & q' & Ho).
        { assert (length (x :: pre) = length (mt_text m) + length pre2)
            by (rewrite Ep; apply length_app).
          destruct (mt_text m); [congruence|]. simpl in *. lia. }
        rewrite Er, Ho. exists (repl m ++ p'), q'. now rewrite <- app_assoc.
      * destruct (app_split_gt _ _ _ _ E Hgt) as (w & Hw & Et & Ex).
        destruct (straddle prev (x :: pre) post m w r) as (u & b2 & EB & ER);
          auto; try discriminate.
        assert (Er : r = b2 ++ post).
        { rewrite EB, <- app_assoc in Ex. now apply app_inv_head in Ex. }
        rewrite Er, ER.
        rewrite (scan_block_tail w b2 post _ EB Hw).
        exists u, (fst (scan mt repl
                          (last_char (last_char prev (mt_text m)) b2) post 0)).
        rewrite EB. now rewrite <- !app_assoc.
    + change ((x :: pre) ++ B ++ post) with (x :: (pre ++ B ++ post)) in *.
      rewrite (scan_nomatch mt repl prev x _ M). cbn [fst].
      destruct (IH pre post (Some x)) as (p' & q' & Ho); [simpl in Hlen; lia|].
      rewrite Ho. exists (x :: p'), q'. reflexivity.
Qed.

End KeepBlock.

(** ** What the patterns of fix-assertions.py match *)

Section AssertionShapes.

Import FixAssertions.

Lemma sem_cat_cons (r : regex) (rs : list regex) (st st' : mstate) :
  sem (Cat (r :: rs)) st st' ->
  exists st1, sem r st st1 /\ sem (Cat rs) st1 st'.
Proof.
  destruct rs as [|r2 rs]; cbn [Cat]; intros H.
  - exists st'. split; [exact H | constructor].
  - apply sem_seq_inv in H. exact H.
Qed.

Lemma sem_cat_build (r : regex) (rs : list regex) (st st1 st' : mstate) :
  sem r st st1 -> sem (Cat rs) st1 st' -> sem (Cat (r :: rs)) st st'.
Proof.
  destruct rs as [|r2 rs]; cbn [Cat]; intros H1 H2.
  - inversion H2; subst. exact H1.
  - econstructor; eassumption.
Qed.

Lemma sem_cat_app (rs1 rs2 : list regex) :
  forall st st',
    sem (Cat (rs1 ++ rs2)) st st' ->
    exists st1, sem (Cat rs1) st st1 /\ sem (Cat rs2) st1 st'.
Proof.
  induction rs1 as [|r rs1 IH]; intros st st' H.
  - exists st. split; [constructor | exact H].
  - change ((r :: rs1) ++ rs2) with (r :: (rs1 ++ rs2)) in H.
    apply sem_cat_cons in H. destruct H as (s1 & H1 & H2).
    apply IH in H2. destruct H2 as (s2 & H2 & H3).
    exists s2. split; [|exact H3]. eapply sem_cat_build; eassumption.
Qed.

(** The part shared by the three patterns. *)
Lemma block_shape (st st1 : mstate) :
  sem (Cat assertion_block) st st1 ->
  exists T arr ws indent,
    m_rest st = assertion T arr ++ (ws ++ nl :: indent) ++ m_rest st1
    /\ T <> []
    /\ Forall (fun c => not_quote c = true) T
    /\ Forall (fun c => is_space c = true) ws
    /\ Forall (fun c => is_space c = true) indent
    /\ m_grp st1
       = (4, indent) :: (if arr then [(3, L "[]")] else [])
         ++ (2, T) :: (1, L ")") :: m_grp st.
Proof.
  unfold assertion_block. intros H.
  apply sem_cat_cons in H. destruct H as (s1 & H1 & H).
  apply sem_grp_inv in H1. destruct H1 as (s1' & H1 & R1 & _ & G1).
  apply sem_chr_inv in H1. destruct H1 as (E1 & G1' & _).
  apply sem_cat_cons in H. destruct H as (s2 & H2 & H).
  apply sem_lit in H2. destruct H2 as (E2 & G2 & _).
  apply sem_cat_cons in H. destruct H as (s3 & H3 & H).
  apply sem_grp_inv in H3. destruct H3 as (s3' & H3 & R3 & _ & G3).
  apply sem_plus_cls in H3. destruct H3 as (T & E3 & F3 & N3 & G3').
  apply sem_cat_cons in H. destruct H as (s4 & H4 & H).
  apply sem_lit in H4. destruct H4 as (E4 & G4 & _).
  apply sem_cat_cons in H. destruct H as (s5 & H5 & H).
  apply sem_cat_cons in H. destruct H as (s6 & H6 & H).
  apply sem_lit in H6. destruct H6 as (E6 & G6 & _).
  apply sem_cat_cons in H. destruct H as (s7 & H7 & H).
  apply sem_star_cls in H7. destruct H7 as (ws & E7 & F7 & G7).
  apply sem_cat_cons in H. destruct H as (s8 & H8 & H).
  apply sem_chr_inv in H8. destruct H8 as (E8 & G8 & _).
  apply sem_cat_cons in H. destruct H as (s9 & H9 & H).
  inversion H; subst; clear H.
  apply sem_grp_inv in H9. destruct H9 as (s9' & H9 & R9 & _ & G9).
  apply sem_star_cls in H9. destruct H9 as (indent & E9 & F9 & G9').
  assert (C1 : consumed st s1' = L ")") by (apply consumed_app; exact E1).
  assert (C3 : consumed s2 s3' = T) by (apply consumed_app; exact E3).
  assert (C9 : consumed s8 s9' = indent) by (apply consumed_app; exact E9).
  rewrite C1 in G1. rewrite C3 in G3. rewrite C9 in G9.
  assert (A : exists arr : bool,
             m_rest s4 = (if arr then L "[]" else []) ++ m_rest s5
             /\ m_grp s5 = (if arr then [(3, L "[]")] else []) ++ m_grp s4).
  { apply sem_opt_inv in H5. destruct H5 as [H5 | ->].
    - apply sem_grp_inv in H5. destruct H5 as (s5' & H5 & R5 & _ & G5).
      apply sem_lit in H5. destruct H5 as (E5 & G5' & _).
      assert (C5 : consumed s4 s5' = L "[]") by (apply consumed_app; exact E5).
      exists true. rewrite R5, G5, C5, G5'. auto.
    - exists false. auto. }
  destruct A as (arr & E5 & G5).
  exists T, arr, ws, indent.
  repeat split; auto.
  - unfold assertion.
    rewrite E1, <- R1, E2, E3, <- R3, E4, E5, E6, E7, E8, E9, <- R9.
    destruct arr; cbn [L list_ascii_of_string app];
      repeat (rewrite <- app_assoc; cbn [app]); reflexivity.
  - rewrite G9, G9', G8, G7, G6, G5, G4, G3, G3', G2, G1, G1'. reflexivity.
Qed.

Lemma group_after_block (arr : bool) (indent T : str) (g : groups) :
  group_lookup 2 ((4, indent) :: (if arr then [(3, L "[]")] else [])
                  ++ (2, T) :: (1, L ")") :: g) = Some T
  /\ group_lookup 1 ((4, indent) :: (if arr then [(3, L "[]")] else [])
                     ++ (2, T) :: (1, L ")") :: g) = Some (L ")")
  /\ group_lookup 4 ((4, indent) :: (if arr then [(3, L "[]")] else [])
                     ++ (2, T) :: (1, L ")") :: g) = Some indent.
Proof. destruct arr; repeat split; reflexivity. Qed.

End AssertionShapes.

(** ** Aligning a match with an assertion block *)

Section Alignment.

Import FixAssertions.

Lemma assertion_head (T : str) (arr : bool) :
  assertion T arr
  = L ") as { data: Row<" ++ quote :: T ++ quote :: ">"%char
      :: (if arr then L "[]" else []) ++ L " | null; error: any }".
Proof.
  unfold assertion. destruct arr; cbn [L list_ascii_of_string app];
    repeat (rewrite <- app_assoc; cbn [app]); reflexivity.
Qed.

Lemma table_char_facts (T : str) :
  Forall (fun c => table_char c = true) T ->
  Forall (fun c => not_quote c = true) T
  /\ ~ In ")"%char T
  /\ (forall c w, T = c :: w -> c <> ">"%char).
Proof.
  intros F. repeat split.
  - eapply Forall_impl; [|exact F]. intros c Hc. unfold table_char in Hc.
    apply negb_true_iff in Hc. rewrite !orb_false_iff in Hc.
    destruct Hc as [[Hq _] _]. unfold not_quote.
    apply Ascii.eqb_neq in Hq. apply negb_true_iff. apply Nat.eqb_neq.
    intros E. apply Hq. unfold code in E.
    rewrite <- (ascii_nat_embedding c), E. reflexivity.
  - apply (not_in_class table_char ")"%char T F). reflexivity.
  - intros c w -> ->. inversion F; subst. discriminate.
Qed.

Lemma align_assertion (T1 T X1 X : str) (a1 a : bool) :
  Forall (fun c => not_quote c = true) T1 ->
  Forall (fun c => not_quote c = true) T ->
  assertion T1 a1 ++ X1 = assertion T a ++ X ->
  T1 = T /\ a1 = a /\ X1 = X.
Proof.
  intros F1 F E. rewrite !assertion_head in E.
  cbn [L list_ascii_of_string app] in E.
  repeat rewrite <- app_assoc in E. cbn [app] in E.
  inversion E as [E']. clear E.
  apply (class_run_unique not_quote) in E'; auto.
  destruct E' as [-> E']. split; [reflexivity|].
  destruct a1, a; cbn [L list_ascii_of_string app] in E'; inversion E'; auto.
Qed.

Lemma align_gap (g1 g Y1 Y : str) :
  Forall (fun c => is_space c = true) g1 ->
  Forall (fun c => is_space c = true) g ->
  g1 ++ "."%char :: Y1 = g ++ "."%char :: Y ->
  g1 = g /\ Y1 = Y.
Proof.
  intros F1 F E. apply (class_run_unique is_space) in E; auto.
  destruct E as [-> E]. inversion E; auto.
Qed.

Lemma align_name (n1 n Y1 Y : str) :
  Forall (fun c => is_lower_us c = true) n1 ->
  Forall (fun c => is_lower_us c = true) n ->
  n1 ++ "("%char :: Y1 = n ++ "("%char :: Y ->
  n1 = n /\ Y1 = Y.
Proof.
  intros F1 F E. apply (class_run_unique is_lower_us) in E; auto.
  destruct E as [-> E]. inversion E; auto.
Qed.

Lemma first_split (c : ascii) (w : str) :
  In c w -> exists w1 w2, w = w1 ++ c :: w2 /\ ~ In c w1.
Proof.
  induction w as [|x w IH]; intros I; [destruct I|].
  destruct (ascii_dec x c) as [-> | N].
  - exists [], w. split; [reflexivity | intros []].
  - destruct I as [E | I]; [congruence|].
    destruct (IH I) as (w1 & w2 & -> & Hn).
    exists (x :: w1), w2. split; [reflexivity|].
    intros [E | I']; [congruence | exact (Hn I')].
Qed.

Lemma last_app_nonempty (a w : str) (d : ascii) :
  w <> [] -> last (a ++ w) d = last w d.
Proof.
  intros H. induction a as [|x a IH]; [reflexivity|].
  cbn [app]. destruct (a ++ w) eqn:E.
  - destruct a; [simpl in E; congruence | discriminate].
  - rewrite <- IH. reflexivity.
Qed.

Lemma last_in (w : str) (d : ascii) : w <> [] -> In (last w d) w.
Proof.
  induction w as [|x [|y w] IH]; intros H; [congruence | left; reflexivity |].
  right. apply IH. discriminate.
Qed.

Lemma no_quote_in (w : str) :
  Forall (fun c => not_quote c = true) w -> ~ In quote w.
Proof. intros F. apply (not_in_class not_quote quote w F). reflexivity. Qed.

(** A text that ends with [stop], a character that does not occur before
    the first quote of an assertion, and that starts before an assertion
    block and reaches into it, holds a quote behind the table name with
    which it starts. *)
Lemma straddle_quote (T1 M3 pre w r T R : str) (stop : ascii) :
  Forall (fun c => not_quote c = true) T1 ->
  Forall (fun c => not_quote c = true) T ->
  (forall c t, T = c :: t -> c <> ">"%char) -> T <> [] ->
  pre <> [] -> w <> [] ->
  ~ In stop (L ") as { data: Row<") ->
  (exists M3', M3 = ">"%char :: M3' /\ last (">"%char :: M3') stop = stop) ->
  pre ++ w = L ") as { data: Row<" ++ quote :: T1 ++ quote :: M3 ->
  w ++ r = L ") as { data: Row<" ++ quote :: T ++ quote :: R ->
  exists a3 w2,
    M3 = a3 ++ quote :: w2
    /\ w = L ") as { data: Row<" ++ quote :: w2
    /\ w2 ++ r = T ++ quote :: R.
Proof.
  intros F1 F Hgt Tne Hpre Hw Hstop (M3' & EM3 & Hlast) EM EB.
  assert (H0q : ~ In quote (L ") as { data: Row<")).
  { simpl. intros I. repeat (destruct I as [I | I]; [discriminate I|]). exact I. }
  destruct (in_dec ascii_dec quote w) as [Iq | Nq].
  - destruct (first_split quote w Iq) as (w1 & w2 & Ew & Nw1).
    rewrite Ew, <- app_assoc in EB. cbn [app] in EB.
    destruct (sep_split quote (L ") as { data: Row<") w1 (w2 ++ r)
                (T ++ quote :: R) EB H0q) as [[E1 E2] | (a2 & E1 & _)].
    2:{ exfalso. apply Nw1. rewrite E1. apply in_or_app. right. left. reflexivity. }
    subst w1.
    rewrite Ew, app_assoc in EM.
    destruct (sep_split quote (L ") as { data: Row<")
                (pre ++ L ") as { data: Row<") w2 (T1 ++ quote :: M3) EM H0q)
      as [[E3 _] | (a2 & E3 & E4)].
    { exfalso. apply (f_equal (@length ascii)) in E3. rewrite length_app in E3.
      destruct pre; [congruence | simpl in E3; lia]. }
    symmetry in E4.
    destruct (sep_split quote T1 a2 w2 M3 E4 (no_quote_in T1 F1))
      as [[E5 E6] | (a3 & E5 & E6)].
    + exfalso. subst w2. rewrite EM3 in E2.
      destruct T as [|c t]; [congruence|]. cbn [app] in E2. inversion E2.
      apply (Hgt c t eq_refl). congruence.
    + exists a3, w2. repeat split; auto.
  - exfalso.
    destruct (prefix_before quote w (L ") as { data: Row<") r (T ++ quote :: R) EB Nq)
      as (a2 & Ea & _).
    apply Hstop. rewrite Ea. apply in_or_app. left.
    assert (L1 : last (pre ++ w) stop = stop).
    { rewrite EM, EM3.
      change (L ") as { data: Row<" ++ quote :: T1 ++ quote :: ">"%char :: M3')
        with ((L ") as { data: Row<" ++ [quote]) ++ (T1 ++ quote :: ">"%char :: M3')).
      rewrite last_app_nonempty by (destruct T1; discriminate).
      change (T1 ++ quote :: ">"%char :: M3')
        with (T1 ++ [quote] ++ (">"%char :: M3')).
      rewrite app_assoc, last_app_nonempty by discriminate. exact Hlast. }
    rewrite last_app_nonempty in L1 by exact Hw.
    rewrite <- L1. apply last_in. exact Hw.
Qed.

End Alignment.

(** ** The three patterns against an assertion block *)

(** Case analysis on the membership of a character in a text built from
    literals, appended parts and an optional part. *)
Ltac in_cases I :=
  lazymatch type of I with
  | In _ [] => destruct I
  | In _ (_ :: _) =>
      let J := fresh "I" in
      destruct I as [J | J]; [try discriminate J | in_cases J]
  | In _ (_ ++ _) =>
      let J := fresh "I" in
      apply in_app_or in I; destruct I as [J | J]; [in_cases J | in_cases J]
  | In _ (if ?a then _ else _) => destruct a; in_cases I
  | _ => idtac
  end.

Ltac absurd_in :=
  match goal with
  | N : ~ In ?c ?l, I : In ?c ?l |- _ => exact (N I)
  end.

Section BlockMatches.

Import FixAssertions.

Lemma chained_form (T : str) (arr : bool) (gap name : str) :
  chained T arr gap name = form T arr gap (name ++ ["("%char]).
Proof. reflexivity. Qed.

Lemma form_align (T1 T g1 g tl1 tl r t : str) (a1 a : bool) :
  Forall (fun c => not_quote c = true) T1 ->
  Forall (fun c => not_quote c = true) T ->
  Forall (fun c => is_space c = true) g1 ->
  Forall (fun c => is_space c = true) g ->
  form T1 a1 g1 tl1 ++ r = form T a g tl ++ t ->
  T1 = T /\ a1 = a /\ g1 = g /\ tl1 ++ r = tl ++ t.
Proof.
  intros F1 F G1 G E. unfold form in E.
  rewrite <- !app_assoc in E.
  apply align_assertion in E; auto. destruct E as (-> & -> & E).
  cbn [app] in E.
  apply align_gap in E; auto.
Qed.

Lemma form_quotes (T : str) (arr : bool) (gap tl : str) :
  form T arr gap tl
  = L ") as { data: Row<" ++ quote :: T ++ quote :: ">"%char
      :: ((if arr then L "[]" else []) ++ L " | null; error: any }"
          ++ gap ++ "."%char :: tl).
Proof.
  unfold form. rewrite assertion_head.
  destruct arr; cbn [L list_ascii_of_string app];
    repeat (rewrite <- app_assoc; cbn [app]); reflexivity.
Qed.

Lemma form_starts (T : str) (arr : bool) (gap tl : str) :
  exists x, form T arr gap tl = ")"%char :: x.
Proof. rewrite form_quotes. eexists. reflexivity. Qed.

Variables (T gap name : str) (arr : bool).
Hypothesis T_name : table_name T.
Hypothesis gap_space : Forall (fun c => is_space c = true) gap.
Hypothesis name_method : method_name name.

Let B : str := chained T arr gap name.

Lemma block_paren : exists B', B = ")"%char :: B' /\ ~ In ")"%char B'.
Proof.
  unfold B. rewrite chained_form, form_quotes.
  eexists. split; [reflexivity|].
  destruct T_name as [_ FT]. destruct (table_char_facts T FT) as (_ & NT & _).
  destruct name_method as [_ Fn].
  assert (Ng : ~ In ")"%char gap)
    by (apply (not_in_class is_space ")"%char gap gap_space); reflexivity).
  assert (Nn : ~ In ")"%char name)
    by (apply (not_in_class is_lower_us ")"%char name Fn); reflexivity).
  cbn [L list_ascii_of_string app].
  intros I. in_cases I; absurd_in.
Qed.

(** No match of a pattern that begins with a closing parenthesis starts
    inside the block. *)
Lemma nothing_inside (mt : matcher) :
  (forall prev s m, mt prev s = Some m ->
                    exists x r, s = (")"%char :: x) ++ r) ->
  forall prev b1 b2 t,
    B = b1 ++ b2 -> b1 <> [] -> b2 <> [] -> mt prev (b2 ++ t) = None.
Proof.
  intros Hp prev b1 b2 t E H1 H2.
  destruct (mt prev (b2 ++ t)) as [m|] eqn:M; [|reflexivity].
  exfalso. destruct (Hp _ _ _ M) as (x & r & Es).
  destruct block_paren as (B' & EB & NB).
  destruct b1 as [|c b1]; [congruence|].
  destruct b2 as [|d b2]; [congruence|].
  cbn [app] in Es. inversion Es; subst d.
  rewrite EB in E. cbn [app] in E. inversion E; subst.
  apply NB. apply in_or_app. right. left. reflexivity.
Qed.

(** A match whose tail holds no quote and ends with an opening parenthesis
    cannot start before the block and reach into it. *)
Lemma no_straddle (T1 g1 tl pre w r t : str) (a1 : bool) :
  Forall (fun c => not_quote c = true) T1 ->
  Forall (fun c => is_space c = true) g1 ->
  Forall (fun c => not_quote c = true) tl ->
  pre <> [] -> w <> [] ->
  pre ++ w = form T1 a1 g1 (tl ++ ["("%char]) ->
  B ++ t = w ++ r ->
  False.
Proof.
  intros F1 G1 Ftl Hpre Hw EM EB.
  destruct T_name as [Tne FT].
  destruct (table_char_facts T FT) as (FTq & _ & Hgt).
  unfold B in EB. rewrite chained_form, form_quotes in EB.
  rewrite form_quotes in EM.
  rewrite <- !app_assoc in EB. cbn [app] in EB. rewrite <- !app_assoc in EB.
  cbn [app] in EB.
  assert (Hstop : ~ In "("%char (L ") as { data: Row<")).
  { cbn [L list_ascii_of_string]. intros I. in_cases I. }
  match type of EM with
  | _ = _ ++ _ :: _ ++ _ :: ?M3 =>
      match type of EB with
      | _ ++ _ :: _ ++ _ :: ?R = _ =>
          assert (Hl : exists M3', M3 = ">"%char :: M3'
                                   /\ last (">"%char :: M3') "("%char = "("%char)
            by (eexists; split; [reflexivity|];
                rewrite !app_comm_cons, !app_assoc; apply last_last);
          destruct (straddle_quote T1 M3 pre w r T R "("%char F1 FTq Hgt Tne
                      Hpre Hw Hstop Hl EM (eq_sym EB)) as (a3 & w2 & E3 & _)
      end
  end.
  assert (Nq : ~ In quote
                 (">"%char :: (if a1 then L "[]" else [])
                  ++ L " | null; error: any }" ++ g1
                  ++ "."%char :: tl ++ ["("%char])).
  { pose proof (no_quote_in tl Ftl) as Ntl.
    assert (Ng1 : ~ In quote g1)
      by (apply (not_in_class is_space quote g1 G1); reflexivity).
    cbn [L list_ascii_of_string app].
    intros I. in_cases I; absurd_in. }
  apply Nq. rewrite E3. apply in_or_app. right. left. reflexivity.
Qed.

End BlockMatches.

Section PatternShapes.

Import FixAssertions.

Lemma spaces_gap (ws indent : str) :
  Forall (fun c => is_space c = true) ws ->
  Forall (fun c => is_space c = true) indent ->
  Forall (fun c => is_space c = true) (ws ++ nl :: indent).
Proof.
  intros F1 F2. apply Forall_app. split; [exact F1|].
  constructor; [reflexivity | exact F2].
Qed.

Lemma form_app (T : str) (arr : bool) (gap tl rest : str) :
  form T arr gap tl ++ rest = assertion T arr ++ gap ++ "."%char :: tl ++ rest.
Proof. unfold form. now rewrite <- !app_assoc. Qed.

Lemma pattern2_shape (method : str) (prev : option ascii) (s : str)
    (m : rmatch) :
  match_at (pattern2 method) prev s = Some m ->
  exists T1 a1 g1 r,
    s = mt_text m ++ r
    /\ mt_text m = form T1 a1 g1 (method ++ ["("%char])
    /\ T1 <> []
    /\ Forall (fun c => not_quote c = true) T1
    /\ Forall (fun c => is_space c = true) g1.
Proof.
  intros H. apply match_at_sound in H. destruct H as (st' & S & E & _).
  unfold pattern2 in S. apply sem_cat_app in S. destruct S as (st1 & Sb & St).
  apply block_shape in Sb.
  destruct Sb as (T1 & a1 & ws & indent & Eb & N & F & Fw & Fi & _).
  cbn [Cat] in St.
  apply sem_seq_inv in St. destruct St as (s1 & H1 & St).
  apply sem_chr_inv in H1. destruct H1 as (E1 & _ & _).
  apply sem_seq_inv in St. destruct St as (s2 & H2 & H3).
  apply sem_lit in H2. destruct H2 as (E2 & _ & _).
  apply sem_chr_inv in H3. destruct H3 as (E3 & _ & _).
  cbn [m_rest] in Eb. rewrite E1, E2, E3 in Eb.
  exists T1, a1, (ws ++ nl :: indent), (m_rest st').
  split; [exact E|]. split; [|auto using spaces_gap].
  apply (app_inv_tail (m_rest st')). rewrite <- E, Eb, form_app.
  now rewrite <- !app_assoc.
Qed.

Lemma pattern3_shape (prev : option ascii) (s : str) (m : rmatch) :
  match_at pattern3 prev s = Some m ->
  exists T1 a1 g1 n r,
    s = mt_text m ++ r
    /\ mt_text m = form T1 a1 g1 (n ++ ["("%char])
    /\ T1 <> []
    /\ Forall (fun c => not_quote c = true) T1
    /\ Forall (fun c => is_space c = true) g1
    /\ Forall (fun c => is_lower_us c = true) n
    /\ expand m 5 = "."%char :: n ++ ["("%char].
Proof.
  intros H. apply match_at_sound in H. destruct H as (st' & S & E & G).
  unfold pattern3 in S. apply sem_cat_app in S. destruct S as (st1 & Sb & St).
  apply block_shape in Sb.
  destruct Sb as (T1 & a1 & ws & indent & Eb & N & F & Fw & Fi & _).
  cbn [Cat] in St.
  apply sem_grp_inv in St. destruct St as (s0 & St & R0 & _ & G0).
  apply sem_seq_inv in St. destruct St as (s1 & H1 & St).
  apply sem_chr_inv in H1. destruct H1 as (E1 & _ & _).
  apply sem_seq_inv in St. destruct St as (s2 & H2 & H3).
  apply sem_plus_cls in H2. destruct H2 as (n & E2 & Fn & _ & _).
  apply sem_chr_inv in H3. destruct H3 as (E3 & _ & _).
  assert (C : consumed st1 s0 = "."%char :: n ++ ["("%char]).
  { apply consumed_app. rewrite E1, E2, E3. cbn [app].
    now rewrite <- app_assoc. }
  cbn [m_rest] in Eb. rewrite E1, E2, E3, <- R0 in Eb.
  exists T1, a1, (ws ++ nl :: indent), n, (m_rest st').
  split; [exact E|]. split; [|repeat split; auto using spaces_gap].
  - apply (app_inv_tail (m_rest st')). rewrite <- E, Eb, form_app.
    now rewrite <- !app_assoc.
  - unfold expand, group. rewrite G, G0, C. cbn [group_lookup Nat.eqb].
    reflexivity.
Qed.

Lemma pattern1_shape (prev : option ascii) (s : str) (m : rmatch) :
  match_at pattern1 prev s = Some m ->
  exists T1 a1 g1 indent r,
    s = mt_text m ++ r
    /\ mt_text m
       = form T1 a1 g1
           (L "single() as { data: Row<'" ++ T1 ++ L "'> | null; error: any }")
    /\ T1 <> []
    /\ Forall (fun c => not_quote c = true) T1
    /\ Forall (fun c => is_space c = true) g1
    /\ replacement1 m
       = L ")" ++ [nl] ++ indent ++ L ".single("
         ++ assertion T1 false.
Proof.
  intros H. apply match_at_sound in H. destruct H as (st' & S & E & G).
  unfold pattern1 in S. apply sem_cat_app in S. destruct S as (st1 & Sb & St).
  apply block_shape in Sb.
  destruct Sb as (T1 & a1 & ws & indent & Eb & N & F & Fw & Fi & Gb).
  destruct (group_after_block a1 indent T1 []) as (L2 & L1 & L4).
  cbn [m_grp] in Gb.
  cbn [Cat] in St.
  apply sem_seq_inv in St. destruct St as (s1 & H1 & St).
  apply sem_lit in H1. destruct H1 as (E1 & G1 & _).
  apply sem_seq_inv in St. destruct St as (s2 & H2 & H3).
  apply sem_bref_inv in H2. destruct H2 as (w & Lw & E2 & G2).
  apply sem_lit in H3. destruct H3 as (E3 & G3 & _).
  rewrite G1, Gb in Lw.
  assert (Ew : Some w = Some T1) by exact (eq_trans (eq_sym Lw) L2).
  inversion Ew; subst w.
  cbn [m_rest] in Eb. rewrite E1, E2, E3 in Eb.
  exists T1, a1, (ws ++ nl :: indent), indent, (m_rest st').
  split; [exact E|]. split; [|repeat split; auto using spaces_gap].
  - apply (app_inv_tail (m_rest st')). rewrite <- E, Eb, form_app.
    cbn [L list_ascii_of_string app].
    repeat (rewrite <- app_assoc; cbn [app]). reflexivity.
  - unfold replacement1, expand, group.
    rewrite G, G3, G2, G1, Gb.
    unfold assertion.
    destruct a1; cbn [group_lookup Nat.eqb L list_ascii_of_string app];
      repeat (rewrite <- app_assoc; cbn [app]); reflexivity.
Qed.

End PatternShapes.

(** ** The passes of fix-assertions.py keep a block outside the allow-list *)

Section AllowList.

Import FixAssertions.

Variables (T gap name : str) (arr : bool).
Hypothesis T_name : table_name T.
Hypothesis gap_space : Forall (fun c => is_space c = true) gap.
Hypothesis name_method : method_name name.
Hypothesis name_other : ~ In name (L "single" :: methods).

Let B : str := chained T arr gap name.

Let has_block : str -> Prop := contains B.

Lemma lower_us_not_quote (w : str) :
  Forall (fun c => is_lower_us c = true) w ->
  Forall (fun c => not_quote c = true) w.
Proof.
  apply Forall_impl. intros c Hc.
  destruct (not_quote c) eqn:Q; [reflexivity|].
  unfold not_quote in Q. apply negb_false_iff, Nat.eqb_eq in Q.
  unfold is_lower_us, between in Hc. rewrite Q in Hc. discriminate.
Qed.

Lemma methods_lower :
  Forall (fun m => Forall (fun c => is_lower_us c = true) m) methods.
Proof. unfold methods. repeat constructor. Qed.

Lemma T_quote_free : Forall (fun c => not_quote c = true) T.
Proof. destruct T_name as [_ F]. apply (table_char_facts T F). Qed.

(** A tail that starts with a method name other than [name] does not line
    up with the block. *)
Lemma tail_mismatch (T1 g1 n1 x r t : str) (a1 : bool) :
  Forall (fun c => not_quote c = true) T1 ->
  Forall (fun c => is_space c = true) g1 ->
  Forall (fun c => is_lower_us c = true) n1 ->
  form T1 a1 g1 (n1 ++ "("%char :: x) ++ r = B ++ t ->
  n1 = name /\ T1 = T /\ a1 = arr /\ g1 = gap /\ x ++ r = t.
Proof.
  intros F1 G1 Fn E. unfold B in E. rewrite chained_form in E.
  apply form_align in E; auto using T_quote_free.
  destruct E as (-> & -> & -> & E).
  rewrite <- !app_assoc in E. cbn [app] in E.
  destruct name_method as [_ Fname].
  apply align_name in E; auto. tauto.
Qed.

Lemma starts_paren (mt : matcher) :
  (forall prev s m, mt prev s = Some m ->
     exists T1 a1 g1 tl r, s = mt_text m ++ r /\ mt_text m = form T1 a1 g1 tl) ->
  (forall prev s m, mt prev s = Some m ->
     mt_text m <> [] /\ exists rest, s = mt_text m ++ rest)
  /\ (forall prev s m, mt prev s = Some m ->
        exists x r, s = (")"%char :: x) ++ r).
Proof.
  intros H. split; intros prev s m M;
    destruct (H _ _ _ M) as (T1 & a1 & g1 & tl & r & Es & Et);
    destruct (form_starts T1 a1 g1 tl) as [x Ex].
  - split; [rewrite Et, Ex; discriminate | eauto].
  - exists x, r. rewrite <- Ex, <- Et. exact Es.
Qed.

Lemma pass2_keeps (method : str) (content : str) :
  In method methods ->
  has_block content ->
  has_block (fst (subn (pattern2 method) (replacement2 method) content)).
Proof.
  intros Hin (pre & post & ->).
  assert (Fm : Forall (fun c => is_lower_us c = true) method).
  { pose proof methods_lower as F. rewrite Forall_forall in F. auto. }
  destruct (starts_paren (match_at (pattern2 method))) as [Hpre Hparen].
  { intros prev s m M.
    destruct (pattern2_shape _ _ _ _ M) as (T1 & a1 & g1 & r & Es & Et & _).
    eauto 8. }
  unfold subn.
  apply (scan_keeps_block (match_at (pattern2 method)) (replacement2 method) B
           Hpre
           (nothing_inside T gap name arr T_name gap_space name_method _ Hparen))
    with (n := length pre); [| |lia].
  - intros prev t m M. exfalso.
    destruct (pattern2_shape _ _ _ _ M) as (T1 & a1 & g1 & r & Es & Et & _ & F1 & G1).
    rewrite Et in Es. symmetry in Es.
    destruct (tail_mismatch T1 g1 method [] r t a1 F1 G1 Fm Es) as (En & _).
    apply name_other. right. rewrite <- En. exact Hin.
  - intros prev p t m w r Hp Hw M Et Eb. exfalso.
    destruct (pattern2_shape _ _ _ _ M) as (T1 & a1 & g1 & r' & _ & Et' & _ & F1 & G1).
    rewrite Et in Et'.
    exact (no_straddle T gap name arr T_name
             T1 g1 method p w r t a1 F1 G1 (lower_us_not_quote _ Fm) Hp Hw Et' Eb).
Qed.

Lemma other_methods_map :
  other_methods = map (fun m => "."%char :: m ++ ["("%char]) methods.
Proof. reflexivity. Qed.

(** On a call outside the allow-list the catch-all keeps the match. *)
Lemma check_keeps (m : rmatch) :
  expand m 5 = "."%char :: name ++ ["("%char] ->
  check_and_replace m = mt_text m.
Proof.
  intros E5. unfold check_and_replace. rewrite E5.
  destruct name_method as [_ Fname].
  assert (N1 : str_eqb ("."%char :: name ++ ["("%char]) (L ".single(") = false).
  { apply str_eqb_neq. intros E. apply name_other. left.
    cbn [L list_ascii_of_string] in E. inversion E as [E'].
    change ["s"; "i"; "n"; "g"; "l"; "e"; "("]%char
      with (L "single" ++ ["("%char]) in E'.
    apply app_inj_tail in E'. symmetry. tauto. }
  rewrite N1. cbn [andb].
  destruct (existsb (startswith ("."%char :: name ++ ["("%char])) other_methods)
    eqn:X; [|reflexivity].
  exfalso. apply existsb_exists in X. destruct X as (om & Hom & Hs).
  rewrite other_methods_map in Hom. apply in_map_iff in Hom.
  destruct Hom as (method & <- & Hin).
  apply startswith_app in Hs. destruct Hs as [x Hx].
  cbn [app] in Hx. inversion Hx as [Hx'].
  rewrite <- app_assoc in Hx'. cbn [app] in Hx'.
  pose proof methods_lower as F. rewrite Forall_forall in F.
  apply align_name in Hx'; auto.
  apply name_other. right. destruct Hx' as [-> _]. exact Hin.
Qed.

Lemma pass3_keeps (content : str) :
  has_block content ->
  has_block (fst (subn pattern3 check_and_replace content)).
Proof.
  intros (pre & post & ->).
  destruct (starts_paren (match_at pattern3)) as [Hpre Hparen].
  { intros prev s m M.
    destruct (pattern3_shape _ _ _ M) as (T1 & a1 & g1 & n & r & Es & Et & _).
    eauto 8. }
  unfold subn.
  apply (scan_keeps_block (match_at pattern3) check_and_replace B Hpre
           (nothing_inside T gap name arr T_name gap_space name_method _ Hparen))
    with (n := length pre); [| |lia].
  - intros prev t m M.
    destruct (pattern3_shape _ _ _ M)
      as (T1 & a1 & g1 & n & r & Es & Et & _ & F1 & G1 & Fn & E5).
    rewrite Et in Es. symmetry in Es.
    destruct (tail_mismatch T1 g1 n [] r t a1 F1 G1 Fn Es)
      as (-> & -> & -> & -> & _).
    assert (Tx : mt_text m = B) by (rewrite Et; reflexivity).
    split; [exact Tx|]. rewrite <- Tx. apply check_keeps. exact E5.
  - intros prev p t m w r Hp Hw M Et Eb. exfalso.
    destruct (pattern3_shape _ _ _ M)
      as (T1 & a1 & g1 & n & r' & _ & Et' & _ & F1 & G1 & Fn & _).
    rewrite Et in Et'.
    exact (no_straddle T gap name arr T_name
             T1 g1 n p w r t a1 F1 G1 (lower_us_not_quote _ Fn) Hp Hw Et' Eb).
Qed.

(** The one way in which a match of the first pattern reaches into the
    block: its [.single()] assertion is the assertion of the block, which
    the replacement writes again. *)
Lemma single_straddle (T1 g1 pre w r t : str) (a1 : bool) :
  Forall (fun c => not_quote c = true) T1 ->
  Forall (fun c => is_space c = true) g1 ->
  pre <> [] -> w <> [] ->
  pre ++ w
    = form T1 a1 g1
        (L "single() as { data: Row<'" ++ T1 ++ L "'> | null; error: any }") ->
  B ++ t = w ++ r ->
  T1 = T /\ w = assertion T false /\ exists b2, B = w ++ b2.
Proof.
  intros F1 G1 Hpre Hw EM EB.
  destruct T_name as [Tne FT].
  destruct (table_char_facts T FT) as (FTq & _ & Hgt).
  unfold B in EB. rewrite chained_form, form_quotes in EB.
  rewrite form_quotes in EM.
  rewrite <- !app_assoc in EB. cbn [app] in EB. rewrite <- !app_assoc in EB.
  cbn [app] in EB.
  assert (Hstop : ~ In "}"%char (L ") as { data: Row<")).
  { cbn [L list_ascii_of_string]. intros I. in_cases I. }
  pose proof (no_quote_in T1 F1) as NT1.
  assert (Ng1 : ~ In quote g1)
    by (apply (not_in_class is_space quote g1 G1); reflexivity).
  match type of EM with
  | _ = _ ++ _ :: _ ++ _ :: ?M3 =>
      match type of EB with
      | _ ++ _ :: _ ++ _ :: ?R = _ =>
          assert (Hl : exists M3', M3 = ">"%char :: M3'
                                   /\ last (">"%char :: M3') "}"%char = "}"%char);
          [ eexists; split; [reflexivity|];
            rewrite !app_comm_cons, !app_assoc;
            rewrite last_app_nonempty by discriminate; reflexivity
          | destruct (straddle_quote T1 M3 pre w r T R "}"%char F1 FTq Hgt Tne
                        Hpre Hw Hstop Hl EM (eq_sym EB))
              as (a3 & w2 & E3 & Ew & E2) ]
      end
  end.
  assert (E3' : a3 ++ quote :: w2
                = (">"%char :: (if a1 then L "[]" else [])
                   ++ L " | null; error: any }" ++ g1
                   ++ L ".single() as { data: Row<")
                  ++ quote :: T1 ++ quote :: L "> | null; error: any }").
  { rewrite <- E3. destruct a1; cbn [L list_ascii_of_string app];
      repeat (rewrite <- app_assoc; cbn [app]); reflexivity. }
  clear E3.
  assert (Nb : ~ In quote (L "> | null; error: any }")).
  { cbn [L list_ascii_of_string]. intros I. in_cases I. }
  apply sep_split in E3'.
  2:{ cbn [L list_ascii_of_string app]. intros I. in_cases I; absurd_in. }
  destruct E3' as [[_ E4] | (a4 & _ & E4)].
  - (* the quote of the block is the third quote of the match *)
    subst w2. rewrite <- app_assoc in E2. cbn [app] in E2.
    apply (class_run_unique not_quote) in E2; auto.
    destruct E2 as [-> E2]. split; [reflexivity|].
    assert (Ea : arr = false).
    { destruct arr; [|reflexivity].
      cbn [L list_ascii_of_string app] in E2. inversion E2. }
    split.
    + rewrite Ew, assertion_head. reflexivity.
    + exists (gap ++ "."%char :: name ++ ["("%char]).
      rewrite Ew. unfold B. rewrite chained_form, form_quotes, Ea.
      cbn [L list_ascii_of_string app].
      repeat (rewrite <- app_assoc; cbn [app]). reflexivity.
  - exfalso. symmetry in E4. apply sep_split in E4; [|exact NT1].
    destruct E4 as [[_ E5] | (a5 & _ & E5)].
    + subst w2. destruct T as [|c t0]; [congruence|].
      cbn [L list_ascii_of_string app] in E2. inversion E2.
      apply (Hgt c t0 eq_refl). congruence.
    + apply Nb. rewrite E5. apply in_or_app. right. left. reflexivity.
Qed.

Lemma pass1_keeps (content : str) :
  has_block content ->
  has_block (fst (subn pattern1 replacement1 content)).
Proof.
  intros (pre & post & ->).
  destruct (starts_paren (match_at pattern1)) as [Hpre Hparen].
  { intros prev s m M.
    destruct (pattern1_shape _ _ _ M) as (T1 & a1 & g1 & ind & r & Es & Et & _).
    eauto 8. }
  unfold subn.
  apply (scan_keeps_block (match_at pattern1) replacement1 B Hpre
           (nothing_inside T gap name arr T_name gap_space name_method _ Hparen))
    with (n := length pre); [| |lia].
  - intros prev t m M. exfalso.
    destruct (pattern1_shape _ _ _ M)
      as (T1 & a1 & g1 & ind & r & Es & Et & _ & F1 & G1 & _).
    rewrite Et in Es. symmetry in Es.
    change (L "single() as { data: Row<'" ++ T1 ++ L "'> | null; error: any }")
      with (L "single" ++ "("%char
            :: (L ") as { data: Row<'" ++ T1 ++ L "'> | null; error: any }"))
      in Es.
    assert (Fs : Forall (fun c => is_lower_us c = true) (L "single"))
      by (repeat constructor).
    destruct (tail_mismatch T1 g1 (L "single")
                (L ") as { data: Row<'" ++ T1 ++ L "'> | null; error: any }")
                r t a1 F1 G1 Fs Es) as (En & _).
    apply name_other. left. exact En.
  - intros prev p t m w r Hp Hw M Et Eb.
    destruct (pattern1_shape _ _ _ M)
      as (T1 & a1 & g1 & ind & r' & _ & Et' & _ & F1 & G1 & Er).
    rewrite Et in Et'.
    destruct (single_straddle T1 g1 p w r t a1 F1 G1 Hp Hw Et' Eb)
      as (-> & Ew & b2 & EB).
    exists (L ")" ++ [nl] ++ ind ++ L ".single("), b2.
    split; [exact EB|]. rewrite Er, Ew. now rewrite <- !app_assoc.
Qed.

Lemma passes2_keep (ms : list str) :
  (forall m, In m ms -> In m methods) ->
  forall content,
    has_block content ->
    has_block
      (fold_left (fun c m => fst (subn (pattern2 m) (replacement2 m) c))
                 ms content).
Proof.
  induction ms as [|m ms IH]; intros Hin content H; cbn [fold_left].
  - exact H.
  - apply IH.
    + intros m' Hm'. apply Hin. right; exact Hm'.
    + apply pass2_keeps; [apply Hin; left; reflexivity | exact H].
Qed.

End AllowList.

(** The content computed by [rewrite], pass by pass. *)
Lemma rewrite_content (content : str) :
  fst (FixAssertions.rewrite content)
  = fst (subn FixAssertions.pattern3 FixAssertions.check_and_replace
           (fold_left
              (fun c m => fst (subn (FixAssertions.pattern2 m)
                                    (FixAssertions.replacement2 m) c))
              FixAssertions.methods
              (fst (subn FixAssertions.pattern1 FixAssertions.replacement1
                         content)))).
Proof.
  unfold FixAssertions.rewrite.
  destruct (subn FixAssertions.pattern1 FixAssertions.replacement1 content)
    as [c1 n1].
  cbn [fst].
  generalize (0 + n1). generalize FixAssertions.methods. intros ms.
  revert c1. induction ms as [|m ms IH]; intros c1 n; cbn [fold_left fst snd].
  - destruct (subn FixAssertions.pattern3 FixAssertions.check_and_replace c1).
    reflexivity.
  - destruct (subn (FixAssertions.pattern2 m) (FixAssertions.replacement2 m) c1)
      as [c2 n2]. cbn [fst]. apply IH.
Qed.

(** ** No pattern of the scripts matches the empty string *)

Lemma import_match_nonempty (prev : option ascii) (s : str) (m : rmatch) :
  match_at FixFinalImports.pattern1 prev s = Some m ->
  exists ws,
    mt_text m
    = L "import {" ++ ws ++ nl :: FixFinalImports.row_import
    /\ Forall (fun c => is_space c = true) ws.
Proof.
  intros H. apply match_at_sound in H. destruct H as (st' & S & E & _).
  unfold FixFinalImports.pattern1 in S. cbn [Cat] in S.
  apply sem_seq_inv in S. destruct S as (s1 & S1 & S).
  apply sem_lit in S1. destruct S1 as (E1 & _ & _).
  apply sem_seq_inv in S. destruct S as (s2 & S2 & S).
  apply sem_star_cls in S2. destruct S2 as (ws & E2 & F2 & _).
  apply sem_seq_inv in S. destruct S as (s3 & S3 & S4).
  apply sem_chr_inv in S3. destruct S3 as (E3 & _ & _).
  apply sem_lit in S4. destruct S4 as (E4 & _ & _).
  cbn [m_rest] in E1. rewrite E2, E3, E4 in E1.
  exists ws. split; [|exact F2].
  apply (app_inv_tail (m_rest st')). rewrite <- E, E1.
  repeat (rewrite <- app_assoc; cbn [app]). reflexivity.
Qed.

(** ** Claims *)

(** C1. On the line [items.map(x => x.id)] with a diagnostic for [x], the
    script produces [items.map(x: any => x.id)]: the first substitution
    takes the parenthesis of the call for the parenthesis of the parameter,
    so the parameter is annotated without being parenthesized, and the
    second substitution finds nothing left to rewrite.  The parenthesized
    form [items.map((x) => x.id)] is matched by neither substitution and
    stays as it is.  Neither result is the well-parenthesized
    [items.map((x: any) => x.id)]. *)
Theorem callback_annotation_output :
  FixTs18046.fix_line (L "x") (L "items.map(x => x.id)") false
    = (L "items.map(x: any => x.id)", true)
  /\ FixTs18046.fix_line (L "x") (L "items.map((x) => x.id)") false
    = (L "items.map((x) => x.id)", true)
  /\ L "items.map(x: any => x.id)" <> L "items.map((x: any) => x.id)"
  /\ L "items.map((x) => x.id)" <> L "items.map((x: any) => x.id)".
Proof.
  repeat split; try (vm_compute; reflexivity); vm_compute; discriminate.
Qed.

(** The second substitution alone yields the parenthesized annotation when
    the parameter does not directly follow an opening parenthesis. *)
Lemma callback_annotation_after_keyword :
  FixTs18046.fix_line (L "x") (L "items.map(async x => x.id)") false
    = (L "items.map(async (x: any) => x.id)", true).
Proof. vm_compute; reflexivity. Qed.

(** C2 fails as stated for the fixer of unknown types: on a callback line
    in the parenthesized form no substitution matches, the flag is raised
    all the same, and the file is written back with the content it had. *)
Lemma unchanged_file_is_rewritten :
  let path := L "a.ts" in
  let content := L "items.map((x) => x.id)" ++ [nl] in
  let w := single_file path (File true (Ok content) None) in
  let res := FixTs18046.fix_file path [FixTs18046.Diagnostic path 1 11 (L "x")] w in
  snd res = true
  /\ w_written (fst res) = [path]
  /\ read_text path w = Ok content
  /\ read_text path (fst res) = Ok content.
Proof. vm_compute. repeat split. Qed.

Lemma read_after_write (path content : str) (w w' : world) :
  write_text path content w = Ok w' ->
  read_text path w' = Ok content /\ w_written w' = w_written w ++ [path].
Proof.
  unfold write_text, read_text.
  destruct (f_write (w_fs w path)); [discriminate|].
  intros H; inversion H; subst; simpl. unfold store.
  now rewrite str_eqb_refl.
Qed.

(** C2, amended.  For a file that can be read and written: the fixers of
    assertions and of imports write the file exactly when the rewritten
    content differs from the content read, and report it as unchanged
    otherwise.  The fixer of unknown types, for diagnostics whose
    identifiers are made of word characters, keeps no copy of the original:
    it writes exactly when its loop over the diagnostics completes with the
    flag raised.  When the loop raises, nothing is written, even if the
    flag had been raised before, and the error is reported.  A content that
    differs at the end of the loop is always written, and after a loop that
    leaves the flag down the file is not written and has the content it
    had; but the flag may be raised without any textual change. *)
Theorem write_back_condition (path content : str) (w : world) :
  read_text path w = Ok content ->
  f_write (w_fs w path) = None ->
  (let res := FixAssertions.fix_file path w in
   let content' := fst (FixAssertions.rewrite content) in
   (fst (snd res) = true <-> content' <> content)
   /\ (content' <> content ->
       w_written (fst res) = w_written w ++ [path]
       /\ read_text path (fst res) = Ok content')
   /\ (content' = content -> fst res = w))
  /\ (let res := FixFinalImports.fix_file path w in
      let content' := FixFinalImports.rewrite content in
      (snd res = true <-> content' <> content)
      /\ (content' <> content ->
          w_written (fst res) = w_written w ++ [path]
          /\ read_text path (fst res) = Ok content')
      /\ (content' = content -> fst res = w))
  /\ (forall errs,
        Forall (fun e => identifier (FixTs18046.d_var e)) errs ->
        let res := FixTs18046.fix_file path errs w in
        let run := FixTs18046.loop errs (FixTs18046.readlines content, false) in
        (snd res = true <-> exists lines, run = Ok (lines, true))
        /\ (forall lines, run = Ok (lines, true) ->
            w_written (fst res) = w_written w ++ [path]
            /\ read_text path (fst res) = Ok (FixTs18046.writelines lines))
        /\ (forall lines, run = Ok (lines, false) ->
            fst res = w /\ FixTs18046.writelines lines = content)
        /\ (forall e, run = Raised e ->
            res = (FixTs18046.report path e w, false))
        /\ (forall lines modified, run = Ok (lines, modified) ->
            FixTs18046.writelines lines <> content -> modified = true)).
Proof.
  intros Hr Hw.
  assert (Hwrite : forall c, exists w', write_text path c w = Ok w').
  { intros c. unfold write_text. rewrite Hw. eauto. }
  split; [|split].
  - unfold FixAssertions.fix_file, FixAssertions.attempt. rewrite Hr.
    destruct (FixAssertions.rewrite content) as [c' n]; simpl.
    destruct (str_eqb c' content) eqn:E; simpl.
    + apply str_eqb_eq in E. subst c'.
      repeat split; try congruence; intros; try discriminate; contradiction.
    + apply str_eqb_neq in E. destruct (Hwrite c') as [w' Hw'].
      rewrite Hw'; simpl. apply read_after_write in Hw'.
      repeat split; intros; try tauto; try congruence.
  - unfold FixFinalImports.fix_file, FixFinalImports.attempt. rewrite Hr.
    simpl. destruct (str_eqb (FixFinalImports.rewrite content) content) eqn:E; simpl.
    + apply str_eqb_eq in E.
      repeat split; try congruence; intros; try discriminate; contradiction.
    + apply str_eqb_neq in E.
      destruct (Hwrite (FixFinalImports.rewrite content)) as [w' Hw'].
      rewrite Hw'; simpl. apply read_after_write in Hw'.
      repeat split; intros; try tauto; try congruence.
  - intros errs _. cbv zeta.
    unfold FixTs18046.fix_file, FixTs18046.attempt. rewrite Hr.
    destruct (FixTs18046.loop errs (FixTs18046.readlines content, false))
      as [[lines modified]|e] eqn:Hl.
    + pose proof (loop_flag _ _ _ _ _ Hl) as [_ Hsame].
      destruct modified.
      * destruct (Hwrite (FixTs18046.writelines lines)) as [w' Hw'].
        rewrite Hw'. cbn [fst snd]. apply read_after_write in Hw'.
        split; [split; [intros _; exists lines; reflexivity | reflexivity]|].
        split; [intros l E; inversion E; subst;
                split; [exact (proj2 Hw') | exact (proj1 Hw')]|].
        split; [intros l E; discriminate E|].
        split; [intros e E; discriminate E|].
        intros l m E _. inversion E; reflexivity.
      * cbn [fst snd].
        split; [split; [discriminate | intros (l & E); discriminate E]|].
        split; [intros l E; discriminate E|].
        split; [intros l E; inversion E; subst l; split;
                [reflexivity | rewrite (Hsame eq_refl); apply concat_readlines]|].
        split; [intros e E; discriminate E|].
        intros l m E N. inversion E; subst l m. exfalso. apply N.
        rewrite (Hsame eq_refl). apply concat_readlines.
    + cbn [fst snd].
      split; [split; [discriminate | intros (l & E); discriminate E]|].
      split; [intros l E; discriminate E|].
      split; [intros l E; discriminate E|].
      split; [intros e0 E; inversion E; reflexivity|].
      intros l m E; discriminate E.
Qed.

Lemma write_back_condition_witness :
  let path := L "a.ts" in
  let content :=
    L "import {" ++ [nl] ++ FixFinalImports.row_import ++ [nl]
    ++ L "return row.id" ++ [nl] in
  let w := single_file path (File true (Ok content) None) in
  let fixed := FixTs18046.fix_file path [FixTs18046.Diagnostic path 3 8 (L "row")] w in
  snd (FixFinalImports.fix_file path w) = true
  /\ fst (FixAssertions.fix_file path w) = w
  /\ snd fixed = true
  /\ w_written (fst fixed) = [path]
  /\ read_text path (fst fixed)
     = Ok (L "import {" ++ [nl] ++ FixFinalImports.row_import ++ [nl]
           ++ L "return (row as any).id" ++ [nl])
  /\ FixTs18046.fix_file path
       [FixTs18046.Diagnostic path 3 8 (L "row");
        FixTs18046.Diagnostic path (-9) 1 (L "row")] w
     = (FixTs18046.report path (L "list index out of range") w, false).
Proof.
  intros path content w fixed.
  destruct (@write_back_condition path content w eq_refl eq_refl)
    as ((_ & _ & Ha) & (Hi & _) & Ht).
  split; [apply Hi; vm_compute; discriminate|].
  split; [apply Ha; vm_compute; reflexivity|].
  assert (I1 : Forall (fun e => identifier (FixTs18046.d_var e))
                 [FixTs18046.Diagnostic path 3 8 (L "row")])
    by (repeat constructor; discriminate).
  assert (I2 : Forall (fun e => identifier (FixTs18046.d_var e))
                 [FixTs18046.Diagnostic path 3 8 (L "row");
                  FixTs18046.Diagnostic path (-9) 1 (L "row")])
    by (repeat constructor; discriminate).
  destruct (Ht _ I1) as (T1 & T2 & _).
  destruct (Ht _ I2) as (_ & _ & _ & T4 & _).
  assert (R1 : FixTs18046.loop [FixTs18046.Diagnostic path 3 8 (L "row")]
                 (FixTs18046.readlines content, false)
               = Ok ([L "import {" ++ [nl];
                      FixFinalImports.row_import ++ [nl];
                      L "return (row as any).id" ++ [nl]], true))
    by (vm_compute; reflexivity).
  split; [apply T1; eexists; exact R1|].
  destruct (T2 _ R1) as (W1 & W2).
  split; [exact W1|]. split; [exact W2|].
  apply T4. vm_compute. reflexivity.
Defined.

(** C3. An array-typed assertion on users in front of a [.single()] call
    whose own assertion names orders: the first pattern does not fire (its
    back-reference asks for the same table), but the catch-all third
    pattern removes the users assertion all the same, so the block is
    rewritten although the two table identifiers differ. *)
Theorem single_with_other_table_is_rewritten :
  let input :=
    L ".eq('id', id) as { data: Row<'users'>[] | null; error: any }" ++ [nl]
    ++ L "  .single() as { data: Row<'orders'> | null; error: any }" in
  subn FixAssertions.pattern1 FixAssertions.replacement1 input = (input, 0)
  /\ FixAssertions.rewrite input
     = (L ".eq('id', id)" ++ [nl]
        ++ L "  .single() as { data: Row<'orders'> | null; error: any }", 1)
  /\ fst (FixAssertions.rewrite input) <> input.
Proof.
  repeat split; try (vm_compute; reflexivity). vm_compute; discriminate.
Qed.

(** C4 fails as stated: the identifier [e] on the line [items.map(e => e)]
    has no property access, the line is a callback line, and yet the line is
    left as it is; the transformation of branch 2 would have produced
    [items.map(e: any => e)]. *)
Lemma error_name_shadows_callback_branch :
  let line := L "items.map(e => e)" in
  In (L "e") FixTs18046.error_names
  /\ occurs (L "e" ++ L ".") line = false
  /\ FixTs18046.is_callback_line line = true
  /\ FixTs18046.fix_line (L "e") line false = (line, false)
  /\ FixTs18046.pattern2 (L "e") line false = (L "items.map(e: any => e)", true)
  /\ FixTs18046.fix_line (L "e") line false
     <> FixTs18046.pattern2 (L "e") line false.
Proof.
  repeat split; try (vm_compute; reflexivity).
  - simpl; auto.
  - vm_compute; discriminate.
Qed.

(** C4, amended.  The chain is entered by the name alone: for an
    identifier among error/err/e only branch 1 is ever tried, whether or not
    the line accesses a property of it, so such a line gets the
    transformation of branch 1 when it also is a callback line, and is left
    as it is when no property of the identifier is accessed.  For any other
    identifier a callback line gets branch 2, and only a line that is not a
    callback line is tried for branch 3. *)
Theorem branch_selection (v line : str) (modified : bool) :
  (In v FixTs18046.error_names ->
     FixTs18046.fix_line v line modified = FixTs18046.pattern1 v line modified
     /\ (occurs (v ++ L ".") line = false ->
         FixTs18046.fix_line v line modified = (line, modified)))
  /\ (~ In v FixTs18046.error_names ->
      (FixTs18046.is_callback_line line = true ->
         FixTs18046.fix_line v line modified
           = FixTs18046.pattern2 v line modified)
      /\ (FixTs18046.is_callback_line line = false ->
          FixTs18046.fix_line v line modified
            = if FixTs18046.pattern3_trigger v line
              then FixTs18046.pattern3 v line modified
              else (line, modified))).
Proof.
  split.
  - intros Hv. apply error_names_spec in Hv.
    unfold FixTs18046.fix_line. rewrite Hv. split; [reflexivity|].
    intros Hno. unfold FixTs18046.pattern1.
    destruct (occurs (v ++ L ".message") line) eqn:Hm.
    + change (L ".message") with (L "." ++ L "message") in Hm.
      rewrite app_assoc in Hm. apply occurs_prefix in Hm. congruence.
    + rewrite Hno. reflexivity.
  - intros Hv.
    assert (E : existsb (str_eqb v) FixTs18046.error_names = false).
    { destruct (existsb (str_eqb v) FixTs18046.error_names) eqn:E;
        [apply error_names_spec in E; contradiction | reflexivity]. }
    unfold FixTs18046.fix_line. rewrite E.
    split; intros ->; reflexivity.
Qed.

Lemma branch_selection_witness :
  (FixTs18046.fix_line (L "e") (L "rs.map(e => e.code)") false
     = FixTs18046.pattern1 (L "e") (L "rs.map(e => e.code)") false
   /\ FixTs18046.fix_line (L "e") (L "items.map(e => e)") false
     = (L "items.map(e => e)", false))
  /\ (FixTs18046.fix_line (L "x") (L "rs.map(x => x.code)") false
        = FixTs18046.pattern2 (L "x") (L "rs.map(x => x.code)") false
      /\ FixTs18046.fix_line (L "x") (L "x.code") false
        = if FixTs18046.pattern3_trigger (L "x") (L "x.code")
          then FixTs18046.pattern3 (L "x") (L "x.code") false
          else (L "x.code", false)).
Proof.
  assert (He : In (L "e") FixTs18046.error_names) by (simpl; auto).
  assert (Hx : ~ In (L "x") FixTs18046.error_names).
  { simpl. intros [H | [H | [H | []]]]; discriminate H. }
  split; split.
  - apply (proj1 (@branch_selection (L "e") (L "rs.map(e => e.code)") false) He).
  - apply (proj1 (@branch_selection (L "e") (L "items.map(e => e)") false) He).
    vm_compute. reflexivity.
  - apply (proj2 (@branch_selection (L "x") (L "rs.map(x => x.code)") false) Hx).
    vm_compute. reflexivity.
  - apply (proj2 (@branch_selection (L "x") (L "x.code") false) Hx).
    vm_compute. reflexivity.
Defined.

(** C5 fails as stated: the pattern takes any text without a quote for a
    table name, and a block whose table name holds a closing parenthesis
    or a [>] can be swallowed by a match that overlaps it.  In the first
    text the block stands before [.eq(] and the pass for [.or(] matches
    from the parenthesis inside its table name; in the second the pass
    matches from an assertion that opens before the block and ends inside
    its table name.  In both the block is gone after the passes. *)
Lemma odd_table_name_loses_block :
  (let table := L "x) as { data: Row<" in
   let block := FixAssertions.chained table false [nl] (L "eq") in
   let content := block ++ L "'> | null; error: any }" ++ [nl] ++ L ".or(" in
   option_map (fun m => (mt_text m, expand m 2, expand m 5))
              (match_at FixAssertions.pattern3 None block)
   = Some (block, table, L ".eq(")
   /\ fst (FixAssertions.rewrite content)
      = L ") as { data: Row<'x)" ++ [nl] ++ L ".or("
   /\ occurs block content = true
   /\ occurs block (fst (FixAssertions.rewrite content)) = false)
  /\ (let table := L "> | null; error: any }" ++ [nl] ++ L ".or(x" in
      let block := FixAssertions.chained table false [nl] (L "eq") in
      let content := L ") as { data: Row<'zz" ++ block in
      option_map (fun m => (mt_text m, expand m 2, expand m 5))
                 (match_at FixAssertions.pattern3 None block)
      = Some (block, table, L ".eq(")
      /\ fst (FixAssertions.rewrite content)
         = L ")" ++ [nl] ++ L ".or(x'> | null; error: any }" ++ [nl] ++ L ".eq("
      /\ occurs block content = true
      /\ occurs block (fst (FixAssertions.rewrite content)) = false).
Proof. vm_compute. repeat split. Qed.

(** C5, amended.  An assertion block whose table name holds no quote,
    closing parenthesis or [>], followed after white space by the call of a
    method that is not in the allow-list (single, or, order, limit, range,
    gte, lte, gt, lt, not, in, contains, filter), is still in the content
    after the three passes, wherever it stands in the file. *)
Theorem allow_list_boundary (table gap name pre post : str) (array : bool) :
  FixAssertions.table_name table ->
  Forall (fun c => is_space c = true) gap ->
  FixAssertions.method_name name ->
  ~ In name (L "single" :: FixAssertions.methods) ->
  exists pre' post',
    fst (FixAssertions.rewrite
           (pre ++ FixAssertions.chained table array gap name ++ post))
    = pre' ++ FixAssertions.chained table array gap name ++ post'.
Proof.
  intros HT Hg Hn Ho. rewrite rewrite_content.
  apply (pass3_keeps table gap name array HT Hg Hn Ho).
  apply (passes2_keep table gap name array HT Hg Hn Ho).
  - auto.
  - apply (pass1_keeps table gap name array HT Hg Hn Ho).
    exists pre, post. reflexivity.
Qed.

Lemma allow_list_boundary_witness :
  exists pre' post',
    fst (FixAssertions.rewrite
           (L "  .select('*'"
            ++ FixAssertions.chained (L "users") true ([nl] ++ L "    ") (L "eq")
            ++ L "'id', id)"))
    = pre' ++ FixAssertions.chained (L "users") true ([nl] ++ L "    ") (L "eq")
      ++ post'.
Proof.
  apply (allow_list_boundary (L "users") ([nl] ++ L "    ") (L "eq")
           (L "  .select('*'") (L "'id', id)") true).
  - split; [discriminate | repeat constructor].
  - repeat constructor.
  - split; [discriminate | repeat constructor].
  - cbn [In FixAssertions.methods]. intros H.
    repeat (destruct H as [H | H]; [discriminate H|]). exact H.
Defined.


(** Unknown-type narrowing with two diagnostics on one line: the annotation
    written for [x] is rewritten by the diagnostic for [any] in a second
    run. *)
Lemma narrowing_two_records_on_a_line :
  let es := [FixTs18046.Diagnostic (L "a.ts") 1 1 (L "any");
             FixTs18046.Diagnostic (L "a.ts") 1 11 (L "x")] in
  FixTs18046.loop es ([L "items.map(x => x.id)"], false)
    = Ok ([L "items.map(x: any => x.id)"], true)
  /\ FixTs18046.loop es ([L "items.map(x: any => x.id)"], false)
     = Ok ([L "items.map(x: (any: any) => x.id)"], true).
Proof. split; vm_compute; reflexivity. Qed.

(** Assertion cleanup: a removal by the last pattern can complete a block
    for the patterns before it, which only a second run applies. *)
Lemma assertion_cleanup_needs_two_passes :
  let F :=
    L ") as { data: Row<'X) as { data: Row<'T'>[] | null; error: any }" ++ [nl]
    ++ L ".single('> | null; error: any }" ++ [nl] ++ L ".or(" in
  fst (FixAssertions.rewrite F)
    = L ") as { data: Row<'X)" ++ [nl]
      ++ L ".single('> | null; error: any }" ++ [nl] ++ L ".or("
  /\ fst (FixAssertions.rewrite (fst (FixAssertions.rewrite F)))
     = L ")" ++ [nl] ++ L ".or(".
Proof. split; vm_compute; reflexivity. Qed.



(** C7 fails as stated for the fixer of imports: its handler calls [print]
    without a channel, so the report of a file that cannot be read goes to
    the standard output and nothing is written on the standard error. *)
Lemma import_error_goes_to_stdout :
  let path := L "a.ts" in
  let w := single_file path (File true (Raised (L "boom")) None) in
  FixFinalImports.attempt path w = Raised (L "boom")
  /\ w_stderr (fst (FixFinalImports.fix_file path w)) = []
  /\ w_stdout (fst (FixFinalImports.fix_file path w))
     = [L "Error processing a.ts: boom" ++ [nl]].
Proof. vm_compute. repeat split. Qed.

(** C7, amended.  When the processing of a file raises [e], the handler of
    each fixer prints exactly once, a line made of a fixed prefix, the path
    and the text of [e]: on the standard error for the fixers of assertions
    and of unknown types, on the standard output for the fixer of imports.
    Nothing else changes, the file counts as not fixed, and the loop of
    [main] goes on with the files that remain. *)
Theorem error_report (p e : str) (w : world) :
  (FixAssertions.attempt p w = Raised e ->
     let w' :=
       World (w_fs w) (w_written w) (w_stdout w)
             (w_stderr w ++ [(L "Error processing " ++ p ++ L ": " ++ e) ++ [nl]]) in
     FixAssertions.fix_file p w = (w', (false, 0))
     /\ forall rest total_fixed total_files,
          f_exists (w_fs w p) = true ->
          fold_left FixAssertions.visit (p :: rest) (w, (total_fixed, total_files))
            = fold_left FixAssertions.visit rest (w', (total_fixed, total_files)))
  /\ (FixFinalImports.attempt p w = Raised e ->
      let w' :=
        World (w_fs w) (w_written w)
              (w_stdout w ++ [(L "Error processing " ++ p ++ L ": " ++ e) ++ [nl]])
              (w_stderr w) in
      FixFinalImports.fix_file p w = (w', false)
      /\ forall rest fixed_count,
           fold_left FixFinalImports.visit (p :: rest) (w, fixed_count)
             = fold_left FixFinalImports.visit rest (w', fixed_count))
  /\ (forall errs,
        FixTs18046.attempt p errs w = Raised e ->
        FixTs18046.fix_file p errs w
          = (World (w_fs w) (w_written w) (w_stdout w)
                   (w_stderr w ++ [(L "Error fixing " ++ p ++ L ": " ++ e) ++ [nl]]),
             false)
        /\ forall rest fixed_count,
             fold_left FixTs18046.visit ((p, errs) :: rest) (w, fixed_count)
               = fold_left FixTs18046.visit rest
                   (World (w_fs w) (w_written w)
                      (w_stdout w ++
                         [(L "   Fixing " ++ p ++ L " (" ++
                           show_nat (length errs) ++ L " errors)...") ++ [nl]])
                      (w_stderr w ++
                         [(L "Error fixing " ++ p ++ L ": " ++ e) ++ [nl]]),
                    fixed_count)).
Proof.
  split; [|split].
  - intros H w'.
    assert (F : FixAssertions.fix_file p w = (w', (false, 0))).
    { unfold FixAssertions.fix_file. rewrite H. reflexivity. }
    split; [exact F|]. intros rest tf tn Hex.
    cbn [fold_left]. unfold FixAssertions.visit at 2.
    rewrite Hex, F. reflexivity.
  - intros H w'.
    assert (F : FixFinalImports.fix_file p w = (w', false)).
    { unfold FixFinalImports.fix_file. rewrite H. reflexivity. }
    split; [exact F|]. intros rest n.
    cbn [fold_left]. unfold FixFinalImports.visit at 2.
    rewrite F. reflexivity.
  - intros errs H. split.
    + unfold FixTs18046.fix_file. rewrite H. reflexivity.
    + intros rest n. cbn [fold_left]. unfold FixTs18046.visit at 2.
      unfold FixTs18046.fix_file.
      rewrite (@attempt_after_print p _ e errs w H). reflexivity.
Qed.

Lemma error_report_witness :
  let p := L "a.ts" in
  let w := single_file p (File true (Raised (L "boom")) None) in
  FixAssertions.fix_file p w
    = (World (w_fs w) [] [] [L "Error processing a.ts: boom" ++ [nl]], (false, 0))
  /\ FixTs18046.fix_file p [] w
     = (World (w_fs w) [] [] [L "Error fixing a.ts: boom" ++ [nl]], false).
Proof.
  intros p w.
  destruct (@error_report p (L "boom") w) as (Ha & _ & Ht).
  split.
  - apply (Ha eq_refl).
  - apply (Ht [] eq_refl).
Defined.

(** C8. Scenario 1: the array-typed assertion is removed from the first
    line and the [.single()] line is kept as it is. *)
Theorem scenario_single_assertion :
  FixAssertions.rewrite
    (L ".eq('id', id) as { data: Row<'users'>[] | null; error: any }" ++ [nl]
     ++ L "  .single() as { data: Row<'users'> | null; error: any }")
  = (L ".eq('id', id)" ++ [nl]
     ++ L "  .single() as { data: Row<'users'> | null; error: any }", 1).
Proof. vm_compute; reflexivity. Qed.

(** C9. Branch 1 on a [.message] access: for an identifier among
    error/err/e, a line that contains [v.message] and no [(v as Error)] is
    rewritten by [str.replace], which knows nothing of word boundaries; with
    the identifier [e], [response.message] becomes
    [respons(e as Error).message]. *)
Theorem message_cast_is_plain_replacement (v line : str) (modified : bool) :
  In v FixTs18046.error_names ->
  occurs (v ++ L ".message") line = true ->
  occurs (FixTs18046.cast_error v) line = false ->
  FixTs18046.fix_line v line modified
    = (replace (v ++ L ".message") (L "(" ++ v ++ L " as Error).message") line,
       true)
  /\ FixTs18046.fix_line (L "e") (L "response.message") modified
    = (L "respons(e as Error).message", true).
Proof.
  intros Hv Hm Hc. split.
  - unfold FixTs18046.fix_line.
    apply error_names_spec in Hv. rewrite Hv.
    unfold FixTs18046.pattern1. rewrite Hm, Hc. simpl.
    unfold FixTs18046.cast_error. now rewrite <- !app_assoc.
  - vm_compute. reflexivity.
Qed.

Lemma message_cast_is_plain_replacement_witness :
  FixTs18046.fix_line (L "err") (L "log(err.message, xerr.message)") false
    = (L "log((err as Error).message, x(err as Error).message)", true)
  /\ FixTs18046.fix_line (L "e") (L "response.message") false
    = (L "respons(e as Error).message", true).
Proof.
  destruct (message_cast_is_plain_replacement (L "err")
              (L "log(err.message, xerr.message)") false) as [H1 H2].
  - simpl. auto.
  - vm_compute. reflexivity.
  - vm_compute. reflexivity.
  - split; [|exact H2]. rewrite H1. vm_compute. reflexivity.
Defined.

(** C10 fails as stated for a file without lines: the index -1 of a
    diagnostic with line number 0 denotes nothing there, [IndexError] is
    raised, the handler reports it and nothing is written. *)
Lemma line_zero_on_empty_file :
  let path := L "a.ts" in
  let w := single_file path (File true (Ok []) None) in
  let error := FixTs18046.Diagnostic path 0 1 (L "x") in
  FixTs18046.readlines [] = []
  /\ FixTs18046.step ([], false) error = Raised (L "list index out of range")
  /\ FixTs18046.fix_file path [error] w
     = (FixTs18046.report path (L "list index out of range") w, false)
  /\ w_written (fst (FixTs18046.fix_file path [error] w)) = []
  /\ w_stderr (fst (FixTs18046.fix_file path [error] w))
     = [L "Error fixing a.ts: list index out of range" ++ [nl]].
Proof. vm_compute. repeat split. Qed.

(** C10, amended.  A diagnostic whose line number exceeds the number of
    lines is skipped: the loop goes on with the same lines and the same
    flag.  A diagnostic with line number 0 is not skipped.  On a file with
    at least one line its index -1 denotes the last line: the if/elif
    chain is applied to that line (for an identifier made of word
    characters), the result is stored as the last line, and the loop goes
    on from there.  On a file without lines the index raises, and so does
    the loop. *)
Theorem line_number_out_of_range (lines : list str) (modified : bool)
    (error : FixTs18046.diagnostic) (rest : list FixTs18046.diagnostic) :
  ((Z.of_nat (length lines) < FixTs18046.d_line error)%Z ->
     FixTs18046.step (lines, modified) error = Ok (lines, modified)
     /\ FixTs18046.loop (error :: rest) (lines, modified)
        = FixTs18046.loop rest (lines, modified))
  /\ (FixTs18046.d_line error = 0%Z ->
      identifier (FixTs18046.d_var error) ->
      match lines with
      | [] =>
          FixTs18046.step (lines, modified) error
            = Raised (L "list index out of range")
          /\ FixTs18046.loop (error :: rest) (lines, modified)
             = Raised (L "list index out of range")
      | _ :: _ =>
          let res :=
            FixTs18046.fix_line (FixTs18046.d_var error) (last lines [])
                                modified in
          FixTs18046.step (lines, modified) error
            = Ok (FixTs18046.set_nth (length lines - 1) (fst res) lines,
                  snd res)
          /\ FixTs18046.loop (error :: rest) (lines, modified)
             = FixTs18046.loop rest
                 (FixTs18046.set_nth (length lines - 1) (fst res) lines,
                  snd res)
      end).
Proof.
  split.
  - intros H.
    assert (E : FixTs18046.step (lines, modified) error = Ok (lines, modified)).
    { unfold FixTs18046.step.
      destruct (Z.leb_spec (Z.of_nat (length lines))
                           (FixTs18046.d_line error - 1)); [reflexivity | lia]. }
    split; [exact E | cbn [FixTs18046.loop]; now rewrite E].
  - intros H0 _. destruct lines as [|x xs].
    + assert (E : FixTs18046.step ([], modified) error
                  = Raised (L "list index out of range")).
      { unfold FixTs18046.step. rewrite H0. reflexivity. }
      split; [exact E | cbn [FixTs18046.loop]; now rewrite E].
    + cbv zeta.
      assert (E : FixTs18046.step (x :: xs, modified) error
                  = Ok (FixTs18046.set_nth (length (x :: xs) - 1)
                          (fst (FixTs18046.fix_line (FixTs18046.d_var error)
                                  (last (x :: xs) []) modified))
                          (x :: xs),
                        snd (FixTs18046.fix_line (FixTs18046.d_var error)
                               (last (x :: xs) []) modified))).
      { unfold FixTs18046.step. rewrite H0.
        destruct (Z.leb_spec (Z.of_nat (length (x :: xs))) (0 - 1));
          [cbn [length] in *; lia|].
        unfold FixTs18046.position.
        destruct (Z.leb_spec 0 (0 - 1)); [lia|].
        destruct (Z.leb_spec 0 (0 - 1 + Z.of_nat (length (x :: xs))));
          [|cbn [length] in *; lia].
        replace (Z.to_nat (0 - 1 + Z.of_nat (length (x :: xs))))
          with (length (x :: xs) - 1) by lia.
        rewrite nth_last.
        destruct (FixTs18046.fix_line (FixTs18046.d_var error)
                    (last (x :: xs) []) modified);
          reflexivity. }
      split; [exact E | cbn [FixTs18046.loop]; now rewrite E].
Qed.

Lemma line_number_out_of_range_witness :
  (FixTs18046.step ([L "a.map(x => x)" ++ [nl]; L "y.z" ++ [nl]], false)
                   (FixTs18046.Diagnostic (L "f.ts") 3 1 (L "y"))
     = Ok ([L "a.map(x => x)" ++ [nl]; L "y.z" ++ [nl]], false)
   /\ FixTs18046.loop [FixTs18046.Diagnostic (L "f.ts") 3 1 (L "y")]
                      ([L "a.map(x => x)" ++ [nl]; L "y.z" ++ [nl]], false)
      = FixTs18046.loop [] ([L "a.map(x => x)" ++ [nl]; L "y.z" ++ [nl]], false))
  /\ FixTs18046.loop [FixTs18046.Diagnostic (L "f.ts") 0 1 (L "y")]
                     ([L "a.map(x => x)" ++ [nl]; L "y.z" ++ [nl]], false)
     = Ok ([L "a.map(x => x)" ++ [nl]; L "(y as any).z" ++ [nl]], true)
  /\ FixTs18046.loop [FixTs18046.Diagnostic (L "f.ts") 0 1 (L "y")] ([], false)
     = Raised (L "list index out of range").
Proof.
  split; [|split].
  - apply (@line_number_out_of_range
             [L "a.map(x => x)" ++ [nl]; L "y.z" ++ [nl]] false
             (FixTs18046.Diagnostic (L "f.ts") 3 1 (L "y")) []).
    simpl. lia.
  - etransitivity.
    + apply (proj2 (@line_number_out_of_range
               [L "a.map(x => x)" ++ [nl]; L "y.z" ++ [nl]] false
               (FixTs18046.Diagnostic (L "f.ts") 0 1 (L "y")) [])).
      * reflexivity.
      * split; [discriminate | repeat constructor].
    + vm_compute. reflexivity.
  - apply (proj2 (@line_number_out_of_range [] false
             (FixTs18046.Diagnostic (L "f.ts") 0 1 (L "y")) [])).
    + reflexivity.
    + split; [discriminate | repeat constructor].
Defined.

(** * Further properties *)

Import Notions.

(** ** Scans without a match *)

Section ScanQuiet.

Variable mt : matcher.
Variable repl : rmatch -> str.

(** A text in which the matcher succeeds nowhere is copied as it is, and
    nothing is counted. *)
Lemma scan_quiet (s : str) (prev : option ascii) :
  (forall prev' a b, s = a ++ b -> b <> [] -> mt prev' b = None) ->
  scan mt repl prev s 0 = (s, 0).
Proof.
  intros H.
  pose proof (scan_copy mt repl s prev []) as C.
  rewrite app_nil_r in C. rewrite C.
  - cbn [scan fst snd]. destruct s; [reflexivity|].
    now rewrite app_nil_r.
  - intros w1 w2 E Hne. rewrite app_nil_r. apply (H _ w1 w2 E Hne).
Qed.

(** A scan that counts nothing has copied the text. *)
Lemma scan_uncounted (s : str) :
  forall prev j,
    snd (scan mt repl prev s j) = 0 ->
    fst (scan mt repl prev s j) = skipn j s.
Proof.
  induction s as [|c t IH]; intros prev j H.
  - destruct j; reflexivity.
  - destruct j as [|j]; [|cbn [scan skipn] in *; apply IH; exact H].
    cbn [scan skipn] in *.
    destruct (mt prev (c :: t)) as [m|].
    + destruct (length (mt_text m)) as [|k].
      * specialize (IH (Some c) 0).
        destruct (scan mt repl (Some c) t 0) as [out cnt]. cbn [fst snd] in *.
        rewrite (IH H). reflexivity.
      * destruct (scan mt repl (Some c) t k) as [out cnt]. discriminate H.
    + specialize (IH (Some c) 0).
      destruct (scan mt repl (Some c) t 0) as [out cnt]. cbn [fst snd] in *.
      rewrite (IH H). reflexivity.
Qed.

End ScanQuiet.

(** A substitution whose pattern only matches texts that hold [x] leaves a
    subject without [x] as it is. *)
Lemma subn_absent (r : regex) (repl : rmatch -> str) (x s : str) :
  (forall prev b m, match_at r prev b = Some m -> occurs x b = true) ->
  occurs x s = false ->
  subn r repl s = (s, 0).
Proof.
  intros H Hx. unfold subn. apply scan_quiet.
  intros prev' a b E _.
  destruct (match_at r prev' b) as [m|] eqn:M; [|reflexivity].
  exfalso. apply H in M. rewrite E in Hx.
  rewrite (occurs_later x a b M) in Hx. discriminate.
Qed.

Lemma occurs_in_prefix (x u rest : str) :
  occurs x u = true -> occurs x (u ++ rest) = true.
Proof.
  rewrite !occurs_app. intros (a & b & ->).
  exists a, (b ++ rest). now rewrite <- !app_assoc.
Qed.

(** ** fix-ts18046.py: what a diagnostic can and cannot change *)

(** X1. The loop over the diagnostics never adds or removes a line, and a
    line that no diagnostic addresses comes out as it went in. *)
Theorem loop_frame (es : list FixTs18046.diagnostic) (lines lines' : list str)
    (m m' : bool) :
  FixTs18046.loop es (lines, m) = Ok (lines', m') ->
  length lines' = length lines
  /\ forall j, ~ In j (FixTs18046.targets (length lines) es) ->
               nth j lines' [] = nth j lines [].
Proof. apply loop_spec. Qed.

Lemma loop_frame_witness :
  length [L "a.b" ++ [nl]; L "(x as any).y" ++ [nl]; L "c" ++ [nl]] = 3
  /\ forall j,
       ~ In j (FixTs18046.targets 3 [FixTs18046.Diagnostic (L "f.ts") 2 1 (L "x")]) ->
       nth j [L "a.b" ++ [nl]; L "(x as any).y" ++ [nl]; L "c" ++ [nl]] []
       = nth j [L "a.b" ++ [nl]; L "x.y" ++ [nl]; L "c" ++ [nl]] [].
Proof.
  apply (loop_frame [FixTs18046.Diagnostic (L "f.ts") 2 1 (L "x")]
           [L "a.b" ++ [nl]; L "x.y" ++ [nl]; L "c" ++ [nl]]
           [L "a.b" ++ [nl]; L "(x as any).y" ++ [nl]; L "c" ++ [nl]]
           false true).
  vm_compute. reflexivity.
Defined.

(** X2. A diagnostic whose identifier does not occur on its line leaves
    the line as it is, whatever the branch. *)
Theorem absent_identifier_keeps_line (v line : str) (m : bool) :
  identifier v ->
  occurs v line = false ->
  fst (FixTs18046.fix_line v line m) = line.
Proof.
  intros _ H.
  assert (Hdot : forall y, occurs (v ++ y) line = false).
  { intros y. destruct (occurs (v ++ y) line) eqn:E; [|reflexivity].
    apply occurs_prefix in E. congruence. }
  assert (Hacc : forall repl, sub (FixTs18046.access_pattern v) repl line = line).
  { intros repl. unfold sub. rewrite (subn_absent _ repl v line); auto.
    intros prev b m0 M. destruct (access_shape v _ _ _ M) as (T & _ & r & E).
    rewrite E, T. apply occurs_in_prefix. apply occurs_here. }
  unfold FixTs18046.fix_line, FixTs18046.pattern1, FixTs18046.pattern2,
    FixTs18046.pattern3, FixTs18046.pattern3_trigger.
  rewrite !Hdot. cbn [andb].
  destruct (existsb (str_eqb v) FixTs18046.error_names); [reflexivity|].
  destruct (FixTs18046.is_callback_line line); [|reflexivity].
  destruct (occurs (FixTs18046.annotation v) line); cbv zeta; cbn [negb fst];
    [reflexivity|].
  unfold sub.
  rewrite (subn_absent (FixTs18046.paren_arrow_pattern v) _ v line); auto.
  - cbn [fst]. rewrite (subn_absent (FixTs18046.arrow_pattern v) _ v line); auto.
    intros prev b m0 M.
    destruct (arrow_shape v _ _ _ M) as ((ws & T & _) & _ & r & E).
    rewrite E, T. apply occurs_in_prefix. apply occurs_here.
  - intros prev b m0 M.
    destruct (paren_arrow_shape v _ _ _ M) as ((ws & T & _) & r & E).
    rewrite E, T. apply occurs_in_prefix.
    apply (occurs_later v (L "(")). apply occurs_here.
Qed.

Lemma absent_identifier_keeps_line_witness :
  fst (FixTs18046.fix_line (L "row") (L "items.map(x => x.id)") false)
  = L "items.map(x => x.id)".
Proof.
  apply (absent_identifier_keeps_line (L "row") (L "items.map(x => x.id)") false).
  - split; [discriminate | repeat constructor].
  - vm_compute. reflexivity.
Defined.

(** X3. Whenever a diagnostic changes its line, the new line carries the
    text that the branch taken inserts: the cast to Error, the annotation
    or the cast to any. *)
Theorem changed_line_carries_guard (v line : str) (m : bool) :
  identifier v ->
  fst (FixTs18046.fix_line v line m) <> line ->
  let line' := fst (FixTs18046.fix_line v line m) in
  if existsb (str_eqb v) FixTs18046.error_names
  then occurs (FixTs18046.cast_error v) line' = true
  else if FixTs18046.is_callback_line line
       then occurs (FixTs18046.annotation v) line' = true
       else occurs (FixTs18046.cast_any v) line' = true.
Proof.
  intros _. unfold FixTs18046.fix_line.
  destruct (existsb (str_eqb v) FixTs18046.error_names).
  - intros H. destruct (pattern1_guard v line m); [contradiction | assumption].
  - destruct (FixTs18046.is_callback_line line).
    + intros H. destruct (pattern2_guard v line m); [contradiction | assumption].
    + destruct (FixTs18046.pattern3_trigger v line).
      * intros H. destruct (pattern3_guard v line m); [contradiction | assumption].
      * intros H. exfalso. apply H. reflexivity.
Qed.

Lemma changed_line_carries_guard_witness :
  occurs (FixTs18046.cast_any (L "row"))
         (fst (FixTs18046.fix_line (L "row") (L "return row.id") false)) = true.
Proof.
  apply (changed_line_carries_guard (L "row") (L "return row.id") false).
  - split; [discriminate | repeat constructor].
  - vm_compute. discriminate.
Defined.

(** ** fix-ts18046.py: grouping the diagnostics by file *)

Section Grouping.

Import FixTs18046.

Lemma add_error_keys (error : diagnostic)
    (files : list (str * list diagnostic)) :
  map fst (add_error error files)
  = if existsb (fun p => str_eqb p (d_file error)) (map fst files)
    then map fst files
    else map fst files ++ [d_file error].
Proof.
  induction files as [|[p es] rest IH]; [reflexivity|].
  cbn [add_error map fst existsb].
  destruct (str_eqb p (d_file error)) eqn:E; cbn [orb map fst]; [reflexivity|].
  rewrite IH.
  destruct (existsb (fun p0 => str_eqb p0 (d_file error)) (map fst rest));
    reflexivity.
Qed.

Lemma existsb_key (x : str) (keys : list str) :
  existsb (fun p => str_eqb p x) keys = true <-> In x keys.
Proof.
  rewrite existsb_exists. split.
  - intros (p & I & E). apply str_eqb_eq in E. now subst.
  - intros I. exists x. split; [exact I | apply str_eqb_refl].
Qed.

Lemma add_error_in (error : diagnostic)
    (files : list (str * list diagnostic)) (p : str) (es : list diagnostic) :
  NoDup (map fst files) ->
  In (p, es) (add_error error files) ->
  (p <> d_file error /\ In (p, es) files)
  \/ (p = d_file error
      /\ ((es = [error] /\ ~ In p (map fst files))
          \/ exists es0, es = es0 ++ [error] /\ In (p, es0) files)).
Proof.
  induction files as [|[q qs] rest IH]; cbn [add_error map fst]; intros ND.
  - intros [E | []]. inversion E; subst. right. split; [reflexivity|].
    left. split; [reflexivity | intros []].
  - inversion ND as [|k ks Nk ND']; subst.
    destruct (str_eqb q (d_file error)) eqn:Q.
    + apply str_eqb_eq in Q. subst q. intros [E | I].
      * inversion E; subst. right. split; [reflexivity|]. right.
        exists qs. split; [reflexivity | left; reflexivity].
      * left. split; [|right; exact I].
        intros ->. apply Nk. apply (in_map fst) in I. exact I.
    + apply str_eqb_neq in Q. intros [E | I].
      * inversion E; subst. left. split; [exact Q | left; reflexivity].
      * destruct (IH ND' I) as [(N & I') | (E & [(E1 & N) | (es0 & E1 & I')])].
        -- left. split; [exact N | right; exact I'].
        -- right. split; [exact E|]. left. split; [exact E1|].
           intros [K | K]; [congruence | contradiction].
        -- right. split; [exact E|]. right. exists es0.
           split; [exact E1 | right; exact I'].
Qed.

Lemma of_file_snoc (p : str) (seen : list diagnostic) (e : diagnostic) :
  of_file p (seen ++ [e])
  = of_file p seen ++ (if str_eqb p (d_file e) then [e] else []).
Proof. unfold of_file. rewrite filter_app. reflexivity. Qed.

Lemma of_file_none (p : str) (seen : list diagnostic) :
  (forall e, In e seen -> d_file e <> p) -> of_file p seen = [].
Proof.
  induction seen as [|e seen IH]; intros H; [reflexivity|].
  unfold of_file. cbn [filter].
  destruct (str_eqb p (d_file e)) eqn:E.
  - apply str_eqb_eq in E. exfalso. apply (H e); [left; reflexivity | auto].
  - apply IH. intros e' I. apply H. right. exact I.
Qed.

(** What the dictionary of [main] holds after the diagnostics [seen]. *)
Lemma grouping_invariant (errors : list diagnostic) :
  forall seen files,
    NoDup (map fst files) ->
    (forall p es, In (p, es) files -> es = of_file p seen /\ es <> []) ->
    (forall e, In e seen -> In (d_file e) (map fst files)) ->
    let files' := fold_left (fun files error => add_error error files)
                            errors files in
    NoDup (map fst files')
    /\ (forall p es, In (p, es) files' ->
                     es = of_file p (seen ++ errors) /\ es <> [])
    /\ (forall e, In e (seen ++ errors) -> In (d_file e) (map fst files')).
Proof.
  induction errors as [|e errors IH]; intros seen files ND G C.
  - cbn [fold_left]. rewrite app_nil_r. auto.
  - cbn [fold_left].
    replace (seen ++ e :: errors) with ((seen ++ [e]) ++ errors)
      by (rewrite <- app_assoc; reflexivity).
    apply IH.
    + rewrite add_error_keys.
      destruct (existsb (fun p => str_eqb p (d_file e)) (map fst files)) eqn:X;
        [exact ND|].
      apply NoDup_app; [exact ND | repeat constructor; intros [] |].
      intros x Ix [<- | []].
      apply existsb_key in Ix. congruence.
    + intros p es I. rewrite of_file_snoc.
      destruct (add_error_in e files p es ND I)
        as [(N & I') | (-> & [(-> & N) | (es0 & -> & I')])].
      * destruct (G p es I') as (E & Hne).
        destruct (str_eqb p (d_file e)) eqn:P.
        -- apply str_eqb_eq in P. contradiction.
        -- rewrite app_nil_r. auto.
      * rewrite str_eqb_refl. rewrite of_file_none.
        -- split; [reflexivity | discriminate].
        -- intros e' I' E'. apply N. rewrite <- E'. apply C. exact I'.
      * rewrite str_eqb_refl. destruct (G _ _ I') as (E & _).
        rewrite <- E. split; [reflexivity|].
        intros K. apply app_eq_nil in K. destruct K as (_ & K). discriminate.
    + intros e' I. rewrite add_error_keys.
      apply in_app_or in I. destruct I as [I | [<- | []]].
      * specialize (C e' I).
        destruct (existsb (fun p => str_eqb p (d_file e)) (map fst files));
          [exact C | apply in_or_app; left; exact C].
      * destruct (existsb (fun p => str_eqb p (d_file e)) (map fst files)) eqn:X.
        -- apply existsb_key. exact X.
        -- apply in_or_app. right. left. reflexivity.
Qed.

End Grouping.

(** X4. Grouping by file: the list kept under a file holds exactly the
    diagnostics that name this file, in the order of the input, and is
    never empty. *)
Theorem group_by_file_groups (errors : list FixTs18046.diagnostic)
    (p : str) (es : list FixTs18046.diagnostic) :
  In (p, es) (FixTs18046.group_by_file errors) ->
  es = of_file p errors /\ es <> [].
Proof.
  intros I.
  destruct (grouping_invariant errors [] []) as (_ & G & _).
  - constructor.
  - intros p0 es0 [].
  - intros e [].
  - apply G. exact I.
Qed.

Lemma group_by_file_groups_witness :
  [FixTs18046.Diagnostic (L "a.ts") 1 1 (L "x");
   FixTs18046.Diagnostic (L "a.ts") 3 1 (L "y")]
  = of_file (L "a.ts")
      [FixTs18046.Diagnostic (L "a.ts") 1 1 (L "x");
       FixTs18046.Diagnostic (L "b.ts") 2 1 (L "z");
       FixTs18046.Diagnostic (L "a.ts") 3 1 (L "y")]
  /\ [FixTs18046.Diagnostic (L "a.ts") 1 1 (L "x");
      FixTs18046.Diagnostic (L "a.ts") 3 1 (L "y")] <> [].
Proof.
  apply (group_by_file_groups
           [FixTs18046.Diagnostic (L "a.ts") 1 1 (L "x");
            FixTs18046.Diagnostic (L "b.ts") 2 1 (L "z");
            FixTs18046.Diagnostic (L "a.ts") 3 1 (L "y")]
           (L "a.ts")).
  vm_compute. left. reflexivity.
Defined.

(** X5. Grouping by file: no file is listed twice, and every diagnostic
    finds its file among the keys. *)
Theorem group_by_file_keys (errors : list FixTs18046.diagnostic) :
  NoDup (map fst (FixTs18046.group_by_file errors))
  /\ forall e, In e errors ->
               In (FixTs18046.d_file e)
                  (map fst (FixTs18046.group_by_file errors)).
Proof.
  destruct (grouping_invariant errors [] []) as (ND & _ & C).
  - constructor.
  - intros p0 es0 [].
  - intros e [].
  - split; [exact ND | exact C].
Qed.

(** ** fix-assertions.py: the count of fixes and files without an assertion *)

Section AssertionCount.

Import FixAssertions.

Lemma assertion_in_form (T : str) (arr : bool) (gap tl rest : str) :
  occurs (L ") as { data: Row<'") (form T arr gap tl ++ rest) = true.
Proof.
  unfold form, assertion.
  repeat (rewrite <- app_assoc; cbn [app]).
  apply (occurs_here (L ") as { data: Row<'")).
Qed.

Lemma pass1_absent (c : str) :
  occurs (L ") as { data: Row<'") c = false ->
  subn pattern1 replacement1 c = (c, 0).
Proof.
  apply subn_absent. intros prev b m M.
  destruct (pattern1_shape _ _ _ M) as (T1 & a1 & g1 & i & r & E & Et & _).
  rewrite E, Et. apply assertion_in_form.
Qed.

Lemma pass2_absent (method c : str) :
  occurs (L ") as { data: Row<'") c = false ->
  subn (pattern2 method) (replacement2 method) c = (c, 0).
Proof.
  apply subn_absent. intros prev b m M.
  destruct (pattern2_shape _ _ _ _ M) as (T1 & a1 & g1 & r & E & Et & _).
  rewrite E, Et. apply assertion_in_form.
Qed.

Lemma pass3_absent (c : str) :
  occurs (L ") as { data: Row<'") c = false ->
  subn pattern3 check_and_replace c = (c, 0).
Proof.
  apply subn_absent. intros prev b m M.
  destruct (pattern3_shape _ _ _ M) as (T1 & a1 & g1 & n & r & E & Et & _).
  rewrite E, Et. apply assertion_in_form.
Qed.

(** The count of the loop over the allow-list never goes down, and it
    stays where it was only if the content does. *)
Lemma methods_loop_count (ms : list str) :
  forall c n,
    let r := fold_left
               (fun (acc : str * nat) (method : str) =>
                  let (content, count) :=
                    subn (pattern2 method) (replacement2 method) (fst acc) in
                  (content, snd acc + count))
               ms (c, n) in
    n <= snd r /\ (snd r = n -> fst r = c).
Proof.
  induction ms as [|method ms IH]; intros c n; cbv zeta.
  - cbn [fold_left fst snd]. auto.
  - cbn [fold_left fst snd].
    pose proof (scan_uncounted (match_at (pattern2 method))
                  (replacement2 method) c None 0) as U.
    change (scan (match_at (pattern2 method)) (replacement2 method) None c 0)
      with (subn (pattern2 method) (replacement2 method) c) in U.
    destruct (subn (pattern2 method) (replacement2 method) c) as [c1 k].
    cbn [fst snd skipn] in U.
    specialize (IH c1 (n + k)). cbv zeta in IH. destruct IH as (Le & Eq).
    split; [lia|].
    intros E. assert (K : k = 0) by lia. subst k.
    rewrite Nat.add_0_r in *. rewrite (Eq E). apply U. reflexivity.
Qed.

Lemma methods_loop_absent (ms : list str) :
  forall c n,
    occurs (L ") as { data: Row<'") c = false ->
    fold_left
      (fun (acc : str * nat) (method : str) =>
         let (content, count) :=
           subn (pattern2 method) (replacement2 method) (fst acc) in
         (content, snd acc + count))
      ms (c, n) = (c, n).
Proof.
  induction ms as [|method ms IH]; intros c n H; [reflexivity|].
  cbn [fold_left fst snd]. rewrite (pass2_absent method c H).
  rewrite Nat.add_0_r. apply IH. exact H.
Qed.

Lemma rewrite_uncounted (c : str) :
  snd (rewrite c) = 0 -> fst (rewrite c) = c.
Proof.
  unfold rewrite.
  pose proof (scan_uncounted (match_at pattern1) replacement1 c None 0) as U1.
  change (scan (match_at pattern1) replacement1 None c 0)
    with (subn pattern1 replacement1 c) in U1.
  destruct (subn pattern1 replacement1 c) as [c1 k1].
  cbn [fst snd skipn] in U1.
  pose proof (methods_loop_count methods c1 (0 + k1)) as M. cbv zeta in M.
  destruct (fold_left _ methods (c1, 0 + k1)) as [c2 k2].
  cbn [fst snd] in M. destruct M as (Le & Eq).
  pose proof (scan_uncounted (match_at pattern3) check_and_replace c2 None 0)
    as U3.
  change (scan (match_at pattern3) check_and_replace None c2 0)
    with (subn pattern3 check_and_replace c2) in U3.
  destruct (subn pattern3 check_and_replace c2) as [c3 k3].
  cbn [fst snd skipn] in *.
  intros E. assert (K3 : k3 = 0) by lia. assert (K2 : k2 = 0 + k1) by lia.
  assert (K1 : k1 = 0) by lia.
  rewrite (U3 K3), (Eq K2), (U1 K1). reflexivity.
Qed.

End AssertionCount.

Lemma pass_clean (content : str) :
  occurs (L ") as { data: Row<'") content = false ->
  FixAssertions.rewrite content = (content, 0).
Proof.
  intros H. unfold FixAssertions.rewrite.
  rewrite (pass1_absent content H).
  rewrite (methods_loop_absent FixAssertions.methods content (0 + 0) H).
  rewrite (pass3_absent content H). reflexivity.
Qed.

(** X6. fix-assertions.py leaves a text alone in which the opening of an
    assertion, a closing parenthesis followed by [ as { data: Row<'],
    occurs nowhere, and counts no fix for it. *)
Theorem assertions_clean_input (content : str) :
  occurs (L ") as { data: Row<'") content = false ->
  FixAssertions.rewrite content = (content, 0).
Proof. apply pass_clean. Qed.

Lemma assertions_clean_input_witness :
  FixAssertions.rewrite (L "const { data } = await q.eq('id', id)")
  = (L "const { data } = await q.eq('id', id)", 0).
Proof.
  apply (assertions_clean_input (L "const { data } = await q.eq('id', id)")).
  vm_compute. reflexivity.
Defined.

(** X7. When fix-assertions.py changes a text, the number of fixes it
    reports is at least one. *)
Theorem assertions_changed_counts (content : str) :
  fst (FixAssertions.rewrite content) <> content ->
  1 <= snd (FixAssertions.rewrite content).
Proof.
  intros H.
  destruct (snd (FixAssertions.rewrite content)) as [|k] eqn:E; [|lia].
  exfalso. apply H. apply rewrite_uncounted. exact E.
Qed.

Lemma assertions_changed_counts_witness :
  1 <= snd (FixAssertions.rewrite
              (L "q.eq('id', id) as { data: Row<'t'>[] | null; error: any }"
               ++ [nl] ++ L "  .order('x')")).
Proof.
  apply (assertions_changed_counts
           (L "q.eq('id', id) as { data: Row<'t'>[] | null; error: any }"
            ++ [nl] ++ L "  .order('x')")).
  vm_compute. discriminate.
Defined.

(** ** What a run writes *)

Section Footprint.

Lemma store_other (path content : str) (fs : str -> file) (q : str) :
  q <> path -> store path content fs q = fs q.
Proof.
  intros N. unfold store. destruct (str_eqb q path) eqn:E; [|reflexivity].
  apply str_eqb_eq in E. contradiction.
Qed.

Lemma store_exists (path content : str) (fs : str -> file) (q : str) :
  f_exists (store path content fs q) = f_exists (fs q).
Proof. unfold store. destruct (str_eqb q path); reflexivity. Qed.

(** A completed write appends the path to the record of writes and
    touches no other path. *)
Lemma write_text_effect (path content : str) (w w' : world) :
  write_text path content w = Ok w' ->
  w_written w' = w_written w ++ [path]
  /\ w_stdout w' = w_stdout w
  /\ w_stderr w' = w_stderr w
  /\ (forall q, q <> path -> w_fs w' q = w_fs w q)
  /\ (forall q, f_exists (w_fs w' q) = f_exists (w_fs w q))
  /\ read_text path w' = Ok content.
Proof.
  unfold write_text. destruct (f_write (w_fs w path)); [discriminate|].
  intros E. inversion E; subst; clear E. cbn [w_written w_stdout w_stderr w_fs].
  repeat split; auto using store_other, store_exists.
  unfold read_text, store. cbn [w_fs]. rewrite str_eqb_refl. reflexivity.
Qed.

(** A call of [fix_file] of fix-assertions.py. *)
Lemma assertions_fix_file_effect (p : str) (w w1 : world) (b : bool) (n : nat) :
  FixAssertions.fix_file p w = (w1, (b, n)) ->
  w_stdout w1 = w_stdout w
  /\ (forall q, f_exists (w_fs w1 q) = f_exists (w_fs w q))
  /\ if b
     then w_written w1 = w_written w ++ [p]
          /\ (forall q, q <> p -> w_fs w1 q = w_fs w q)
          /\ 1 <= n
     else w_written w1 = w_written w /\ w_fs w1 = w_fs w /\ n = 0.
Proof.
  unfold FixAssertions.fix_file, FixAssertions.attempt, FixAssertions.report.
  destruct (read_text p w) as [original|e].
  - pose proof (rewrite_uncounted original) as C.
    destruct (FixAssertions.rewrite original) as [content fixes].
    cbn [fst snd] in C.
    destruct (str_eqb content original) eqn:E; cbn [negb].
    + intros H; inversion H; subst. auto.
    + apply str_eqb_neq in E.
      destruct (write_text p content w) as [w'|e] eqn:W.
      * intros H; inversion H; subst.
        destruct (write_text_effect _ _ _ _ W) as (A & B & _ & D & F & _).
        repeat split; auto.
        destruct n as [|k]; [|lia]. exfalso. apply E. apply C. reflexivity.
      * intros H; inversion H; subst. cbn. auto.
  - intros H; inversion H; subst. cbn. auto.
Qed.

(** The loop of [main] of fix-assertions.py over the files. *)
Lemma assertions_visits (files : list str) :
  forall w tf tn w' tf' tn',
    fold_left FixAssertions.visit files (w, (tf, tn)) = (w', (tf', tn')) ->
    exists ws,
      w_written w' = w_written w ++ ws
      /\ tn' = tn + length ws
      /\ tf + length ws <= tf'
      /\ (forall x, In x ws -> In x files /\ f_exists (w_fs w x) = true)
      /\ (forall q, ~ In q ws -> w_fs w' q = w_fs w q)
      /\ (forall q, f_exists (w_fs w' q) = f_exists (w_fs w q)).
Proof.
  induction files as [|p files IH]; intros w tf tn w' tf' tn' H.
  - cbn [fold_left] in H. inversion H; subst. exists [].
    rewrite app_nil_r. cbn [length].
    repeat split; auto; try lia; intros x [].
  - cbn [fold_left] in H. unfold FixAssertions.visit at 2 in H.
    destruct (f_exists (w_fs w p)) eqn:X; cbn [negb] in H.
    + destruct (FixAssertions.fix_file p w) as [w1 [fixed count]] eqn:F.
      destruct (assertions_fix_file_effect _ _ _ _ _ F) as (So & Ex & Eff).
      destruct fixed.
      * destruct Eff as (Wr & Fr & Cn).
        apply IH in H. destruct H as (ws & A & B & C & D & G & K).
        exists (p :: ws). cbn [w_written w_fs print] in *.
        rewrite A, Wr, <- app_assoc. cbn [app length].
        repeat split; try lia.
        -- destruct H as [<- | H]; [left; reflexivity | right; apply D, H].
        -- destruct H as [<- | H]; [exact X|].
           rewrite <- Ex. apply D, H.
        -- intros q N. rewrite G by (intros I; apply N; right; exact I).
           apply Fr. intros ->. apply N. left. reflexivity.
        -- intros q. rewrite K. apply Ex.
      * destruct Eff as (Wr & Fs & _).
        apply IH in H. destruct H as (ws & A & B & C & D & G & K).
        exists ws. rewrite A, Wr.
        split; [reflexivity|]. split; [exact B|]. split; [exact C|].
        split; [|split].
        -- intros x I. destruct (D x I) as (I1 & I2).
           split; [right; exact I1 | rewrite <- Fs; exact I2].
        -- intros q N. rewrite G by exact N. rewrite Fs. reflexivity.
        -- intros q. rewrite K, Fs. reflexivity.
    + apply IH in H. destruct H as (ws & A & B & C & D & G & K).
      exists ws.
      split; [exact A|]. split; [exact B|]. split; [exact C|].
      split; [|split; [exact G | exact K]].
      intros x I. destruct (D x I) as (I1 & I2).
      split; [right; exact I1 | exact I2].
Qed.

(** A call of [fix_file] of fix-final-imports.py. *)
Lemma imports_fix_file_effect (p : str) (w w1 : world) (b : bool) :
  FixFinalImports.fix_file p w = (w1, b) ->
  w_stderr w1 = w_stderr w
  /\ (forall q, f_exists (w_fs w1 q) = f_exists (w_fs w q))
  /\ if b
     then w_written w1 = w_written w ++ [p]
          /\ (forall q, q <> p -> w_fs w1 q = w_fs w q)
     else w_written w1 = w_written w /\ w_fs w1 = w_fs w.
Proof.
  unfold FixFinalImports.fix_file, FixFinalImports.attempt,
    FixFinalImports.report.
  destruct (read_text p w) as [original|e].
  - destruct (str_eqb (FixFinalImports.rewrite original) original);
      cbn [negb].
    + intros H; inversion H; subst. auto.
    + destruct (write_text p (FixFinalImports.rewrite original) w)
        as [w'|e] eqn:W.
      * intros H; inversion H; subst.
        destruct (write_text_effect _ _ _ _ W) as (A & _ & B & D & F & _).
        auto.
      * intros H; inversion H; subst. cbn. auto.
  - intros H; inversion H; subst. cbn. auto.
Qed.

Lemma imports_visits (files : list str) :
  forall w n w' n',
    fold_left FixFinalImports.visit files (w, n) = (w', n') ->
    exists ws,
      w_written w' = w_written w ++ ws
      /\ n' = n + length ws
      /\ (forall x, In x ws -> In x files)
      /\ (forall q, ~ In q ws -> w_fs w' q = w_fs w q).
Proof.
  induction files as [|p files IH]; intros w n w' n' H.
  - cbn [fold_left] in H. inversion H; subst. exists [].
    rewrite app_nil_r. cbn [length].
    repeat split; auto; intros x [].
  - cbn [fold_left] in H. unfold FixFinalImports.visit at 2 in H.
    destruct (FixFinalImports.fix_file p w) as [w1 fixed] eqn:F.
    destruct (imports_fix_file_effect _ _ _ _ F) as (_ & _ & Eff).
    destruct fixed.
    + destruct Eff as (Wr & Fr).
      apply IH in H. destruct H as (ws & A & B & D & G).
      exists (p :: ws). cbn [w_written w_fs print] in *.
      rewrite A, Wr, <- app_assoc. cbn [app length].
      repeat split; try lia.
      * intros x [<- | I]; [left; reflexivity | right; apply D, I].
      * intros q N. rewrite G by (intros I; apply N; right; exact I).
        apply Fr. intros ->. apply N. left. reflexivity.
    + destruct Eff as (Wr & Fs).
      apply IH in H. destruct H as (ws & A & B & D & G).
      exists ws. rewrite A, Wr.
      repeat split; auto.
      * intros x I. right. apply D, I.
      * intros q N. rewrite G by exact N. rewrite Fs. reflexivity.
Qed.

(** A call of [fix_file] of fix-ts18046.py. *)
Lemma narrowing_fix_file_effect (p : str) (es : list FixTs18046.diagnostic)
    (w w1 : world) (b : bool) :
  FixTs18046.fix_file p es w = (w1, b) ->
  w_stdout w1 = w_stdout w
  /\ if b
     then w_written w1 = w_written w ++ [p]
          /\ (forall q, q <> p -> w_fs w1 q = w_fs w q)
     else w_written w1 = w_written w /\ w_fs w1 = w_fs w.
Proof.
  unfold FixTs18046.fix_file, FixTs18046.attempt, FixTs18046.report.
  destruct (read_text p w) as [content|e].
  - destruct (FixTs18046.loop es (FixTs18046.readlines content, false))
      as [[lines modified]|e].
    + destruct modified.
      * destruct (write_text p (FixTs18046.writelines lines) w)
          as [w'|e] eqn:W.
        -- intros H; inversion H; subst.
           destruct (write_text_effect _ _ _ _ W) as (A & B & _ & D & _).
           auto.
        -- intros H; inversion H; subst. cbn. auto.
      * intros H; inversion H; subst. auto.
    + intros H; inversion H; subst. cbn. auto.
  - intros H; inversion H; subst. cbn. auto.
Qed.

Lemma narrowing_visits (entries : list (str * list FixTs18046.diagnostic)) :
  forall w n w' n',
    fold_left FixTs18046.visit entries (w, n) = (w', n') ->
    exists ws,
      w_written w' = w_written w ++ ws
      /\ n' = n + length ws
      /\ (forall x, In x ws -> In x (map fst entries))
      /\ (NoDup (map fst entries) -> NoDup ws)
      /\ (forall q, ~ In q ws -> w_fs w' q = w_fs w q).
Proof.
  induction entries as [|[p es] entries IH]; intros w n w' n' H.
  - cbn [fold_left] in H. inversion H; subst. exists [].
    rewrite app_nil_r. cbn [length].
    repeat split; auto; try (intros x []); try (intros _; constructor).
  - cbn [fold_left] in H. unfold FixTs18046.visit at 2 in H.
    destruct (FixTs18046.fix_file p es (print _ w)) as [w1 fixed] eqn:F.
    destruct (narrowing_fix_file_effect _ _ _ _ _ F) as (_ & Eff).
    cbn [w_written w_fs print] in Eff. cbn [map fst].
    destruct fixed.
    + destruct Eff as (Wr & Fr).
      apply IH in H. destruct H as (ws & A & B & D & ND & G).
      exists (p :: ws). rewrite A, Wr, <- app_assoc. cbn [app length].
      repeat split; try lia.
      * intros x [<- | I]; [left; reflexivity | right; apply D, I].
      * intros K. inversion K; subst. constructor; auto.
      * intros q N. rewrite G by (intros I; apply N; right; exact I).
        apply Fr. intros ->. apply N. left. reflexivity.
    + destruct Eff as (Wr & Fs).
      apply IH in H. destruct H as (ws & A & B & D & ND & G).
      exists ws. rewrite A, Wr.
      repeat split; auto.
      * intros x I. right. apply D, I.
      * intros K. inversion K; subst. auto.
      * intros q N. rewrite G by exact N. rewrite Fs. reflexivity.
Qed.

End Footprint.

(** X8. A run of fix-assertions.py with a [lib] directory: the files it
    writes are among the files it was given and existed at the start,
    every other path keeps its content, the summary counts the writes as
    the files fixed, and the number of assertions it reports is at least
    that. *)
Theorem assertions_main_writes (argv listing : list str) (w : world) :
  f_exists (w_fs w (L "lib")) = true ->
  exists ws total_fixed w1,
    FixAssertions.main argv listing w
    = (print ([nl] ++ L " Summary: Fixed " ++ show_nat total_fixed ++
              L " assertions in " ++ show_nat (length ws) ++ L " files") w1,
       0)
    /\ w_written w1 = w_written w ++ ws
    /\ length ws <= total_fixed
    /\ (forall x, In x ws ->
                  In x (match argv with [] => listing | _ => argv end)
                  /\ f_exists (w_fs w x) = true)
    /\ (forall q, ~ In q ws -> w_fs w1 q = w_fs w q).
Proof.
  intros Lib. unfold FixAssertions.main. rewrite Lib. cbn [negb].
  destruct (fold_left FixAssertions.visit
              (match argv with [] => listing | _ => argv end) (w, (0, 0)))
    as [w1 [tf tn]] eqn:F.
  destruct (assertions_visits _ _ _ _ _ _ _ F) as (ws & A & B & C & D & G & _).
  exists ws, tf, w1. cbn [Nat.add] in B, C. subst tn.
  split; [reflexivity|]. split; [exact A|]. split; [exact C|].
  split; [exact D | exact G].
Qed.

Lemma assertions_main_writes_witness :
  let content :=
    L "q.eq('id', id) as { data: Row<'t'>[] | null; error: any }" ++ [nl]
    ++ L "  .order('x')" in
  let w :=
    add_file (L "lib/a.ts") (File true (Ok content) None)
      (add_file (L "lib/b.ts") (File true (Ok (L "const b = 1")) None)
         (single_file (L "lib")
            (File true (Raised (L "[Errno 21] Is a directory: 'lib'")) None))) in
  let listing := [L "lib/gone.ts"; L "lib/a.ts"; L "lib/b.ts"] in
  (exists ws total_fixed w1,
     FixAssertions.main [] listing w
     = (print ([nl] ++ L " Summary: Fixed " ++ show_nat total_fixed ++
               L " assertions in " ++ show_nat (length ws) ++ L " files") w1,
        0)
     /\ w_written w1 = w_written w ++ ws
     /\ length ws <= total_fixed
     /\ (forall x, In x ws -> In x listing /\ f_exists (w_fs w x) = true)
     /\ (forall q, ~ In q ws -> w_fs w1 q = w_fs w q))
  /\ w_written (fst (FixAssertions.main [] listing w)) = [L "lib/a.ts"]
  /\ read_text (L "lib/a.ts") (fst (FixAssertions.main [] listing w))
     = Ok (L "q.eq('id', id)" ++ [nl] ++ L "  .order('x')")
  /\ w_stdout (fst (FixAssertions.main [] listing w))
     = [L " lib/a.ts: Fixed 1 assertion(s)" ++ [nl];
        [nl] ++ L " Summary: Fixed 1 assertions in 1 files" ++ [nl]].
Proof.
  intros content w listing. split.
  - apply (assertions_main_writes [] listing w). reflexivity.
  - vm_compute. repeat split.
Defined.

(** X9. A run of fix-final-imports.py with a [lib] directory: the files
    it writes are among the files listed, every other path keeps its
    content, and the number it prints is the number of writes. *)
Theorem imports_main_writes (listing : list str) (w : world) :
  f_exists (w_fs w (L "lib")) = true ->
  exists ws w1,
    FixFinalImports.main listing w
    = (print ([nl] ++ L " Fixed " ++ show_nat (length ws) ++ L " files") w1, 0)
    /\ w_written w1 = w_written w ++ ws
    /\ (forall x, In x ws -> In x listing)
    /\ (forall q, ~ In q ws -> w_fs w1 q = w_fs w q).
Proof.
  intros Lib. unfold FixFinalImports.main. rewrite Lib. cbn [negb].
  destruct (fold_left FixFinalImports.visit listing (w, 0)) as [w1 n] eqn:F.
  destruct (imports_visits _ _ _ _ _ F) as (ws & A & B & D & G).
  exists ws, w1. cbn [Nat.add] in B. subst n.
  split; [reflexivity|]. split; [exact A|]. split; [exact D | exact G].
Qed.

Lemma imports_main_writes_witness :
  let content :=
    L "import {" ++ [nl] ++ FixFinalImports.row_import ++ [nl] ++ L "  a," in
  let w :=
    add_file (L "lib/a.ts") (File true (Ok content) None)
      (add_file (L "lib/b.ts") (File true (Ok (L "const b = 1")) None)
         (single_file (L "lib")
            (File true (Raised (L "[Errno 21] Is a directory: 'lib'")) None))) in
  let listing := [L "lib/b.ts"; L "lib/a.ts"] in
  (exists ws w1,
     FixFinalImports.main listing w
     = (print ([nl] ++ L " Fixed " ++ show_nat (length ws) ++ L " files") w1, 0)
     /\ w_written w1 = w_written w ++ ws
     /\ (forall x, In x ws -> In x listing)
     /\ (forall q, ~ In q ws -> w_fs w1 q = w_fs w q))
  /\ w_written (fst (FixFinalImports.main listing w)) = [L "lib/a.ts"]
  /\ read_text (L "lib/a.ts") (fst (FixFinalImports.main listing w))
     = Ok (FixFinalImports.row_import ++ [nl] ++ L "import {" ++ [nl] ++ L "  a,")
  /\ w_stdout (fst (FixFinalImports.main listing w))
     = [L " Fixed lib/a.ts" ++ [nl]; [nl] ++ L " Fixed 1 files" ++ [nl]].
Proof.
  intros content w listing. split.
  - apply (imports_main_writes listing w). reflexivity.
  - vm_compute. repeat split.
Defined.

(** X10. A run of fix-ts18046.py on a non-empty list of diagnostics: no
    file is written twice, every file written is named by a diagnostic,
    every other path keeps its content, and the number printed is the
    number of writes. *)
Theorem narrowing_main_writes (errors : list FixTs18046.diagnostic)
    (w : world) :
  errors <> [] ->
  exists ws w1,
    FixTs18046.main errors w
    = print (L " Run 'npx tsc --noEmit 2>&1 | grep " ++ [dquote] ++
             L "error TS" ++ [dquote] ++
             L " | wc -l' to check remaining errors")
        (print ([nl] ++ L " Fixed " ++ show_nat (length ws) ++ L " files") w1)
    /\ w_written w1 = w_written w ++ ws
    /\ NoDup ws
    /\ (forall x, In x ws ->
                  exists e, In e errors /\ FixTs18046.d_file e = x)
    /\ (forall q, ~ In q ws -> w_fs w1 q = w_fs w q).
Proof.
  intros Hne. unfold FixTs18046.main.
  destruct errors as [|e0 errors0] eqn:Eerr; [congruence|].
  rewrite <- Eerr. clear Hne.
  destruct (fold_left FixTs18046.visit (FixTs18046.group_by_file errors)
              (print (L " Found " ++ show_nat (length errors) ++
                      L " TS18046 errors")
                 (print (L " Finding TS18046 errors...") w), 0))
    as [w1 n] eqn:F.
  destruct (narrowing_visits _ _ _ _ _ F) as (ws & A & B & D & ND & G).
  destruct (grouping_invariant errors [] []) as (K1 & K2 & _);
    [constructor | intros p0 es0 [] | intros e [] |].
  fold (FixTs18046.group_by_file errors) in K1, K2. cbn [app] in K2.
  exists ws, w1. cbn [Nat.add] in B. subst n.
  split; [reflexivity|]. split; [exact A|]. split; [exact (ND K1)|].
  split; [|exact G].
  intros x I. apply D in I. apply in_map_iff in I.
  destruct I as ([p es] & <- & I). cbn [fst].
  destruct (K2 p es I) as (E & N).
  destruct es as [|e es']; [congruence|].
  assert (Ie : In e (of_file p errors)) by (rewrite <- E; left; reflexivity).
  unfold of_file in Ie. apply filter_In in Ie. destruct Ie as (Ie & Q).
  apply str_eqb_eq in Q. exists e. split; [exact Ie | congruence].
Qed.

Lemma narrowing_main_writes_witness :
  exists ws w1,
    FixTs18046.main [FixTs18046.Diagnostic (L "a.ts") 1 1 (L "x")]
      (single_file (L "a.ts") (File true (Ok (L "x.y")) None))
    = print (L " Run 'npx tsc --noEmit 2>&1 | grep " ++ [dquote] ++
             L "error TS" ++ [dquote] ++
             L " | wc -l' to check remaining errors")
        (print ([nl] ++ L " Fixed " ++ show_nat (length ws) ++ L " files") w1)
    /\ w_written w1
       = w_written (single_file (L "a.ts") (File true (Ok (L "x.y")) None))
         ++ ws
    /\ NoDup ws
    /\ (forall x, In x ws ->
                  exists e,
                    In e [FixTs18046.Diagnostic (L "a.ts") 1 1 (L "x")]
                    /\ FixTs18046.d_file e = x)
    /\ (forall q, ~ In q ws ->
                  w_fs w1 q
                  = w_fs (single_file (L "a.ts")
                            (File true (Ok (L "x.y")) None)) q).
Proof.
  apply (narrowing_main_writes [FixTs18046.Diagnostic (L "a.ts") 1 1 (L "x")]
           (single_file (L "a.ts") (File true (Ok (L "x.y")) None))).
  discriminate.
Defined.

(** ** fix-ts18046.py: reading and writing the lines *)

Section Lines.

Import FixTs18046.

Lemma readlines_shape (s : str) :
  Forall (fun l => exists body,
            ~ In nl body /\ (l = body ++ [nl] \/ (l = body /\ body <> [])))
         (readlines s)
  /\ Forall (fun l => exists body, l = body ++ [nl])
            (removelast (readlines s)).
Proof.
  induction s as [|c s (IH1 & IH2)]; [split; constructor|].
  cbn [readlines]. destruct (Ascii.eqb c nl) eqn:E.
  - apply Ascii.eqb_eq in E. subst c. split.
    + constructor; [|exact IH1]. exists []. split; [intros []|].
      left. reflexivity.
    + cbn [removelast]. destruct (readlines s) as [|l ls]; [constructor|].
      constructor; [exists []; reflexivity | exact IH2].
  - apply Ascii.eqb_neq in E. destruct (readlines s) as [|l ls].
    + split; [|constructor]. constructor; [|constructor].
      exists [c]. split; [intros [K | []]; congruence|].
      right. split; [reflexivity | discriminate].
    + inversion IH1 as [|x xs (body & N & B) F]; subst. split.
      * constructor; [|exact F]. exists (c :: body). split.
        -- intros [K | K]; [congruence | contradiction].
        -- destruct B as [-> | (-> & Hne)];
             [left; reflexivity | right; split; [reflexivity | discriminate]].
      * cbn [removelast] in *. destruct ls as [|l2 ls]; [constructor|].
        inversion IH2 as [|x xs (b2 & ->) F2]; subst.
        constructor; [exists (c :: b2); reflexivity | exact F2].
Qed.

End Lines.

(** X11. Splitting a text into lines and writing the lines back gives the
    text again; no line is empty, a line feed stands only at the end of a
    line, and every line but the last ends in one. *)
Theorem readlines_round_trip (s : str) :
  FixTs18046.writelines (FixTs18046.readlines s) = s
  /\ Forall (fun l => exists body,
               ~ In nl body /\ (l = body ++ [nl] \/ (l = body /\ body <> [])))
            (FixTs18046.readlines s)
  /\ Forall (fun l => exists body, l = body ++ [nl])
            (removelast (FixTs18046.readlines s)).
Proof.
  split; [apply concat_readlines | apply readlines_shape].
Qed.

(** ** Texts with characters left out *)

Section Remnant.

Lemma remnant_refl (a : str) : remnant a a.
Proof. induction a; constructor; assumption. Qed.

Lemma remnant_skip (x a b : str) : remnant a b -> remnant a (x ++ b).
Proof. intros H. induction x; cbn [app]; [exact H | constructor; exact IHx]. Qed.

Lemma remnant_app (a b c d : str) :
  remnant a b -> remnant c d -> remnant (a ++ c) (b ++ d).
Proof.
  intros H1 H2. induction H1; cbn [app]; try constructor; assumption.
Qed.

Lemma remnant_length (a b : str) : remnant a b -> length a <= length b.
Proof. intros H. induction H; cbn [length]; lia. Qed.

Lemma remnant_trans (b : str) :
  forall a c, remnant a b -> remnant b c -> remnant a c.
Proof.
  intros a c H1 H2. revert a H1.
  induction H2 as [|x b c H2 IH|x b c H2 IH]; intros a H1.
  - exact H1.
  - inversion H1; subst.
    + constructor. apply IH. assumption.
    + apply remnant_drop. apply IH. assumption.
  - apply remnant_drop. apply IH. exact H1.
Qed.

Lemma remnant_same_length (a b : str) :
  remnant a b -> length a = length b -> a = b.
Proof.
  intros H. induction H; cbn [length]; intros E.
  - reflexivity.
  - f_equal. apply IHremnant. lia.
  - apply remnant_length in H. lia.
Qed.

Variable mt : matcher.
Variable repl : rmatch -> str.

Hypothesis mt_prefix :
  forall prev s m, mt prev s = Some m -> exists r, s = mt_text m ++ r.

Hypothesis repl_remnant :
  forall prev s m, mt prev s = Some m -> remnant (repl m) (mt_text m).

(** A substitution whose replacements are what is left of the matched
    texts leaves what is left of the subject. *)
Lemma scan_remnant (n : nat) :
  forall s prev, length s <= n -> remnant (fst (scan mt repl prev s 0)) s.
Proof.
  induction n as [|n IH]; intros s prev Hlen.
  - destruct s; [constructor | cbn [length] in Hlen; lia].
  - destruct s as [|c t]; [constructor|].
    destruct (mt prev (c :: t)) as [m|] eqn:M.
    + destruct (mt_text m) as [|x w] eqn:T.
      * cbn [scan]. rewrite M, T. cbn [length].
        specialize (IH t (Some c)).
        destruct (scan mt repl (Some c) t 0) as [out cnt]. cbn [fst] in *.
        constructor. apply IH. cbn [length] in Hlen. lia.
      * destruct (mt_prefix _ _ _ M) as (r & E).
        assert (Hne : mt_text m <> []) by (rewrite T; discriminate).
        rewrite (scan_match mt repl prev _ r m M E Hne). cbn [fst].
        rewrite E. apply remnant_app; [apply (repl_remnant _ _ _ M)|].
        apply IH. apply (f_equal (@length ascii)) in E.
        rewrite length_app, T in E. cbn [length] in *. lia.
    + rewrite (scan_nomatch mt repl prev c t M). cbn [fst].
      constructor. apply IH. cbn [length] in Hlen. lia.
Qed.

End Remnant.

(** ** fix-assertions.py: what a replacement keeps of its match *)

Section AssertionParts.

Import FixAssertions.

Lemma block_text (T : str) (arr : bool) (ws indent tl : str) :
  form T arr (ws ++ nl :: indent) tl
  = L ")" ++ (L " as { data: Row<'" ++ T ++ L "'>"
              ++ (if arr then L "[]" else []) ++ L " | null; error: any }"
              ++ ws)
    ++ nl :: indent ++ "."%char :: tl.
Proof.
  unfold form, assertion. cbn [L list_ascii_of_string app].
  repeat (rewrite <- app_assoc; cbn [app]). reflexivity.
Qed.

(** The text kept of a match: the parenthesis, the line feed, the
    indentation and the call. *)
Lemma kept_remnant (T : str) (arr : bool) (ws indent tl : str) :
  remnant (L ")" ++ nl :: indent ++ "."%char :: tl)
          (form T arr (ws ++ nl :: indent) tl).
Proof.
  rewrite block_text. apply remnant_app; [apply remnant_refl|].
  apply remnant_skip. apply remnant_refl.
Qed.

Lemma kept_shorter (T : str) (arr : bool) (ws indent tl : str) :
  length (L ")" ++ nl :: indent ++ "."%char :: tl)
  < length (form T arr (ws ++ nl :: indent) tl).
Proof.
  rewrite block_text. rewrite !length_app. cbn [length L list_ascii_of_string].
  rewrite !length_app. cbn [length]. lia.
Qed.

Lemma pattern2_parts (method : str) (prev : option ascii) (s : str)
    (m : rmatch) :
  match_at (pattern2 method) prev s = Some m ->
  exists T a ws indent r,
    s = mt_text m ++ r
    /\ mt_text m = form T a (ws ++ nl :: indent) (method ++ ["("%char])
    /\ replacement2 method m
       = L ")" ++ nl :: indent ++ "."%char :: method ++ ["("%char].
Proof.
  intros H. apply match_at_sound in H. destruct H as (st' & S & E & G).
  unfold pattern2 in S. apply sem_cat_app in S. destruct S as (st1 & Sb & St).
  apply block_shape in Sb.
  destruct Sb as (T1 & a1 & ws & indent & Eb & N & F & Fw & Fi & Gb).
  destruct (group_after_block a1 indent T1 []) as (L2 & L1 & L4).
  cbn [m_grp] in Gb.
  cbn [Cat] in St.
  apply sem_seq_inv in St. destruct St as (s1 & H1 & St).
  apply sem_chr_inv in H1. destruct H1 as (E1 & G1 & _).
  apply sem_seq_inv in St. destruct St as (s2 & H2 & H3).
  apply sem_lit in H2. destruct H2 as (E2 & G2 & _).
  apply sem_chr_inv in H3. destruct H3 as (E3 & G3 & _).
  cbn [m_rest] in Eb. rewrite E1, E2, E3 in Eb.
  exists T1, a1, ws, indent, (m_rest st').
  split; [exact E|]. split.
  - apply (app_inv_tail (m_rest st')). rewrite <- E, Eb, form_app.
    now rewrite <- !app_assoc.
  - unfold replacement2, expand, group.
    rewrite G, G3, G2, G1, Gb.
    destruct a1; cbn [group_lookup Nat.eqb L list_ascii_of_string app];
      repeat (rewrite <- app_assoc; cbn [app]); reflexivity.
Qed.

Lemma pattern1_parts (prev : option ascii) (s : str) (m : rmatch) :
  match_at pattern1 prev s = Some m ->
  exists T a ws indent r,
    s = mt_text m ++ r
    /\ mt_text m
       = form T a (ws ++ nl :: indent)
           (L "single() as { data: Row<'" ++ T ++ L "'> | null; error: any }")
    /\ replacement1 m
       = L ")" ++ nl :: indent ++ "."%char ::
           (L "single() as { data: Row<'" ++ T ++ L "'> | null; error: any }").
Proof.
  intros H. apply match_at_sound in H. destruct H as (st' & S & E & G).
  unfold pattern1 in S. apply sem_cat_app in S. destruct S as (st1 & Sb & St).
  apply block_shape in Sb.
  destruct Sb as (T1 & a1 & ws & indent & Eb & N & F & Fw & Fi & Gb).
  destruct (group_after_block a1 indent T1 []) as (L2 & L1 & L4).
  cbn [m_grp] in Gb.
  cbn [Cat] in St.
  apply sem_seq_inv in St. destruct St as (s1 & H1 & St).
  apply sem_lit in H1. destruct H1 as (E1 & G1 & _).
  apply sem_seq_inv in St. destruct St as (s2 & H2 & H3).
  apply sem_bref_inv in H2. destruct H2 as (w & Lw & E2 & G2).
  apply sem_lit in H3. destruct H3 as (E3 & G3 & _).
  rewrite G1, Gb in Lw.
  assert (Ew : Some w = Some T1) by exact (eq_trans (eq_sym Lw) L2).
  inversion Ew; subst w.
  cbn [m_rest] in Eb. rewrite E1, E2, E3 in Eb.
  exists T1, a1, ws, indent, (m_rest st').
  split; [exact E|]. split.
  - apply (app_inv_tail (m_rest st')). rewrite <- E, Eb, form_app.
    cbn [L list_ascii_of_string app].
    repeat (rewrite <- app_assoc; cbn [app]). reflexivity.
  - unfold replacement1, expand, group.
    rewrite G, G3, G2, G1, Gb.
    destruct a1; cbn [group_lookup Nat.eqb L list_ascii_of_string app];
      repeat (rewrite <- app_assoc; cbn [app]); reflexivity.
Qed.

Lemma pattern3_parts (prev : option ascii) (s : str) (m : rmatch) :
  match_at pattern3 prev s = Some m ->
  exists T a ws indent n r,
    s = mt_text m ++ r
    /\ mt_text m = form T a (ws ++ nl :: indent) (n ++ ["("%char])
    /\ (check_and_replace m
        = L ")" ++ nl :: indent ++ "."%char :: n ++ ["("%char]
        \/ check_and_replace m = mt_text m).
Proof.
  intros H. apply match_at_sound in H. destruct H as (st' & S & E & G).
  unfold pattern3 in S. apply sem_cat_app in S. destruct S as (st1 & Sb & St).
  apply block_shape in Sb.
  destruct Sb as (T1 & a1 & ws & indent & Eb & N & F & Fw & Fi & Gb).
  cbn [m_grp] in Gb.
  cbn [Cat] in St.
  apply sem_grp_inv in St. destruct St as (s0 & St & R0 & _ & G0).
  apply sem_seq_inv in St. destruct St as (s1 & H1 & St).
  apply sem_chr_inv in H1. destruct H1 as (E1 & G1 & _).
  apply sem_seq_inv in St. destruct St as (s2 & H2 & H3).
  apply sem_plus_cls in H2. destruct H2 as (n & E2 & Fn & _ & G2).
  apply sem_chr_inv in H3. destruct H3 as (E3 & G3 & _).
  assert (C : consumed st1 s0 = "."%char :: n ++ ["("%char]).
  { apply consumed_app. rewrite E1, E2, E3. cbn [app].
    now rewrite <- app_assoc. }
  cbn [m_rest] in Eb. rewrite E1, E2, E3, <- R0 in Eb.
  exists T1, a1, ws, indent, n, (m_rest st').
  split; [exact E|]. split.
  - apply (app_inv_tail (m_rest st')). rewrite <- E, Eb, form_app.
    now rewrite <- !app_assoc.
  - assert (X : expand m 1 ++ [nl] ++ expand m 4 ++ expand m 5
                = L ")" ++ nl :: indent ++ "."%char :: n ++ ["("%char]).
    { unfold expand, group. rewrite G, G0, C, G3, G2, G1, Gb.
      destruct a1; cbn [group_lookup Nat.eqb L list_ascii_of_string app];
        repeat (rewrite <- app_assoc; cbn [app]); reflexivity. }
    unfold check_and_replace.
    destruct (str_eqb (expand m 5) (L ".single(")
              && negb (str_eqb (expand m 3) [])); [left; exact X|].
    destruct (existsb (startswith (expand m 5)) other_methods);
      [left; exact X | right; reflexivity].
Qed.

Lemma pass1_remnant (c : str) :
  remnant (fst (subn pattern1 replacement1 c)) c.
Proof.
  unfold subn. apply (scan_remnant (match_at pattern1) replacement1)
                 with (n := length c); [| |lia].
  - intros prev s m M.
    destruct (pattern1_parts _ _ _ M) as (T & a & ws & i & r & E & _).
    exists r. exact E.
  - intros prev s m M.
    destruct (pattern1_parts _ _ _ M) as (T & a & ws & i & r & _ & Et & Er).
    rewrite Et, Er. apply kept_remnant.
Qed.

Lemma pass2_remnant (method c : str) :
  remnant (fst (subn (pattern2 method) (replacement2 method) c)) c.
Proof.
  unfold subn.
  apply (scan_remnant (match_at (pattern2 method)) (replacement2 method))
    with (n := length c); [| |lia].
  - intros prev s m M.
    destruct (pattern2_parts _ _ _ _ M) as (T & a & ws & i & r & E & _).
    exists r. exact E.
  - intros prev s m M.
    destruct (pattern2_parts _ _ _ _ M) as (T & a & ws & i & r & _ & Et & Er).
    rewrite Et, Er. apply kept_remnant.
Qed.

Lemma pass3_remnant (c : str) :
  remnant (fst (subn pattern3 check_and_replace c)) c.
Proof.
  unfold subn. apply (scan_remnant (match_at pattern3) check_and_replace)
                 with (n := length c); [| |lia].
  - intros prev s m M.
    destruct (pattern3_parts _ _ _ M) as (T & a & ws & i & n & r & E & _).
    exists r. exact E.
  - intros prev s m M.
    destruct (pattern3_parts _ _ _ M)
      as (T & a & ws & i & n & r & _ & Et & [Er | Er]).
    + rewrite Er, Et. apply kept_remnant.
    + rewrite Er. apply remnant_refl.
Qed.

Lemma methods_loop_remnant (ms : list str) :
  forall c,
    remnant (fold_left
               (fun c m => fst (subn (pattern2 m) (replacement2 m) c)) ms c)
            c.
Proof.
  induction ms as [|method ms IH]; intros c; cbn [fold_left].
  - apply remnant_refl.
  - eapply remnant_trans; [apply IH | apply pass2_remnant].
Qed.

Lemma rewrite_remnant (c : str) : remnant (fst (rewrite c)) c.
Proof.
  rewrite rewrite_content.
  eapply remnant_trans; [apply pass3_remnant|].
  eapply remnant_trans; [apply methods_loop_remnant | apply pass1_remnant].
Qed.

End AssertionParts.

(** X12. fix-assertions.py only takes characters out: the new content is
    the old content with some characters left out, so it is never longer,
    and it has the same length only if nothing changed. *)
Theorem assertions_only_delete (content : str) :
  remnant (fst (FixAssertions.rewrite content)) content
  /\ length (fst (FixAssertions.rewrite content)) <= length content
  /\ (length (fst (FixAssertions.rewrite content)) = length content ->
      fst (FixAssertions.rewrite content) = content).
Proof.
  pose proof (rewrite_remnant content) as R.
  split; [exact R|]. split; [apply remnant_length; exact R|].
  apply remnant_same_length. exact R.
Qed.

(** ** The matcher finds what the declarative reading allows *)

Section Complete.

Lemma star_iter_fallback
    (step : mstate -> (mstate -> option mstate) -> option mstate)
    (k : mstate -> option mstate) (fuel : nat) (st : mstate) :
  k st <> None -> star_iter step k fuel st <> None.
Proof.
  intros H. destruct fuel as [|fuel]; cbn [star_iter]; [exact H|].
  destruct (step st _); [discriminate | exact H].
Qed.

(** For a pattern whose starred parts are character classes: when the
    pattern can take the cursor to a state that the continuation accepts,
    the matcher succeeds. *)
Lemma run_complete (r : regex) (st st' : mstate) :
  sem r st st' ->
  class_stars r = true ->
  forall k, k st' <> None -> run r st k <> None.
Proof.
  intros S. induction S; intros C k Hk; cbn [run].
  - exact Hk.
  - unfold step_char. cbn [m_rest m_grp]. rewrite Ascii.eqb_refl. exact Hk.
  - unfold step_char. cbn [m_rest m_grp]. rewrite H. exact Hk.
  - cbn [class_stars] in C. apply andb_true_iff in C. destruct C as (C1 & C2).
    apply IHS1; [exact C1|]. apply IHS2; [exact C2 | exact Hk].
  - cbn [class_stars] in C. specialize (IHS C k Hk).
    destruct (run r st k); [discriminate | contradiction].
  - destruct (run r st k); [discriminate | exact Hk].
  - apply star_iter_fallback. exact Hk.
  - destruct r; try discriminate C.
    inversion S1 as [ | | p0 c prev t g Hp | | | | | | | | ]; subst.
    specialize (IHS2 C k Hk).
    cbn [run m_rest length] in *. cbn [star_iter run].
    unfold step_char at 1. cbn [m_rest m_grp length].
    rewrite Hp.
    replace (length t <? S (length t)) with true
      by (symmetry; apply Nat.ltb_lt; lia).
    destruct (star_iter _ k (length t) (MState (Some c) t g));
      [discriminate | contradiction].
  - cbn [class_stars] in C. apply IHS; [exact C | exact Hk].
  - rewrite H. unfold step_text. rewrite H0. exact Hk.
  - rewrite H. exact Hk.
Qed.

Lemma match_at_complete (r : regex) (prev : option ascii) (s : str)
    (st' : mstate) :
  class_stars r = true ->
  sem r (MState prev s []) st' ->
  exists m, match_at r prev s = Some m.
Proof.
  intros C S. unfold match_at.
  pose proof (run_complete r _ _ S C (fun st => Some st)) as R.
  destruct (run r (MState prev s []) (fun st => Some st)) as [st1|].
  - eexists. reflexivity.
  - exfalso. apply R; [discriminate | reflexivity].
Qed.

Lemma class_stars_lit (w : str) : class_stars (Lit w) = true.
Proof. induction w; cbn [Lit class_stars andb]; auto. Qed.

Lemma class_stars_cat (rs : list regex) :
  forallb class_stars rs = true -> class_stars (Cat rs) = true.
Proof.
  induction rs as [|r rs IH]; [reflexivity|].
  cbn [forallb]. intros H. apply andb_true_iff in H. destruct H as (H1 & H2).
  destruct rs as [|r2 rs]; [exact H1|].
  change (Cat (r :: r2 :: rs)) with (Seq r (Cat (r2 :: rs))).
  cbn [class_stars]. rewrite H1. apply IH. exact H2.
Qed.

(** Building the declarative reading, piece by piece; only the text left
    after the piece is tracked. *)
Lemma sem_chr_build (c : ascii) (st : mstate) (rest : str) :
  m_rest st = c :: rest ->
  exists st', sem (Chr c) st st' /\ m_rest st' = rest.
Proof.
  destruct st as [prev s g]. cbn [m_rest]. intros ->.
  eexists. split; [constructor | reflexivity].
Qed.

Lemma sem_lit_build (w : str) :
  forall st rest,
    m_rest st = w ++ rest ->
    exists st', sem (Lit w) st st' /\ m_rest st' = rest.
Proof.
  induction w as [|c w IH]; intros st rest E; cbn [Lit].
  - exists st. split; [constructor | exact E].
  - destruct (sem_chr_build c st (w ++ rest) E) as (s1 & S1 & E1).
    destruct (IH s1 rest E1) as (s2 & S2 & E2).
    exists s2. split; [econstructor; eassumption | exact E2].
Qed.

Lemma sem_star_build (p : ascii -> bool) (w : str) :
  Forall (fun c => p c = true) w ->
  forall st rest,
    m_rest st = w ++ rest ->
    exists st', sem (Star (Cls p)) st st' /\ m_rest st' = rest.
Proof.
  induction 1 as [|c w Hc F IH]; intros st rest E.
  - exists st. split; [constructor | exact E].
  - destruct st as [prev s g]. cbn [m_rest] in E. subst s.
    destruct (IH (MState (Some c) (w ++ rest) g) rest eq_refl)
      as (s2 & S2 & E2).
    exists s2. split; [|exact E2].
    eapply sem_star_more; [|exact S2]. constructor. exact Hc.
Qed.

Lemma sem_plus_build (p : ascii -> bool) (w : str) :
  w <> [] ->
  Forall (fun c => p c = true) w ->
  forall st rest,
    m_rest st = w ++ rest ->
    exists st', sem (Plus (Cls p)) st st' /\ m_rest st' = rest.
Proof.
  intros Hne F st rest E. destruct w as [|c w]; [congruence|].
  inversion F as [|x xs Hc F']; subst.
  destruct st as [prev s g]. cbn [m_rest] in E. subst s.
  destruct (sem_star_build p w F' (MState (Some c) (w ++ rest) g) rest eq_refl)
    as (s2 & S2 & E2).
  exists s2. split; [|exact E2].
  unfold Plus. econstructor; [|exact S2]. constructor. exact Hc.
Qed.

Lemma sem_grp_build (n : nat) (r : regex) (st : mstate) (rest : str) :
  (exists st', sem r st st' /\ m_rest st' = rest) ->
  exists st', sem (Grp n r) st st' /\ m_rest st' = rest.
Proof.
  intros (s1 & S1 & E1).
  exists (set_group n (consumed st s1) s1).
  split; [constructor; exact S1 | exact E1].
Qed.

Lemma sem_seq_build (r1 r2 : regex) (st : mstate) (mid rest : str) :
  (exists st1, sem r1 st st1 /\ m_rest st1 = mid) ->
  (forall st1, m_rest st1 = mid ->
               exists st', sem r2 st1 st' /\ m_rest st' = rest) ->
  exists st', sem (Seq r1 r2) st st' /\ m_rest st' = rest.
Proof.
  intros (s1 & S1 & E1) H2. destruct (H2 s1 E1) as (s2 & S2 & E2).
  exists s2. split; [econstructor; eassumption | exact E2].
Qed.

(** The scan counts a match when the matcher succeeds at some place of
    the subject, whatever the character before it. *)
Lemma scan_finds (mt : matcher) (repl : rmatch -> str) (a b : str) :
  b <> [] ->
  (forall prev, exists m, mt prev b = Some m /\ mt_text m <> []) ->
  forall prev, 1 <= snd (scan mt repl prev (a ++ b) 0).
Proof.
  intros Hb H. induction a as [|c a IH]; intros prev.
  - cbn [app]. destruct b as [|c b]; [congruence|].
    destruct (H prev) as (m & M & Hne). cbn [scan]. rewrite M.
    destruct (mt_text m) as [|x w]; [congruence|]. cbn [length].
    destruct (scan mt repl (Some c) b (length w)). cbn [snd]. lia.
  - cbn [app scan]. destruct (mt prev (c :: a ++ b)) as [m|].
    + destruct (length (mt_text m)) as [|j].
      * specialize (IH (Some c)).
        destruct (scan mt repl (Some c) (a ++ b) 0). exact IH.
      * destruct (scan mt repl (Some c) (a ++ b) j). cbn [snd]. lia.
    + specialize (IH (Some c)).
      destruct (scan mt repl (Some c) (a ++ b) 0). exact IH.
Qed.

(** When every replacement is shorter than its match, each match counted
    makes the result shorter. *)
Lemma scan_shrinks (mt : matcher) (repl : rmatch -> str) :
  (forall prev s m, mt prev s = Some m -> exists r, s = mt_text m ++ r) ->
  (forall prev s m, mt prev s = Some m ->
                    length (repl m) < length (mt_text m)) ->
  forall n s prev,
    length s <= n ->
    length (fst (scan mt repl prev s 0)) + snd (scan mt repl prev s 0)
    <= length s.
Proof.
  intros mt_prefix short. induction n as [|n IH]; intros s prev Hlen.
  - destruct s; [cbn; lia | cbn [length] in Hlen; lia].
  - destruct s as [|c t]; [cbn; lia|].
    destruct (mt prev (c :: t)) as [m|] eqn:M.
    + destruct (mt_text m) as [|x w] eqn:T.
      * cbn [scan]. rewrite M, T. cbn [length].
        specialize (IH t (Some c)).
        destruct (scan mt repl (Some c) t 0) as [out cnt].
        cbn [fst snd length] in *. lia.
      * destruct (mt_prefix _ _ _ M) as (r & E).
        assert (Hne : mt_text m <> []) by (rewrite T; discriminate).
        rewrite (scan_match mt repl prev _ r m M E Hne). cbn [fst snd].
        pose proof (short _ _ _ M) as Sh.
        apply (f_equal (@length ascii)) in E. rewrite length_app in E.
        specialize (IH r (last_char prev (mt_text m))).
        rewrite T in *. cbn [length] in *. rewrite length_app. lia.
    + rewrite (scan_nomatch mt repl prev c t M). cbn [fst snd length].
      specialize (IH t (Some c)). cbn [length] in Hlen. lia.
Qed.

End Complete.

(** ** fix-final-imports.py: when the content changes *)

Section FirstMatch.

Variable mt : matcher.
Variable repl : rmatch -> str.

Hypothesis mt_prefix :
  forall prev s m, mt prev s = Some m -> exists r, s = mt_text m ++ r.

(** The first place at which the scan replaces something. *)
Lemma scan_first (a b : str) :
  b <> [] ->
  (forall prev, exists m, mt prev b = Some m /\ mt_text m <> []) ->
  forall prev,
    exists a1 m r prev',
      a ++ b = a1 ++ mt_text m ++ r
      /\ mt_text m <> []
      /\ mt prev' (mt_text m ++ r) = Some m
      /\ fst (scan mt repl prev (a ++ b) 0)
         = a1 ++ repl m
           ++ fst (scan mt repl (last_char prev' (mt_text m)) r 0).
Proof.
  intros Hb H.
  assert (Here : forall prev s m,
             mt prev s = Some m -> mt_text m <> [] ->
             exists a1 m r prev',
               s = a1 ++ mt_text m ++ r
               /\ mt_text m <> []
               /\ mt prev' (mt_text m ++ r) = Some m
               /\ fst (scan mt repl prev s 0)
                  = a1 ++ repl m
                    ++ fst (scan mt repl (last_char prev' (mt_text m)) r 0)).
  { intros prev s m M Hne. destruct (mt_prefix _ _ _ M) as (r & E).
    exists [], m, r, prev. cbn [app].
    split; [exact E|]. split; [exact Hne|]. split; [rewrite <- E; exact M|].
    rewrite (scan_match mt repl prev _ r m M E Hne). reflexivity. }
  induction a as [|c a IH]; intros prev.
  - cbn [app]. destruct (H prev) as (m & M & Hne). apply (Here _ _ _ M Hne).
  - assert (Copy : fst (scan mt repl prev (c :: a ++ b) 0)
                   = c :: fst (scan mt repl (Some c) (a ++ b) 0) ->
                   exists a1 m r prev',
                     (c :: a) ++ b = a1 ++ mt_text m ++ r
                     /\ mt_text m <> []
                     /\ mt prev' (mt_text m ++ r) = Some m
                     /\ fst (scan mt repl prev ((c :: a) ++ b) 0)
                        = a1 ++ repl m
                          ++ fst (scan mt repl (last_char prev' (mt_text m))
                                     r 0)).
    { intros Ec. destruct (IH (Some c)) as (a1 & m & r & prev' & E & Hne & M & Es).
      exists (c :: a1), m, r, prev'. cbn [app].
      split; [rewrite E; reflexivity|]. split; [exact Hne|].
      split; [exact M|]. rewrite Ec, Es. reflexivity. }
    destruct (mt prev (c :: a ++ b)) as [m|] eqn:M.
    + destruct (mt_text m) as [|x w] eqn:T.
      * apply Copy. cbn [scan]. rewrite M, T. cbn [length].
        destruct (scan mt repl (Some c) (a ++ b) 0). reflexivity.
      * apply (Here _ _ _ M). rewrite T. discriminate.
    + apply Copy. rewrite (scan_nomatch mt repl prev c (a ++ b) M).
      reflexivity.
Qed.

(** A scan that changes its subject has found a match somewhere. *)
Lemma scan_changed (s : str) :
  forall prev j,
    fst (scan mt repl prev s j) <> skipn j s ->
    exists a b prev' m, s = a ++ b /\ mt prev' b = Some m.
Proof.
  induction s as [|c t IH]; intros prev j H.
  - exfalso. apply H. destruct j; reflexivity.
  - destruct j as [|j].
    + destruct (mt prev (c :: t)) as [m|] eqn:M.
      * exists [], (c :: t), prev, m. split; [reflexivity | exact M].
      * rewrite (scan_nomatch mt repl prev c t M) in H. cbn [fst skipn] in H.
        destruct (IH (Some c) 0) as (a & b & prev' & m & E & Mb).
        -- cbn [skipn]. intros K. apply H. rewrite K. reflexivity.
        -- exists (c :: a), b, prev', m. split; [rewrite E; reflexivity | exact Mb].
    + cbn [scan skipn] in H.
      destruct (IH (Some c) j H) as (a & b & prev' & m & E & Mb).
      exists (c :: a), b, prev', m. split; [rewrite E; reflexivity | exact Mb].
Qed.

End FirstMatch.

Section ImportsChange.

Import FixFinalImports.

Lemma import_prefix (prev : option ascii) (s : str) (m : rmatch) :
  match_at pattern1 prev s = Some m -> exists r, s = mt_text m ++ r.
Proof.
  intros M. apply match_at_sound in M. destruct M as (st' & _ & E & _).
  exists (m_rest st'). exact E.
Qed.

Lemma import_sem (ws post : str) (prev : option ascii) :
  Forall (fun c => is_space c = true) ws ->
  exists st',
    sem pattern1
        (MState prev (L "import {" ++ ws ++ nl :: row_import ++ post) []) st'.
Proof.
  intros F.
  destruct (sem_lit_build (L "import {")
              (MState prev (L "import {" ++ ws ++ nl :: row_import ++ post) [])
              _ eq_refl) as (s1 & S1 & E1).
  destruct (sem_star_build is_space ws F s1 _ E1) as (s2 & S2 & E2).
  destruct (sem_chr_build nl s2 _ E2) as (s3 & S3 & E3).
  destruct (sem_lit_build row_import s3 _ E3) as (s4 & S4 & E4).
  exists s4. unfold pattern1. cbn [Cat].
  eapply sem_seq; [exact S1|]. eapply sem_seq; [exact S2|].
  eapply sem_seq; [exact S3 | exact S4].
Qed.

Lemma import_found (ws post : str) (prev : option ascii) :
  Forall (fun c => is_space c = true) ws ->
  exists m,
    match_at pattern1 prev (L "import {" ++ ws ++ nl :: row_import ++ post)
    = Some m
    /\ mt_text m <> [].
Proof.
  intros F. destruct (import_sem ws post prev F) as (st' & S).
  destruct (match_at_complete pattern1 prev _ st' eq_refl S) as (m & M).
  exists m. split; [exact M|].
  destruct (import_match_nonempty _ _ _ M) as (ws' & E & _).
  rewrite E. discriminate.
Qed.

End ImportsChange.

Lemma change_iff (content : str) :
  FixFinalImports.rewrite content <> content
  <-> exists pre ws post,
        Forall (fun c => is_space c = true) ws
        /\ content
           = pre ++ L "import {" ++ ws ++ nl :: FixFinalImports.row_import
             ++ post.
Proof.
  unfold FixFinalImports.rewrite, sub, subn. split.
  - intros H.
    destruct (scan_changed (match_at FixFinalImports.pattern1)
                FixFinalImports.replacement1 content None 0 H)
      as (a & b & prev' & m & E & M).
    destruct (import_prefix _ _ _ M) as (r & Eb).
    destruct (import_match_nonempty _ _ _ M) as (ws & Et & F).
    exists a, ws, r. split; [exact F|].
    rewrite E, Eb, Et. repeat (rewrite <- app_assoc; cbn [app]). reflexivity.
  - intros (pre & ws & post & F & ->).
    destruct (scan_first (match_at FixFinalImports.pattern1)
                FixFinalImports.replacement1 import_prefix pre
                (L "import {" ++ ws ++ nl :: FixFinalImports.row_import ++ post))
      with (prev := @None ascii)
      as (a1 & m & r & prev' & E & Hne & M & Es).
    + discriminate.
    + intros prev. apply import_found. exact F.
    + rewrite Es, E. intros K. apply app_inv_head in K.
      destruct (import_match_nonempty _ _ _ M) as (ws' & Et & _).
      rewrite Et in K. unfold FixFinalImports.replacement1 in K.
      unfold FixFinalImports.row_import in K.
      cbn [L list_ascii_of_string app] in K. discriminate K.
Qed.

(** X13. fix-final-imports.py changes a text exactly when the text holds
    [import {], white space, a line feed and the type-only import of
    [Row] in a row. *)
Theorem imports_change_iff (content : str) :
  FixFinalImports.rewrite content <> content
  <-> exists pre ws post,
        Forall (fun c => is_space c = true) ws
        /\ content
           = pre ++ L "import {" ++ ws ++ nl :: FixFinalImports.row_import
             ++ post.
Proof. apply change_iff. Qed.

(** ** fix-assertions.py: an assertion before a method of the allow-list *)

Section AssertionsChange.

Import FixAssertions.

Lemma sem_array_build (st : mstate) (arr : bool) (rest : str) :
  m_rest st = (if arr then L "[]" else []) ++ rest ->
  exists st', sem (Opt (Grp 3 (Lit (L "[]")))) st st' /\ m_rest st' = rest.
Proof.
  destruct arr; intros E.
  - destruct (sem_grp_build 3 (Lit (L "[]")) st rest
                (sem_lit_build (L "[]") st rest E)) as (s1 & S1 & E1).
    exists s1. split; [apply sem_opt_some; exact S1 | exact E1].
  - exists st. split; [apply sem_opt_none | exact E].
Qed.

Lemma chained_text (T : str) (arr : bool) (ws indent name post : str) :
  chained T arr (ws ++ nl :: indent) name ++ post
  = ")"%char ::
    L " as { data: Row<'" ++ T ++ L "'>" ++ (if arr then L "[]" else [])
    ++ L " | null; error: any }" ++ ws ++ nl :: indent
    ++ "."%char :: name ++ "("%char :: post.
Proof.
  unfold chained, assertion. cbn [L list_ascii_of_string app].
  repeat (rewrite <- app_assoc; cbn [app]). reflexivity.
Qed.

Lemma pattern2_sem (T : str) (arr : bool) (ws indent name post : str)
    (prev : option ascii) :
  T <> [] ->
  Forall (fun c => not_quote c = true) T ->
  Forall (fun c => is_space c = true) ws ->
  Forall (fun c => is_space c = true) indent ->
  exists st',
    sem (pattern2 name)
        (MState prev (chained T arr (ws ++ nl :: indent) name ++ post) []) st'.
Proof.
  intros HT FT Fw Fi. rewrite chained_text.
  match goal with
  | |- exists st', sem _ (MState _ (_ :: ?rest) _) st' =>
      destruct (sem_grp_build 1 (Chr ")") (MState prev (")"%char :: rest) [])
                  rest
                  (sem_chr_build ")" (MState prev (")"%char :: rest) []) rest
                     eq_refl))
        as (s1 & S1 & E1)
  end.
  destruct (sem_lit_build (L " as { data: Row<'") s1 _ E1) as (s2 & S2 & E2).
  destruct (sem_grp_build 2 (Plus (Cls not_quote)) s2 _
              (sem_plus_build not_quote T HT FT s2 _ E2)) as (s3 & S3 & E3).
  destruct (sem_lit_build (L "'>") s3 _ E3) as (s4 & S4 & E4).
  destruct (sem_array_build s4 arr _ E4) as (s5 & S5 & E5).
  destruct (sem_lit_build (L " | null; error: any }") s5 _ E5)
    as (s6 & S6 & E6).
  destruct (sem_star_build is_space ws Fw s6 _ E6) as (s7 & S7 & E7).
  destruct (sem_chr_build nl s7 _ E7) as (s8 & S8 & E8).
  destruct (sem_grp_build 4 (Star (Cls is_space)) s8 _
              (sem_star_build is_space indent Fi s8 _ E8)) as (s9 & S9 & E9).
  destruct (sem_chr_build "." s9 _ E9) as (s10 & S10 & E10).
  destruct (sem_lit_build name s10 _ E10) as (s11 & S11 & E11).
  destruct (sem_chr_build "(" s11 _ E11) as (s12 & S12 & E12).
  exists s12. unfold pattern2, assertion_block. cbn [app Cat].
  eapply sem_seq; [exact S1|]. eapply sem_seq; [exact S2|].
  eapply sem_seq; [exact S3|]. eapply sem_seq; [exact S4|].
  eapply sem_seq; [exact S5|]. eapply sem_seq; [exact S6|].
  eapply sem_seq; [exact S7|]. eapply sem_seq; [exact S8|].
  eapply sem_seq; [exact S9|]. eapply sem_seq; [exact S10|].
  eapply sem_seq; [exact S11 | exact S12].
Qed.

Lemma pattern2_class (name : str) : class_stars (pattern2 name) = true.
Proof.
  unfold pattern2, assertion_block. apply class_stars_cat.
  cbn [app forallb class_stars Plus andb].
  rewrite !class_stars_lit. reflexivity.
Qed.

Lemma pattern2_prefix (name : str) (prev : option ascii) (s : str)
    (m : rmatch) :
  match_at (pattern2 name) prev s = Some m -> exists r, s = mt_text m ++ r.
Proof.
  intros M. destruct (pattern2_parts _ _ _ _ M) as (T & a & ws & i & r & E & _).
  exists r. exact E.
Qed.

Lemma pattern2_short (name : str) (prev : option ascii) (s : str)
    (m : rmatch) :
  match_at (pattern2 name) prev s = Some m ->
  length (replacement2 name m) < length (mt_text m).
Proof.
  intros M.
  destruct (pattern2_parts _ _ _ _ M) as (T & a & ws & i & r & _ & Et & Er).
  rewrite Et, Er. apply kept_shorter.
Qed.

(** The pass for [name] makes a content shorter that holds an assertion
    in front of a call of [name]. *)
Lemma pass2_shrinks (T : str) (arr : bool) (ws indent name pre post : str) :
  T <> [] ->
  Forall (fun c => not_quote c = true) T ->
  Forall (fun c => is_space c = true) ws ->
  Forall (fun c => is_space c = true) indent ->
  length (fst (subn (pattern2 name) (replacement2 name)
                    (pre ++ chained T arr (ws ++ nl :: indent) name ++ post)))
  < length (pre ++ chained T arr (ws ++ nl :: indent) name ++ post).
Proof.
  intros HT FT Fw Fi. unfold subn.
  pose proof (scan_finds (match_at (pattern2 name)) (replacement2 name) pre
                (chained T arr (ws ++ nl :: indent) name ++ post)) as Cnt.
  pose proof (scan_shrinks (match_at (pattern2 name)) (replacement2 name)
                (pattern2_prefix name) (pattern2_short name)
                (length (pre ++ chained T arr (ws ++ nl :: indent) name ++ post))
                (pre ++ chained T arr (ws ++ nl :: indent) name ++ post)
                None (le_n _)) as Sh.
  assert (C : 1 <= snd (scan (match_at (pattern2 name)) (replacement2 name) None
                          (pre ++ chained T arr (ws ++ nl :: indent) name ++ post)
                          0)).
  { apply Cnt.
    - rewrite chained_text. discriminate.
    - intros prev.
      destruct (pattern2_sem T arr ws indent name post prev HT FT Fw Fi)
        as (st' & S).
      destruct (match_at_complete (pattern2 name) prev _ st'
                  (pattern2_class name) S) as (m & M).
      exists m. split; [exact M|].
      destruct (pattern2_parts _ _ _ _ M) as (T1 & a & w1 & i & r & _ & Et & _).
      rewrite Et. unfold form, assertion. discriminate. }
  lia.
Qed.

Lemma rewrite_shrinks (T : str) (arr : bool) (ws indent name pre post : str) :
  In name methods ->
  T <> [] ->
  Forall (fun c => not_quote c = true) T ->
  Forall (fun c => is_space c = true) ws ->
  Forall (fun c => is_space c = true) indent ->
  length (fst (rewrite
                 (pre ++ chained T arr (ws ++ nl :: indent) name ++ post)))
  < length (pre ++ chained T arr (ws ++ nl :: indent) name ++ post).
Proof.
  intros Hin HT FT Fw Fi.
  set (content := pre ++ chained T arr (ws ++ nl :: indent) name ++ post).
  rewrite rewrite_content.
  destruct (in_split _ _ Hin) as (ms1 & ms2 & Ems). rewrite Ems.
  rewrite fold_left_app. cbn [fold_left].
  set (c1 := fst (subn pattern1 replacement1 content)).
  set (c2 := fold_left
               (fun c m => fst (subn (pattern2 m) (replacement2 m) c)) ms1 c1).
  set (c3 := fst (subn (pattern2 name) (replacement2 name) c2)).
  set (c4 := fold_left
               (fun c m => fst (subn (pattern2 m) (replacement2 m) c)) ms2 c3).
  assert (R1 : remnant c1 content) by apply pass1_remnant.
  assert (R2 : remnant c2 c1) by apply methods_loop_remnant.
  assert (R3 : remnant c3 c2) by apply pass2_remnant.
  assert (R4 : remnant c4 c3) by apply methods_loop_remnant.
  assert (R5 : remnant (fst (subn pattern3 check_and_replace c4)) c4)
    by apply pass3_remnant.
  assert (R02 : remnant c2 content) by (eapply remnant_trans; eassumption).
  pose proof (remnant_length _ _ R02) as L02.
  pose proof (remnant_length _ _ R3) as L3.
  pose proof (remnant_length _ _ R4) as L4.
  pose proof (remnant_length _ _ R5) as L5.
  destruct (Nat.eq_dec (length c2) (length content)) as [E | N]; [|lia].
  pose proof (remnant_same_length _ _ R02 E) as E2.
  assert (S3 : length c3 < length c2).
  { unfold c3. rewrite E2. unfold content.
    apply pass2_shrinks; assumption. }
  lia.
Qed.

End AssertionsChange.

(** X14. fix-assertions.py always acts on an assertion in front of a call
    of a method of its list: a content that holds the assertion, white
    space with a line feed, and the call comes out shorter, hence
    changed. *)
Theorem assertions_act_on_listed_method
    (T : str) (arr : bool) (ws indent name pre post : str) :
  In name FixAssertions.methods ->
  T <> [] ->
  Forall (fun c => not_quote c = true) T ->
  Forall (fun c => is_space c = true) ws ->
  Forall (fun c => is_space c = true) indent ->
  let content :=
    pre ++ FixAssertions.chained T arr (ws ++ nl :: indent) name ++ post in
  length (fst (FixAssertions.rewrite content)) < length content
  /\ fst (FixAssertions.rewrite content) <> content.
Proof.
  intros Hin HT FT Fw Fi content.
  pose proof (rewrite_shrinks T arr ws indent name pre post Hin HT FT Fw Fi)
    as S.
  fold content in S. split; [exact S|].
  intros E. rewrite E in S. lia.
Qed.

Lemma assertions_act_on_listed_method_witness :
  length (fst (FixAssertions.rewrite
                 (L "q" ++ FixAssertions.chained (L "t") true
                             ([] ++ nl :: L "  ") (L "order") ++ L "'x')")))
  < length (L "q" ++ FixAssertions.chained (L "t") true
                       ([] ++ nl :: L "  ") (L "order") ++ L "'x')")
  /\ fst (FixAssertions.rewrite
            (L "q" ++ FixAssertions.chained (L "t") true
                        ([] ++ nl :: L "  ") (L "order") ++ L "'x')"))
     <> L "q" ++ FixAssertions.chained (L "t") true
                   ([] ++ nl :: L "  ") (L "order") ++ L "'x')".
Proof.
  apply (assertions_act_on_listed_method (L "t") true [] (L "  ") (L "order")
           (L "q") (L "'x')")).
  - cbn. tauto.
  - discriminate.
  - repeat constructor.
  - constructor.
  - repeat constructor.
Defined.

(** ** fix-ts18046.py: reading the diagnostics *)

Section Reading.

Import FixTs18046 ReadErrors.

Lemma lazy_plus_sound (p : ascii -> bool) (k : mstate -> option mstate) :
  forall s prev g res,
    lazy_plus p k prev s g = Some res ->
    exists w rest,
      s = w ++ rest /\ w <> [] /\ Forall (fun c => p c = true) w
      /\ k (MState (last_char prev w) rest g) = Some res.
Proof.
  induction s as [|c t IH]; intros prev g res H; cbn [lazy_plus] in H;
    [discriminate|].
  destruct (p c) eqn:Pc; [|discriminate].
  destruct (k (MState (Some c) t g)) as [r|] eqn:K.
  - inversion H; subst. exists [c], t.
    split; [reflexivity|]. split; [discriminate|].
    split; [constructor; [exact Pc | constructor] | exact K].
  - apply IH in H. destruct H as (w & rest & -> & Hne & F & Kw).
    exists (c :: w), rest. split; [reflexivity|]. split; [discriminate|].
    split; [constructor; assumption|].
    rewrite <- (last_char_cons prev c w). exact Kw.
Qed.

(** The lazy iteration stops at the first place where the continuation
    succeeds. *)
Lemma lazy_plus_first (p : ascii -> bool) (k : mstate -> option mstate)
    (g : groups) (rest : str) (res : mstate) :
  forall w prev,
    w <> [] ->
    Forall (fun c => p c = true) w ->
    (forall w1 w2, w = w1 ++ w2 -> w1 <> [] -> w2 <> [] ->
                   k (MState (last_char prev w1) (w2 ++ rest) g) = None) ->
    k (MState (last_char prev w) rest g) = Some res ->
    lazy_plus p k prev (w ++ rest) g = Some res.
Proof.
  induction w as [|c w IH]; intros prev Hne F Early K; [congruence|].
  inversion F as [|x xs Pc F']; subst.
  cbn [app lazy_plus]. rewrite Pc.
  destruct w as [|c2 w].
  - cbn [app]. change (last_char prev [c]) with (Some c) in K.
    rewrite K. reflexivity.
  - assert (E0 : k (MState (Some c) ((c2 :: w) ++ rest) g) = None)
      by (apply (Early [c] (c2 :: w) eq_refl); discriminate).
    rewrite E0.
    apply IH; [discriminate | exact F' | |].
    + intros w1 w2 E N1 N2. rewrite (last_char_cons prev c w1).
      apply Early; [cbn [app]; rewrite E; reflexivity | discriminate | exact N2].
    + rewrite (last_char_cons prev c (c2 :: w)). exact K.
Qed.

Lemma digits_value_snoc (s : str) (c : ascii) :
  digits_value (s ++ [c]) = (digits_value s * 10 + digit_value c)%Z.
Proof. unfold digits_value. rewrite fold_left_app. reflexivity. Qed.

Lemma digit_value_range (c : ascii) :
  is_digit c = true -> (0 <= digit_value c <= 9)%Z.
Proof.
  unfold is_digit, between, digit_value. intros H.
  apply andb_true_iff in H. destruct H as (H1 & H2).
  apply Nat.leb_le in H1, H2. lia.
Qed.

Lemma digits_value_nonneg (s : str) :
  Forall (fun c => is_digit c = true) s -> (0 <= digits_value s)%Z.
Proof.
  induction s as [|c s IH] using rev_ind; intros F;
    [unfold digits_value; cbn; lia|].
  apply Forall_app in F. destruct F as (F1 & F2).
  inversion F2 as [|x xs Hc _]; subst.
  rewrite digits_value_snoc. specialize (IH F1).
  pose proof (digit_value_range c Hc). lia.
Qed.

(** [int] answers exactly for the strings of at most 4300 digits. *)
Lemma int_ok (s : str) (z : Z) :
  int s = Ok z <-> length s <= int_max_str_digits /\ z = digits_value s.
Proof.
  unfold int. destruct (Nat.ltb_spec int_max_str_digits (length s)).
  - split; [discriminate | intros (H1 & _); lia].
  - split.
    + intros E; inversion E; subst. split; [exact H | reflexivity].
    + intros (_ & ->). reflexivity.
Qed.

Lemma int_long (s : str) :
  int_max_str_digits < length s -> exists e, int s = Raised e.
Proof.
  intros H. unfold int.
  destruct (Nat.ltb_spec int_max_str_digits (length s)); [|lia].
  eexists. reflexivity.
Qed.

(** What a line that yields a diagnostic looks like. *)
Lemma parse_line_sound (line : str) (d : diagnostic) :
  parse_line line = Ok (Some d) ->
  exists ln col rest,
    line = message (d_file d) ln col (d_var d) ++ rest
    /\ d_line d = digits_value ln /\ d_col d = digits_value col
    /\ length ln <= int_max_str_digits
    /\ length col <= int_max_str_digits
    /\ d_file d <> [] /\ Forall (fun c => is_dot c = true) (d_file d)
    /\ ln <> [] /\ Forall (fun c => is_digit c = true) ln
    /\ col <> [] /\ Forall (fun c => is_digit c = true) col
    /\ d_var d <> [] /\ Forall (fun c => is_dot c = true) (d_var d).
Proof.
  unfold parse_line, lmatch.
  destruct (lrun pattern (MState None line []) (fun st => Some st))
    as [st'|] eqn:R; [|discriminate].
  destruct (int (expand (RMatch _ (m_grp st')) 2)) as [z2|] eqn:I2;
    [|discriminate].
  destruct (int (expand (RMatch _ (m_grp st')) 3)) as [z3|] eqn:I3;
    [|discriminate].
  intros H; inversion H; subst d; clear H. cbn [d_file d_line d_col d_var].
  unfold pattern in R. cbn [lrun m_prev m_rest m_grp] in R.
  apply lazy_plus_sound in R.
  destruct R as (w1 & rest1 & E1 & N1 & F1 & K1).
  apply run_sound in K1. destruct K1 as (st2 & S2 & K2).
  apply lazy_plus_sound in K2.
  destruct K2 as (w4 & rest4 & E4 & N4 & F4 & K4).
  apply run_sound in K4. destruct K4 as (st5 & S5 & K5).
  inversion K5; subst st5; clear K5.
  apply sem_lit in S5. destruct S5 as (E5 & G5 & _).
  cbn [set_group m_rest m_grp m_prev] in E5, G5.
  assert (C4 : consumed st2 (MState (last_char (m_prev st2) w4) rest4
                                    (m_grp st2)) = w4)
    by (apply consumed_app; exact E4).
  rewrite C4 in G5.
  assert (C1 : consumed (MState None line [])
                 (MState (last_char None w1) rest1 []) = w1)
    by (apply consumed_app; exact E1).
  rewrite C1 in S2.
  apply sem_cat_cons in S2. destruct S2 as (a1 & A1 & S2).
  apply sem_chr_inv in A1. destruct A1 as (Ea1 & Ga1 & _).
  apply sem_cat_cons in S2. destruct S2 as (a2 & A2 & S2).
  apply sem_grp_inv in A2. destruct A2 as (a2' & A2 & Ra2 & _ & Ga2).
  apply sem_plus_cls in A2. destruct A2 as (ln & Ea2 & Fa2 & Na2 & Ga2').
  apply sem_cat_cons in S2. destruct S2 as (a3 & A3 & S2).
  apply sem_chr_inv in A3. destruct A3 as (Ea3 & Ga3 & _).
  apply sem_cat_cons in S2. destruct S2 as (a4 & A4 & S2).
  apply sem_grp_inv in A4. destruct A4 as (a4' & A4 & Ra4 & _ & Ga4).
  apply sem_plus_cls in A4. destruct A4 as (col & Ea4 & Fa4 & Na4 & Ga4').
  cbn [Cat] in S2.
  apply sem_lit in S2. destruct S2 as (Ea5 & Ga5 & _).
  assert (Cln : consumed a1 a2' = ln) by (apply consumed_app; exact Ea2).
  assert (Ccol : consumed a3 a4' = col) by (apply consumed_app; exact Ea4).
  rewrite Cln in Ga2. rewrite Ccol in Ga4.
  cbn [set_group m_rest m_grp m_prev] in Ea1, Ga1.
  assert (G : m_grp st' = [(4, w4); (3, col); (2, ln); (1, w1)]).
  { rewrite G5, Ga5, Ga4, Ga4', Ga3, Ga2, Ga2', Ga1. reflexivity. }
  exists ln, col, (m_rest st').
  unfold expand, group in *. cbn [mt_grp] in *. rewrite G in *.
  cbn [group_lookup Nat.eqb] in *.
  apply int_ok in I2, I3. destruct I2 as (B2 & ->), I3 as (B3 & ->).
  split.
  - unfold message. rewrite E1, Ea1, Ea2, <- Ra2, Ea3, Ea4, <- Ra4, Ea5, E4, E5.
    cbn [L list_ascii_of_string app].
    repeat (rewrite <- app_assoc; cbn [app]). reflexivity.
  - repeat split; assumption.
Qed.

Lemma run_chr_here (c : ascii) (prev : option ascii) (t : str) (g : groups)
    (k : mstate -> option mstate) :
  run (Chr c) (MState prev (c :: t) g) k = k (MState (Some c) t g).
Proof.
  cbn [run]. unfold step_char. cbn [m_rest m_grp].
  rewrite Ascii.eqb_refl. reflexivity.
Qed.

Lemma run_chr_other (c x : ascii) (prev : option ascii) (t : str) (g : groups)
    (k : mstate -> option mstate) :
  x <> c -> run (Chr c) (MState prev (x :: t) g) k = None.
Proof.
  intros N. cbn [run]. unfold step_char. cbn [m_rest m_grp].
  destruct (Ascii.eqb c x) eqn:E; [|reflexivity].
  apply Ascii.eqb_eq in E. congruence.
Qed.

Lemma run_seq (r1 r2 : regex) (st : mstate) (k : mstate -> option mstate) :
  run (Seq r1 r2) st k = run r1 st (fun st1 => run r2 st1 k).
Proof. reflexivity. Qed.

Lemma run_grp (n : nat) (r : regex) (st : mstate)
    (k : mstate -> option mstate) :
  run (Grp n r) st k
  = run r st (fun st1 => k (set_group n (consumed st st1) st1)).
Proof. reflexivity. Qed.

Lemma run_lit_here (w : str) (k : mstate -> option mstate) (g : groups)
    (rest : str) :
  forall prev,
    run (Lit w) (MState prev (w ++ rest) g) k
    = k (MState (last_char prev w) rest g).
Proof.
  induction w as [|c w IH]; intros prev; cbn [Lit app].
  - reflexivity.
  - cbn [run]. unfold step_char. cbn [m_rest m_grp].
    rewrite Ascii.eqb_refl. fold (run (Lit w)). rewrite IH.
    rewrite (last_char_cons prev c w). reflexivity.
Qed.

(** The greedy iteration over a class takes the whole run of the class
    when the continuation succeeds behind it. *)
Lemma star_greedy (p : ascii -> bool) (k : mstate -> option mstate)
    (g : groups) (rest : str) (res : mstate) :
  (forall c t, rest = c :: t -> p c = false) ->
  forall w prev,
    Forall (fun c => p c = true) w ->
    k (MState (last_char prev w) rest g) = Some res ->
    run (Star (Cls p)) (MState prev (w ++ rest) g) k = Some res.
Proof.
  intros Stop. induction w as [|c w IH]; intros prev F K.
  - cbn [app run m_rest]. change (last_char prev []) with prev in K.
    destruct rest as [|x t]; cbn [length star_iter]; [exact K|].
    cbn [run]. unfold step_char. cbn [m_rest].
    rewrite (Stop x t eq_refl). exact K.
  - inversion F as [|x xs Pc F']; subst.
    specialize (IH (Some c) F').
    rewrite (last_char_cons prev c w) in IH. specialize (IH K).
    cbn [run m_rest] in IH. cbn [app run m_rest length star_iter].
    unfold step_char at 1. cbn [m_rest m_grp]. rewrite Pc.
    replace (length (w ++ rest) <? S (length (w ++ rest))) with true
      by (symmetry; apply Nat.ltb_lt; lia).
    rewrite IH. reflexivity.
Qed.

Lemma plus_greedy (p : ascii -> bool) (k : mstate -> option mstate)
    (g : groups) (rest : str) (res : mstate) (w : str) (prev : option ascii) :
  (forall c t, rest = c :: t -> p c = false) ->
  w <> [] ->
  Forall (fun c => p c = true) w ->
  k (MState (last_char prev w) rest g) = Some res ->
  run (Plus (Cls p)) (MState prev (w ++ rest) g) k = Some res.
Proof.
  intros Stop Hne F K. destruct w as [|c w]; [congruence|].
  inversion F as [|x xs Pc F']; subst.
  unfold Plus. cbn [run app]. unfold step_char. cbn [m_rest m_grp].
  rewrite Pc. apply (star_greedy p k g rest res Stop w (Some c) F').
  rewrite (last_char_cons prev c w). exact K.
Qed.

Lemma consumed_here (w rest : str) (p1 p2 : option ascii) (g1 g2 : groups) :
  consumed (MState p1 (w ++ rest) g1) (MState p2 rest g2) = w.
Proof. apply consumed_app. reflexivity. Qed.

Lemma message_text (file ln col var rest : str) :
  message file ln col var ++ rest
  = file ++ "("%char :: ln ++ ","%char :: col
    ++ L "): error TS18046: '" ++ var ++ L "' is of type 'unknown'" ++ rest.
Proof.
  unfold message. cbn [L list_ascii_of_string app].
  repeat (rewrite <- app_assoc; cbn [app]). reflexivity.
Qed.

(** The matcher on the text of a diagnostic. *)
Lemma pattern_on_message (file ln col var rest : str) :
  file <> [] -> Forall (fun c => is_dot c = true) file -> ~ In "("%char file ->
  ln <> [] -> Forall (fun c => is_digit c = true) ln ->
  col <> [] -> Forall (fun c => is_digit c = true) col ->
  var <> [] -> Forall (fun c => is_dot c = true) var -> ~ In "'"%char var ->
  exists st',
    lrun pattern (MState None (message file ln col var ++ rest) [])
         (fun st => Some st) = Some st'
    /\ m_grp st' = [(4, var); (3, col); (2, ln); (1, file)].
Proof.
  intros Nf Ff Pf Nl Fl Nc Fc Nv Fv Qv.
  rewrite message_text. unfold pattern. cbn [lrun m_prev m_rest m_grp].
  eexists. split.
  - apply lazy_plus_first; [exact Nf | exact Ff | |].
    + intros w1 w2 E N1 N2. destruct w2 as [|x w2]; [congruence|].
      cbn [Cat]. rewrite run_seq.
      unfold set_group; cbn [app m_prev m_rest m_grp].
      apply run_chr_other. intros ->. apply Pf. rewrite E.
      apply in_or_app. right. left. reflexivity.
    + rewrite consumed_here. cbn [Cat]; unfold set_group; cbn [m_prev m_rest m_grp].
      rewrite run_seq, run_chr_here. rewrite run_seq, run_grp.
      apply plus_greedy; [|exact Nl | exact Fl |].
      { intros c t E. inversion E; subst. reflexivity. }
      rewrite consumed_here. unfold set_group; cbn [m_prev m_rest m_grp].
      rewrite run_seq, run_chr_here. rewrite run_seq, run_grp.
      apply plus_greedy; [|exact Nc | exact Fc |].
      { intros c t E. inversion E; subst. reflexivity. }
      rewrite consumed_here. unfold set_group; cbn [m_prev m_rest m_grp].
      rewrite run_lit_here.
      apply lazy_plus_first; [exact Nv | exact Fv | |].
      * intros w1 w2 E N1 N2. destruct w2 as [|x w2]; [congruence|].
        cbn [L list_ascii_of_string Lit]. rewrite run_seq.
        unfold set_group; cbn [app m_prev m_rest m_grp].
        apply run_chr_other. intros ->. apply Qv. rewrite E.
        apply in_or_app. right. left. reflexivity.
      * rewrite consumed_here. unfold set_group; cbn [m_prev m_rest m_grp].
        rewrite run_lit_here. reflexivity.
  - reflexivity.
Qed.

Lemma parse_line_message (file ln col var rest : str) :
  file <> [] -> Forall (fun c => is_dot c = true) file -> ~ In "("%char file ->
  ln <> [] -> Forall (fun c => is_digit c = true) ln ->
  col <> [] -> Forall (fun c => is_digit c = true) col ->
  var <> [] -> Forall (fun c => is_dot c = true) var -> ~ In "'"%char var ->
  parse_line (message file ln col var ++ rest)
  = match int ln with
    | Raised e => Raised e
    | Ok line_num =>
        match int col with
        | Raised e => Raised e
        | Ok column => Ok (Some (Diagnostic file line_num column var))
        end
    end.
Proof.
  intros Nf Ff Pf Nl Fl Nc Fc Nv Fv Qv.
  destruct (pattern_on_message file ln col var rest Nf Ff Pf Nl Fl Nc Fc Nv Fv Qv)
    as (st' & R & G).
  unfold parse_line, lmatch. rewrite R.
  unfold expand, group. cbn [mt_grp]. rewrite G. reflexivity.
Qed.

Lemma parse_line_short (file ln col var rest : str) :
  file <> [] -> Forall (fun c => is_dot c = true) file -> ~ In "("%char file ->
  ln <> [] -> Forall (fun c => is_digit c = true) ln ->
  length ln <= int_max_str_digits ->
  col <> [] -> Forall (fun c => is_digit c = true) col ->
  length col <= int_max_str_digits ->
  var <> [] -> Forall (fun c => is_dot c = true) var -> ~ In "'"%char var ->
  parse_line (message file ln col var ++ rest)
  = Ok (Some (Diagnostic file (digits_value ln) (digits_value col) var)).
Proof.
  intros Nf Ff Pf Nl Fl Bl Nc Fc Bc Nv Fv Qv.
  rewrite (parse_line_message file ln col var rest Nf Ff Pf Nl Fl Nc Fc Nv Fv Qv).
  rewrite (proj2 (int_ok ln _) (conj Bl eq_refl)).
  rewrite (proj2 (int_ok col _) (conj Bc eq_refl)). reflexivity.
Qed.

Lemma collect_in (lines : list str) :
  forall errors d,
    collect lines = Ok errors ->
    In d errors ->
    exists line, In line lines /\ parse_line line = Ok (Some d).
Proof.
  induction lines as [|l ls IH]; intros errors d; cbn [collect].
  - intros E; inversion E; subst. intros [].
  - destruct (parse_line l) as [found|] eqn:P; [|discriminate].
    destruct (collect ls) as [rest|] eqn:C; [|discriminate].
    intros E; inversion E; subst; clear E.
    assert (Later : In d rest ->
                    exists line, In line (l :: ls)
                                 /\ parse_line line = Ok (Some d)).
    { intros I. destruct (IH rest d eq_refl I) as (line & Il & Pl).
      exists line. split; [right; exact Il | exact Pl]. }
    destruct found as [d0|]; [|exact Later].
    intros [<- | I]; [|exact (Later I)].
    exists l. split; [left; reflexivity | exact P].
Qed.

End Reading.

(** X15. Every diagnostic that [read_errors] returns was read off a line
    of the file that begins with the text of a diagnostic; its file and
    its identifier are not empty and hold no line feed, and its line and
    column are the values of digit strings, hence not negative. *)
Theorem read_errors_sound (w : world) (errors : list FixTs18046.diagnostic)
    (d : FixTs18046.diagnostic) :
  ReadErrors.read_errors w = Ok errors ->
  In d errors ->
  exists content line ln col rest,
    read_text ReadErrors.errors_file w = Ok content
    /\ In line (FixTs18046.readlines content)
    /\ line = ReadErrors.message (FixTs18046.d_file d) ln col
                 (FixTs18046.d_var d) ++ rest
    /\ FixTs18046.d_line d = ReadErrors.digits_value ln
    /\ FixTs18046.d_col d = ReadErrors.digits_value col
    /\ (0 <= FixTs18046.d_line d)%Z
    /\ (0 <= FixTs18046.d_col d)%Z
    /\ FixTs18046.d_file d <> []
    /\ Forall (fun c => ReadErrors.is_dot c = true) (FixTs18046.d_file d)
    /\ FixTs18046.d_var d <> []
    /\ Forall (fun c => ReadErrors.is_dot c = true) (FixTs18046.d_var d)
    /\ ln <> [] /\ Forall (fun c => ReadErrors.is_digit c = true) ln
    /\ col <> [] /\ Forall (fun c => ReadErrors.is_digit c = true) col
    /\ length ln <= ReadErrors.int_max_str_digits
    /\ length col <= ReadErrors.int_max_str_digits.
Proof.
  unfold ReadErrors.read_errors.
  destruct (read_text ReadErrors.errors_file w) as [content|e]; [|discriminate].
  intros H I.
  destruct (collect_in _ _ _ H I) as (line & Il & P).
  apply parse_line_sound in P.
  destruct P as (ln & col & rest & E & El & Ec & Bl & Bc & Nf & Ff & Nl & Fl
                 & Nc & Fc & Nv & Fv).
  exists content, line, ln, col, rest.
  split; [reflexivity|]. split; [exact Il|]. split; [exact E|].
  split; [exact El|]. split; [exact Ec|].
  split; [rewrite El; apply digits_value_nonneg; exact Fl|].
  split; [rewrite Ec; apply digits_value_nonneg; exact Fc|].
  repeat split; assumption.
Qed.

Lemma read_errors_sound_witness :
  exists content line ln col rest,
    read_text ReadErrors.errors_file
      (single_file ReadErrors.errors_file
         (File true (Ok (L "a.ts(3,7): error TS18046: 'row' is of type 'unknown'."
                         ++ [nl])) None))
    = Ok content
    /\ In line (FixTs18046.readlines content)
    /\ line = ReadErrors.message (L "a.ts") ln col (L "row") ++ rest
    /\ 3%Z = ReadErrors.digits_value ln
    /\ 7%Z = ReadErrors.digits_value col
    /\ (0 <= 3)%Z
    /\ (0 <= 7)%Z
    /\ L "a.ts" <> []
    /\ Forall (fun c => ReadErrors.is_dot c = true) (L "a.ts")
    /\ L "row" <> []
    /\ Forall (fun c => ReadErrors.is_dot c = true) (L "row")
    /\ ln <> [] /\ Forall (fun c => ReadErrors.is_digit c = true) ln
    /\ col <> [] /\ Forall (fun c => ReadErrors.is_digit c = true) col
    /\ length ln <= ReadErrors.int_max_str_digits
    /\ length col <= ReadErrors.int_max_str_digits.
Proof.
  apply (read_errors_sound
           (single_file ReadErrors.errors_file
              (File true
                 (Ok (L "a.ts(3,7): error TS18046: 'row' is of type 'unknown'."
                      ++ [nl])) None))
           [FixTs18046.Diagnostic (L "a.ts") 3 7 (L "row")]
           (FixTs18046.Diagnostic (L "a.ts") 3 7 (L "row"))).
  - vm_compute. reflexivity.
  - left. reflexivity.
Defined.

(** X16. A line that begins with the text of a diagnostic is read back
    as this diagnostic, when the file holds no line feed and no opening
    parenthesis, the line and the column are strings of at most 4300
    digits, and the identifier holds no line feed and no quote.  When the
    line number has more than 4300 digits the conversion raises. *)
Theorem parse_line_round_trip (file ln col var rest : str) :
  file <> [] ->
  Forall (fun c => ReadErrors.is_dot c = true) file ->
  ~ In "("%char file ->
  ln <> [] -> Forall (fun c => ReadErrors.is_digit c = true) ln ->
  col <> [] -> Forall (fun c => ReadErrors.is_digit c = true) col ->
  var <> [] ->
  Forall (fun c => ReadErrors.is_dot c = true) var ->
  ~ In "'"%char var ->
  (length ln <= ReadErrors.int_max_str_digits ->
   length col <= ReadErrors.int_max_str_digits ->
   ReadErrors.parse_line (ReadErrors.message file ln col var ++ rest)
   = Ok (Some (FixTs18046.Diagnostic file (ReadErrors.digits_value ln)
                 (ReadErrors.digits_value col) var)))
  /\ (ReadErrors.int_max_str_digits < length ln ->
      exists e,
        ReadErrors.parse_line (ReadErrors.message file ln col var ++ rest)
        = Raised e).
Proof.
  intros Nf Ff Pf Nl Fl Nc Fc Nv Fv Qv. split.
  - intros Bl Bc. apply parse_line_short; assumption.
  - intros Long.
    rewrite (parse_line_message file ln col var rest Nf Ff Pf Nl Fl Nc Fc Nv
               Fv Qv).
    destruct (int_long ln Long) as (e & ->). exists e. reflexivity.
Qed.

Lemma parse_line_round_trip_witness :
  ReadErrors.parse_line
    (ReadErrors.message (L "a.ts") (L "12") (L "5") (L "row") ++ L ".")
  = Ok (Some (FixTs18046.Diagnostic (L "a.ts") (ReadErrors.digits_value (L "12"))
                (ReadErrors.digits_value (L "5")) (L "row"))).
Proof.
  apply (parse_line_round_trip (L "a.ts") (L "12") (L "5") (L "row") (L "."));
    try discriminate; try (repeat constructor);
    try (cbn; intros H; repeat (destruct H as [H | H]; [discriminate H|]);
         exact H);
    try (vm_compute; intros E; discriminate E).
Defined.

Section Printed.

Import FixTs18046 ReadErrors.

Lemma dot_no_feed (w : str) :
  Forall (fun c => is_dot c = true) w -> ~ In nl w.
Proof.
  intros F I. rewrite Forall_forall in F. specialize (F nl I).
  discriminate F.
Qed.

Lemma digit_no_feed (w : str) :
  Forall (fun c => is_digit c = true) w -> ~ In nl w.
Proof.
  intros F I. rewrite Forall_forall in F. specialize (F nl I).
  discriminate F.
Qed.

Lemma readlines_line (body rest : str) :
  ~ In nl body ->
  readlines (body ++ nl :: rest) = (body ++ [nl]) :: readlines rest.
Proof.
  induction body as [|c body IH]; intros N.
  - cbn [app readlines]. rewrite Ascii.eqb_refl. reflexivity.
  - cbn [app readlines]. destruct (Ascii.eqb c nl) eqn:E.
    + apply Ascii.eqb_eq in E. exfalso. apply N. left. exact E.
    + rewrite IH by (intros I; apply N; right; exact I). reflexivity.
Qed.

Lemma printed_body (e : printed) :
  well_printed e ->
  ~ In nl (message (p_file e) (p_line e) (p_col e) (p_var e) ++ L ".").
Proof.
  intros (_ & Ff & _ & _ & Fl & _ & _ & Fc & _ & _ & Fv & _) I.
  pose proof (dot_no_feed _ Ff) as N1. pose proof (digit_no_feed _ Fl) as N2.
  pose proof (digit_no_feed _ Fc) as N3. pose proof (dot_no_feed _ Fv) as N4.
  unfold message in I. cbn [L list_ascii_of_string] in I.
  in_cases I; absurd_in.
Qed.

Lemma readlines_printed (entries : list printed) :
  Forall well_printed entries ->
  readlines (concat (map printed_line entries)) = map printed_line entries.
Proof.
  induction 1 as [|e entries We F IH]; [reflexivity|].
  cbn [map concat]. unfold printed_line at 1.
  rewrite <- !app_assoc. rewrite app_assoc.
  change ([nl] ++ concat (map printed_line entries))
    with (nl :: concat (map printed_line entries)).
  rewrite readlines_line by (apply printed_body; exact We).
  rewrite IH. unfold printed_line at 2. rewrite <- !app_assoc. reflexivity.
Qed.

Lemma collect_printed (entries : list printed) :
  Forall well_printed entries ->
  collect (map printed_line entries) = Ok (map as_diagnostic entries).
Proof.
  induction 1 as [|e entries We F IH]; [reflexivity|].
  cbn [map collect]. unfold printed_line at 1.
  destruct We as (Nf & Ff & Pf & Nl & Fl & Bl & Nc & Fc & Bc & Nv & Fv & Qv).
  rewrite (parse_line_short _ _ _ _ _ Nf Ff Pf Nl Fl Bl Nc Fc Bc Nv Fv Qv).
  rewrite IH. reflexivity.
Qed.

End Printed.

(** X17. From a file that holds the printed diagnostics, one to a line,
    with numbers of at most 4300 digits, [read_errors] returns these
    diagnostics, in the order of the file. *)
Theorem read_errors_of_printed (w : world) (entries : list printed) :
  Forall well_printed entries ->
  read_text ReadErrors.errors_file w
  = Ok (concat (map printed_line entries)) ->
  ReadErrors.read_errors w = Ok (map as_diagnostic entries).
Proof.
  intros F R. unfold ReadErrors.read_errors. rewrite R.
  rewrite (readlines_printed entries F), (collect_printed entries F).
  reflexivity.
Qed.

Lemma read_errors_of_printed_witness :
  ReadErrors.read_errors
    (single_file ReadErrors.errors_file
       (File true
          (Ok (concat (map printed_line
                         [Printed (L "b.ts") (L "30") (L "7") (L "row");
                          Printed (L "a.ts") (L "4") (L "12") (L "e")])))
          None))
  = Ok [FixTs18046.Diagnostic (L "b.ts") 30 7 (L "row");
        FixTs18046.Diagnostic (L "a.ts") 4 12 (L "e")].
Proof.
  apply (read_errors_of_printed
           (single_file ReadErrors.errors_file
              (File true
                 (Ok (concat (map printed_line
                                [Printed (L "b.ts") (L "30") (L "7") (L "row");
                                 Printed (L "a.ts") (L "4") (L "12") (L "e")])))
                 None))
           [Printed (L "b.ts") (L "30") (L "7") (L "row");
            Printed (L "a.ts") (L "4") (L "12") (L "e")]).
  - repeat (constructor;
            [unfold well_printed; cbn [p_file p_line p_col p_var];
             repeat split; try discriminate; try (repeat constructor);
             try (cbn; intros H;
                  repeat (destruct H as [H | H]; [discriminate H|]); exact H);
             try (vm_compute; intros E; discriminate E)|]).
    constructor.
  - reflexivity.
Defined.

(** ** fix-ts18046.py: when the loop raises *)

Section Raising.

Import FixTs18046.

Lemma step_raises (lines : list str) (m : bool) (d : diagnostic) (e : str) :
  (0 <= d_line d)%Z ->
  step (lines, m) d = Raised e ->
  lines = [] /\ d_line d = 0%Z /\ e = L "list index out of range".
Proof.
  intros Hd. unfold step.
  destruct (Z.leb_spec (Z.of_nat (length lines)) (d_line d - 1)) as [Hs | Hs];
    [discriminate|].
  unfold position.
  destruct (Z.leb_spec 0 (d_line d - 1)) as [H0 | H0].
  - destruct (Z.ltb_spec (d_line d - 1) (Z.of_nat (length lines))); [|lia].
    destruct (fix_line _ _ _). discriminate.
  - destruct (Z.leb_spec 0 (d_line d - 1 + Z.of_nat (length lines)))
      as [H1 | H1].
    + destruct (fix_line _ _ _). discriminate.
    + intros E. inversion E; subst.
      assert (L0 : length lines = 0) by lia.
      destruct lines; [|discriminate L0].
      split; [reflexivity|]. split; [lia | reflexivity].
Qed.

Lemma loop_raises (es : list diagnostic) :
  forall lines m e,
    Forall (fun d => (0 <= d_line d)%Z) es ->
    loop es (lines, m) = Raised e ->
    lines = []
    /\ (exists d, In d es /\ d_line d = 0%Z)
    /\ e = L "list index out of range".
Proof.
  induction es as [|d es IH]; intros lines m e F; cbn [loop]; [discriminate|].
  inversion F as [|x xs Hd F']; subst.
  destruct (step (lines, m) d) as [[l1 m1]|e1] eqn:S.
  - intros H. destruct (IH l1 m1 e F' H) as (-> & (d' & I & Z0) & ->).
    apply step_spec in S. destruct S as (Len & _).
    split; [destruct lines; [reflexivity | discriminate Len]|].
    split; [exists d'; split; [right; exact I | exact Z0] | reflexivity].
  - intros H. inversion H; subst e1.
    destruct (step_raises _ _ _ _ Hd S) as (-> & Z0 & ->).
    split; [reflexivity|].
    split; [exists d; split; [left; reflexivity | exact Z0] | reflexivity].
Qed.

(** On a file with at least one line the loop completes. *)
Lemma loop_completes (es : list diagnostic) (lines : list str) (m : bool) :
  Forall (fun d => (0 <= d_line d)%Z) es ->
  lines <> [] ->
  exists lines' m', loop es (lines, m) = Ok (lines', m').
Proof.
  intros F Hne. destruct (loop es (lines, m)) as [[l' m']|e] eqn:H.
  - exists l', m'. reflexivity.
  - destruct (loop_raises es lines m e F H) as (E & _). contradiction.
Qed.

End Raising.

(** X18. With diagnostics whose identifiers are made of word characters
    and whose line numbers are not negative, as [read_errors] produces
    them, the loop over the diagnostics raises only for a file without
    lines and a diagnostic for line 0, and what it raises is the index
    error; on a file with at least one line the loop completes. *)
Theorem loop_raises_only_on_empty_file (es : list FixTs18046.diagnostic)
    (lines : list str) (m : bool) :
  Forall (fun d => identifier (FixTs18046.d_var d)) es ->
  Forall (fun d => (0 <= FixTs18046.d_line d)%Z) es ->
  (forall e,
     FixTs18046.loop es (lines, m) = Raised e ->
     lines = []
     /\ (exists d, In d es /\ FixTs18046.d_line d = 0%Z)
     /\ e = L "list index out of range")
  /\ (lines <> [] ->
      exists lines' m', FixTs18046.loop es (lines, m) = Ok (lines', m')).
Proof.
  intros _ F. split.
  - intros e. apply loop_raises. exact F.
  - apply loop_completes. exact F.
Qed.

Lemma loop_raises_only_on_empty_file_witness :
  (forall e,
     FixTs18046.loop [FixTs18046.Diagnostic (L "a.ts") 0 1 (L "x")] ([], false)
     = Raised e ->
     @nil str = []
     /\ (exists d, In d [FixTs18046.Diagnostic (L "a.ts") 0 1 (L "x")]
                   /\ FixTs18046.d_line d = 0%Z)
     /\ e = L "list index out of range")
  /\ FixTs18046.loop [FixTs18046.Diagnostic (L "a.ts") 0 1 (L "x")] ([], false)
     = Raised (L "list index out of range")
  /\ exists lines' m',
       FixTs18046.loop [FixTs18046.Diagnostic (L "a.ts") 0 1 (L "x")]
                       ([L "x.y" ++ [nl]], false)
       = Ok (lines', m').
Proof.
  split; [|split].
  - apply (loop_raises_only_on_empty_file
             [FixTs18046.Diagnostic (L "a.ts") 0 1 (L "x")] [] false).
    + constructor; [split; [discriminate | repeat constructor] | constructor].
    + constructor; [cbn; lia | constructor].
  - reflexivity.
  - apply (loop_raises_only_on_empty_file
             [FixTs18046.Diagnostic (L "a.ts") 0 1 (L "x")]
             [L "x.y" ++ [nl]] false).
    + constructor; [split; [discriminate | repeat constructor] | constructor].
    + constructor; [cbn; lia | constructor].
    + discriminate.
Defined.

(** ** fix-ts18046.py: the text of a line is kept *)

Section ScanRelated.

Variable R : str -> str -> Prop.

Hypothesis R_nil : R [] [].
Hypothesis R_cons : forall c a b, R a b -> R (c :: a) (c :: b).
Hypothesis R_app : forall a b c d, R a b -> R c d -> R (a ++ c) (b ++ d).

Variable mt : matcher.
Variable repl : rmatch -> str.

Hypothesis mt_prefix :
  forall prev s m, mt prev s = Some m -> exists r, s = mt_text m ++ r.

Hypothesis repl_related :
  forall prev s m, mt prev s = Some m -> R (mt_text m) (repl m).

(** A relation between texts that the replacements respect is respected
    by the substitution. *)
Lemma scan_related (n : nat) :
  forall s prev, length s <= n -> R s (fst (scan mt repl prev s 0)).
Proof.
  induction n as [|n IH]; intros s prev Hlen.
  - destruct s; [exact R_nil | cbn [length] in Hlen; lia].
  - destruct s as [|c t]; [exact R_nil|].
    destruct (mt prev (c :: t)) as [m|] eqn:M.
    + destruct (mt_text m) as [|x w] eqn:T.
      * cbn [scan]. rewrite M, T. cbn [length].
        specialize (IH t (Some c)).
        destruct (scan mt repl (Some c) t 0) as [out cnt]. cbn [fst] in *.
        apply R_cons. apply IH. cbn [length] in Hlen. lia.
      * destruct (mt_prefix _ _ _ M) as (r & E).
        assert (Hne : mt_text m <> []) by (rewrite T; discriminate).
        rewrite (scan_match mt repl prev _ r m M E Hne). cbn [fst].
        rewrite E at 1. apply R_app; [apply (repl_related _ _ _ M)|].
        apply IH. apply (f_equal (@length ascii)) in E.
        rewrite length_app, T in E. cbn [length] in *. lia.
    + rewrite (scan_nomatch mt repl prev c t M). cbn [fst].
      apply R_cons. apply IH. cbn [length] in Hlen. lia.
Qed.

End ScanRelated.

Section Inserted.

Import FixTs18046.

Lemma solid_app (a b : str) : solid (a ++ b) = solid a ++ solid b.
Proof. apply filter_app. Qed.

Lemma solid_spaces (ws : str) :
  Forall (fun c => is_space c = true) ws -> solid ws = [].
Proof.
  induction 1 as [|c ws Hc F IH]; [reflexivity|].
  unfold solid in *. cbn [filter]. rewrite Hc. exact IH.
Qed.

Lemma solid_remnant (a b : str) : remnant a b -> remnant (solid a) (solid b).
Proof.
  intros H. induction H; unfold solid in *; cbn [filter].
  - constructor.
  - destruct (negb (is_space c)); [constructor|]; assumption.
  - destruct (negb (is_space c)); [apply remnant_drop|]; assumption.
Qed.

Lemma solid_cons (c : ascii) (a b : str) :
  remnant (solid a) (solid b) -> remnant (solid (c :: a)) (solid (c :: b)).
Proof.
  unfold solid. cbn [filter].
  destruct (negb (is_space c)); [apply remnant_keep | auto].
Qed.

Lemma solid_apps (a b c d : str) :
  remnant (solid a) (solid b) -> remnant (solid c) (solid d) ->
  remnant (solid (a ++ c)) (solid (b ++ d)).
Proof. intros H1 H2. rewrite !solid_app. apply remnant_app; assumption. Qed.

Lemma find_text_prefix (old : str) (prev : option ascii) (s : str)
    (m : rmatch) :
  find_text old prev s = Some m -> mt_text m = old /\ exists r, s = old ++ r.
Proof.
  unfold find_text. destruct (startswith s old) eqn:E; [|discriminate].
  intros H; inversion H; subst. split; [reflexivity|].
  apply startswith_app. exact E.
Qed.

(** The plain replacement and the substitution at an access put text
    around the identifier and take nothing away. *)
Lemma replace_inserts (v cast tl line : str) :
  remnant v cast ->
  remnant line (replace (v ++ tl) (cast ++ tl) line).
Proof.
  intros Hc. unfold replace.
  apply (scan_related (fun a b => remnant a b) remnant_nil
           (fun c a b H => remnant_keep c H)
           (fun a b c d => @remnant_app a b c d)
           (find_text (v ++ tl)) (fun _ => cast ++ tl))
    with (n := length line); [| |lia].
  - intros prev s m M. destruct (find_text_prefix _ _ _ _ M) as (-> & r & E).
    exists r. exact E.
  - intros prev s m M. destruct (find_text_prefix _ _ _ _ M) as (-> & _).
    apply remnant_app; [exact Hc | apply remnant_refl].
Qed.

Lemma access_inserts (v cast line : str) :
  remnant v cast ->
  remnant line (sub (access_pattern v) (fun _ => cast ++ L ".") line).
Proof.
  intros Hc. unfold sub, subn.
  apply (scan_related (fun a b => remnant a b) remnant_nil
           (fun c a b H => remnant_keep c H)
           (fun a b c d => @remnant_app a b c d)
           (match_at (access_pattern v)) (fun _ => cast ++ L "."))
    with (n := length line); [| |lia].
  - intros prev s m M. destruct (access_shape v _ _ _ M) as (_ & _ & r & E).
    exists r. exact E.
  - intros prev s m M. destruct (access_shape v _ _ _ M) as (-> & _).
    apply remnant_app; [exact Hc | apply remnant_refl].
Qed.

Lemma cast_error_around (v : str) : remnant v (cast_error v).
Proof.
  unfold cast_error. apply (remnant_skip (L "(")).
  rewrite <- (app_nil_r v) at 1.
  apply remnant_app; [apply remnant_refl|]. apply (remnant_skip (L " as Error)")).
  constructor.
Qed.

Lemma cast_any_around (v : str) : remnant v (cast_any v).
Proof.
  unfold cast_any. apply (remnant_skip (L "(")).
  rewrite <- (app_nil_r v) at 1.
  apply remnant_app; [apply remnant_refl|]. apply (remnant_skip (L " as any)")).
  constructor.
Qed.

Lemma paren_arrow_keeps (v line : str) :
  remnant (solid line)
    (solid (sub (paren_arrow_pattern v)
                (fun _ => L "(" ++ v ++ L ": any =>") line)).
Proof.
  unfold sub, subn.
  apply (scan_related (fun a b => remnant (solid a) (solid b)) remnant_nil
           solid_cons solid_apps
           (match_at (paren_arrow_pattern v))
           (fun _ => L "(" ++ v ++ L ": any =>"))
    with (n := length line); [| |lia].
  - intros prev s m M. destruct (paren_arrow_shape v _ _ _ M) as (_ & r & E).
    exists r. exact E.
  - intros prev s m M.
    destruct (paren_arrow_shape v _ _ _ M) as ((ws & -> & F) & _).
    rewrite !solid_app, (solid_spaces ws F). cbn [app].
    apply remnant_app; [apply remnant_refl|].
    apply remnant_app; [apply remnant_refl|].
    apply (remnant_skip (L ":any")). apply remnant_refl.
Qed.

Lemma arrow_keeps (v line : str) :
  remnant (solid line)
    (solid (sub (arrow_pattern v)
                (fun _ => L "(" ++ v ++ L ": any) =>") line)).
Proof.
  unfold sub, subn.
  apply (scan_related (fun a b => remnant (solid a) (solid b)) remnant_nil
           solid_cons solid_apps
           (match_at (arrow_pattern v))
           (fun _ => L "(" ++ v ++ L ": any) =>"))
    with (n := length line); [| |lia].
  - intros prev s m M. destruct (arrow_shape v _ _ _ M) as (_ & _ & r & E).
    exists r. exact E.
  - intros prev s m M.
    destruct (arrow_shape v _ _ _ M) as ((ws & -> & F) & _).
    rewrite !solid_app, (solid_spaces ws F). cbn [app].
    apply (remnant_skip (L "(")).
    apply remnant_app; [apply remnant_refl|].
    apply (remnant_skip (L ":any)")). apply remnant_refl.
Qed.

Lemma pattern1_inserts (v line : str) (m : bool) :
  remnant line (fst (pattern1 v line m)).
Proof.
  unfold pattern1.
  destruct (occurs (v ++ L ".message") line
            && negb (occurs (cast_error v) line)); cbn [fst].
  - apply replace_inserts. apply cast_error_around.
  - destruct (occurs (v ++ L ".") line && negb (occurs (cast_error v) line)
              && negb (occurs (cast_any v) line)); cbn [fst].
    + apply access_inserts. apply cast_error_around.
    + apply remnant_refl.
Qed.

Lemma pattern3_inserts (v line : str) (m : bool) :
  remnant line (fst (pattern3 v line m)).
Proof.
  unfold pattern3. cbn [fst]. apply access_inserts. apply cast_any_around.
Qed.

Lemma pattern2_keeps (v line : str) (m : bool) :
  remnant (solid line) (solid (fst (pattern2 v line m))).
Proof.
  unfold pattern2.
  destruct (negb (occurs (annotation v) line)); cbv zeta; cbn [fst].
  - eapply remnant_trans; [apply paren_arrow_keeps | apply arrow_keeps].
  - apply remnant_refl.
Qed.

End Inserted.

(** X19. A diagnostic whose identifier is made of word characters never
    takes text away from its line.  In the branch for error names and in
    the general branch the old line is the new line with characters left
    out; in the branch for callbacks this holds of the characters that are
    not white space. *)
Theorem narrowing_keeps_text (v line : str) (m : bool) :
  identifier v ->
  remnant (solid line) (solid (fst (FixTs18046.fix_line v line m)))
  /\ (existsb (str_eqb v) FixTs18046.error_names = true
      \/ FixTs18046.is_callback_line line = false ->
      remnant line (fst (FixTs18046.fix_line v line m))).
Proof.
  intros _. unfold FixTs18046.fix_line.
  destruct (existsb (str_eqb v) FixTs18046.error_names).
  - pose proof (pattern1_inserts v line m) as P.
    split; [apply solid_remnant; exact P | intros _; exact P].
  - destruct (FixTs18046.is_callback_line line).
    + split; [apply pattern2_keeps|]. intros [H | H]; discriminate H.
    + destruct (FixTs18046.pattern3_trigger v line).
      * pose proof (pattern3_inserts v line m) as P.
        split; [apply solid_remnant; exact P | intros _; exact P].
      * cbn [fst]. split; [|intros _]; apply remnant_refl.
Qed.

Lemma narrowing_keeps_text_witness :
  remnant (solid (L "items.map((row  => row.id)"))
          (solid (fst (FixTs18046.fix_line (L "row")
                         (L "items.map((row  => row.id)") false)))
  /\ (existsb (str_eqb (L "row")) FixTs18046.error_names = true
      \/ FixTs18046.is_callback_line (L "items.map((row  => row.id)") = false ->
      remnant (L "items.map((row  => row.id)")
              (fst (FixTs18046.fix_line (L "row")
                      (L "items.map((row  => row.id)") false))).
Proof.
  apply (narrowing_keeps_text (L "row") (L "items.map((row  => row.id)") false).
  split; [discriminate | repeat constructor].
Defined.

(** ** fix-final-imports.py: the text is reordered *)

Section Reordered.

Import FixFinalImports.

(** [b] holds the characters of [a], in some order, but for some white
    space. *)
Lemma reordered_app (a b c d da dc : str) :
  Permutation a (b ++ da) -> Permutation c (d ++ dc) ->
  Permutation (a ++ c) ((b ++ d) ++ da ++ dc).
Proof.
  intros H1 H2.
  apply (Permutation_trans (Permutation_app H1 H2)).
  rewrite <- !app_assoc. apply Permutation_app_head.
  rewrite !app_assoc. apply Permutation_app_tail.
  apply Permutation_app_comm.
Qed.

Lemma import_swap (a b ws : str) :
  Permutation (a ++ ws ++ nl :: b) ((b ++ [nl] ++ a) ++ ws).
Proof.
  apply (Permutation_trans (Permutation_app_comm a (ws ++ nl :: b))).
  rewrite <- app_assoc.
  apply (Permutation_trans (Permutation_app_comm ws ((nl :: b) ++ a))).
  apply Permutation_app_tail. cbn [app].
  apply (Permutation_middle b a nl).
Qed.

Lemma rewrite_reorders (content : str) :
  exists dropped,
    Forall (fun c => is_space c = true) dropped
    /\ Permutation content (rewrite content ++ dropped).
Proof.
  unfold rewrite, sub, subn.
  apply (scan_related
           (fun a b => exists dropped,
                Forall (fun c => is_space c = true) dropped
                /\ Permutation a (b ++ dropped)))
    with (n := length content); [| | | | |lia].
  - exists []. split; [constructor | constructor].
  - intros c a b (d & F & P). exists d. split; [exact F|].
    cbn [app]. apply perm_skip. exact P.
  - intros a b c d (da & Fa & Pa) (dc & Fc & Pc). exists (da ++ dc).
    split; [apply Forall_app; split; assumption|].
    apply reordered_app; assumption.
  - apply import_prefix.
  - intros prev s m M.
    destruct (import_match_nonempty _ _ _ M) as (ws & -> & F).
    exists ws. split; [exact F|]. unfold replacement1. apply import_swap.
Qed.

End Reordered.

(** X20. fix-final-imports.py only moves text and drops white space: the
    old content is a rearrangement of the new content and of some white
    space. *)
Theorem imports_only_reorder (content : str) :
  exists dropped,
    Forall (fun c => is_space c = true) dropped
    /\ Permutation content (FixFinalImports.rewrite content ++ dropped).
Proof. apply rewrite_reorders. Qed.

(** ** Files that need no fix *)

(** X21. fix-assertions.py on a file that it can read and that holds no
    opening of an assertion: nothing is written or printed, and the
    answer is [(False, 0)]. *)
Theorem assertions_fix_file_clean (p content : str) (w : world) :
  read_text p w = Ok content ->
  occurs (L ") as { data: Row<'") content = false ->
  FixAssertions.fix_file p w = (w, (false, 0)).
Proof.
  intros R H. unfold FixAssertions.fix_file, FixAssertions.attempt.
  rewrite R. rewrite (pass_clean content H).
  rewrite str_eqb_refl. reflexivity.
Qed.

Lemma assertions_fix_file_clean_witness :
  FixAssertions.fix_file (L "lib/a.ts")
    (single_file (L "lib/a.ts") (File true (Ok (L "q.eq('id', id)")) None))
  = (single_file (L "lib/a.ts") (File true (Ok (L "q.eq('id', id)")) None),
     (false, 0)).
Proof.
  apply (assertions_fix_file_clean (L "lib/a.ts") (L "q.eq('id', id)")
           (single_file (L "lib/a.ts")
              (File true (Ok (L "q.eq('id', id)")) None))).
  - reflexivity.
  - vm_compute. reflexivity.
Defined.

(** X22. fix-final-imports.py on a file that it can read and write
    answers [True] exactly when the content holds [import {], white
    space, a line feed and the type-only import of [Row] in a row; the
    file then holds the rewritten content. *)
Theorem imports_fix_file_acts (p content : str) (w : world) :
  read_text p w = Ok content ->
  f_write (w_fs w p) = None ->
  (snd (FixFinalImports.fix_file p w) = true
   <-> exists pre ws post,
         Forall (fun c => is_space c = true) ws
         /\ content
            = pre ++ L "import {" ++ ws ++ nl :: FixFinalImports.row_import
              ++ post)
  /\ (snd (FixFinalImports.fix_file p w) = true ->
      read_text p (fst (FixFinalImports.fix_file p w))
      = Ok (FixFinalImports.rewrite content)).
Proof.
  intros R W. unfold FixFinalImports.fix_file, FixFinalImports.attempt.
  rewrite R. unfold write_text. rewrite W.
  destruct (str_eqb (FixFinalImports.rewrite content) content) eqn:E;
    cbn [negb fst snd].
  - apply str_eqb_eq in E. split.
    + split; [discriminate|]. intros H.
      apply (change_iff content) in H. contradiction.
    + discriminate.
  - apply str_eqb_neq in E. split.
    + split; [intros _; apply (change_iff content); exact E | reflexivity].
    + intros _. unfold read_text, store. cbn [w_fs].
      rewrite str_eqb_refl. reflexivity.
Qed.

Lemma imports_fix_file_acts_witness :
  let content :=
    L "import {" ++ [nl] ++ FixFinalImports.row_import ++ [nl] ++ L "  a," in
  let w := single_file (L "lib/a.ts") (File true (Ok content) None) in
  ((snd (FixFinalImports.fix_file (L "lib/a.ts") w) = true
    <-> exists pre ws post,
          Forall (fun c => is_space c = true) ws
          /\ content
             = pre ++ L "import {" ++ ws ++ nl :: FixFinalImports.row_import
               ++ post)
   /\ (snd (FixFinalImports.fix_file (L "lib/a.ts") w) = true ->
       read_text (L "lib/a.ts") (fst (FixFinalImports.fix_file (L "lib/a.ts") w))
       = Ok (FixFinalImports.rewrite content)))
  /\ snd (FixFinalImports.fix_file (L "lib/a.ts") w) = true
  /\ read_text (L "lib/a.ts") (fst (FixFinalImports.fix_file (L "lib/a.ts") w))
     = Ok (FixFinalImports.row_import ++ [nl] ++ L "import {" ++ [nl]
           ++ L "  a,").
Proof.
  intros content w.
  pose proof (imports_fix_file_acts (L "lib/a.ts") content w eq_refl eq_refl)
    as (Iff & Rd).
  assert (T : snd (FixFinalImports.fix_file (L "lib/a.ts") w) = true).
  { apply Iff. exists [], [], ([nl] ++ L "  a,").
    split; [constructor | reflexivity]. }
  split; [split; [exact Iff | exact Rd]|].
  split; [exact T|]. rewrite (Rd T). vm_compute. reflexivity.
Defined.

(** ** fix-ts18046.py: an access at a word boundary is narrowed *)

Section Grows.

Variable mt : matcher.
Variable repl : rmatch -> str.

Hypothesis mt_prefix :
  forall prev s m, mt prev s = Some m -> exists r, s = mt_text m ++ r.

Hypothesis longer :
  forall prev s m, mt prev s = Some m -> length (mt_text m) < length (repl m).



End Grows.

Section AccessActs.

Import FixTs18046.

Variable v : str.
Hypothesis v_identifier : identifier v.








End AccessActs.


